(** * LaMEM staggered grid (fdstag.c) and residual assembly (JacRes):
      a shallow embedding and the properties of its specification.

    Conventions of the embedding.
    - [PetscScalar] is modelled by the real numbers [R], which have no
      rounding, no infinity and no NaN: a quotient by zero, which the
      machine stores as an infinity or a NaN, has no counterpart here.  The
      properties of the coordinates of a segment, and of what is built on
      them, exclude it by a hypothesis, and [Discret1DGenCoord] has no
      result here when it would leave such a quotient in its buffer.  Where
      a property turns on the rounding or on a NaN of the machine, the
      lines of the program in question are given a second time over the
      binary64 numbers of the kernel, in the module [Binary64].  [PetscInt]
      is modelled by [Z] (signed overflow is undefined in C and is not
      modelled).
    - A C array reached through a pointer is a total map from its index to
      its value; [p[i] = v] is the pointwise update [upd p i v].  A pointer
      into a buffer is the buffer together with an offset.  The node buffer
      of an axis has its bounds checked in [Discret1DGenCoord]: a run that
      touches an entry outside of it has no result.
    - A distributed-array view [a[k][j][i]] is a map of three indices.
    - [for(i = lo; i < hi; i++)] is [for_loop lo hi]; the standard triple
      loop of the sources (k outermost, i innermost) is [std_loop].
    - A function that ends in [PetscFunctionReturn(0)] after [CHKERRQ]
      checks returns [Res]: [Ok] with the new state or [Err] with the code.

    Outline.  Part I: the model, function by function.  Part II: the
    vocabulary of the properties.  Part III: example inputs.  Part IV: the
    properties.  Part V: the theorems at work on the example inputs. *)

From Stdlib Require Import ZArith Zquot List Bool Lia Reals Lra Psatz.
From Stdlib Require PrimFloat Uint63.
Import ListNotations.

Open Scope Z_scope.
Open Scope R_scope.

(** ** Part I: the model *)

(** *** C-like building blocks *)

Definition PetscInt := Z.
Definition PetscScalar := R.
Definition PetscErrorCode := Z.
Definition PETSC_ERR_USER : PetscErrorCode := 83%Z.

Inductive Res (A : Type) : Type :=
| Ok (a : A)
| Err (code : PetscErrorCode).
Arguments Ok {A} a.
Arguments Err {A} code.

Definition bindR {A B} (r : Res A) (k : A -> Res B) : Res B :=
  match r with
  | Ok a => k a
  | Err c => Err c
  end.

Notation "'CHK' x <- e ;; k" := (bindR e (fun x => k))
  (at level 10, x pattern, e at level 99, k at level 200).

Definition upd {A} (p : Z -> A) (i : Z) (v : A) : Z -> A :=
  fun j => if Z.eqb j i then v else p j.

Fixpoint for_count {St} (n : nat) (i : Z) (body : Z -> St -> St) (s : St) : St :=
  match n with
  | O => s
  | S n' => for_count n' (i + 1)%Z body (body i s)
  end.

(** [for(i = lo; i < hi; i++) s = body i s] *)
Definition for_loop {St} (lo hi : Z) (body : Z -> St -> St) (s : St) : St :=
  for_count (Z.to_nat (hi - lo)) lo body s.



(** Three-index arrays, [a[k][j][i]]. *)
Definition arr3 := Z -> Z -> Z -> R.

Definition get3 (a : arr3) (k j i : Z) : R := a k j i.

Definition set3 (a : arr3) (k j i : Z) (v : R) : arr3 :=
  fun k' j' i' =>
    if (Z.eqb k' k && Z.eqb j' j && Z.eqb i' i)%bool then v else a k' j' i'.

Notation "a @[ k , j , i ]" := (get3 a k j i)
  (at level 1, k at level 99, j at level 99, i at level 99,
   format "a @[ k ,  j ,  i ]").

(** START_STD_LOOP ... END_STD_LOOP:
    [for(k = sz; k < sz+nz; k++) for(j = sy; j < sy+ny; j++)
     for(i = sx; i < sx+nx; i++)]. *)
Definition std_loop {St} (sx sy sz nx ny nz : Z)
    (body : Z -> Z -> Z -> St -> St) (s : St) : St :=
  for_loop sz (sz + nz) (fun k =>
    for_loop sy (sy + ny) (fun j =>
      for_loop sx (sx + nx) (fun i => body k j i))) s.


(** *** MeshSeg1D *)

Record MeshSeg1D := {
  nsegs  : Z;          (* number of segments *)
  istart : Z -> Z;     (* indices of the first nodes plus last index *)
  xstart : Z -> R;     (* coordinates of the first nodes plus total size *)
  biases : Z -> R      (* biases for each segment *)
}.

Record MeshSegInp := {
  msi_nsegs  : Z;
  msi_delims : Z -> R;
  msi_ncells : Z -> Z;
  msi_biases : Z -> R
}.

(** [makeIntArray] and [makeScalArray] (Utils, not among the sources) are
    taken to return a cleared array when no initial data is passed. *)
Definition zeroInt : Z -> Z := fun _ => 0%Z.
Definition zeroScal : Z -> R := fun _ => 0.

Definition MeshSeg1DCreate (beg end_ : R) (tncels : Z) (msi : MeshSegInp)
  : MeshSeg1D :=
  let n := if Z.eqb (msi_nsegs msi) 0 then 1%Z else msi_nsegs msi in
  let '(ist, xst, bia) :=
    if Z.eqb (msi_nsegs msi) 0 then
      (zeroInt, zeroScal, upd zeroScal 0 1)
    else
      let '(_, ist, xst) :=
        for_loop 0 (msi_nsegs msi - 1)
          (fun i '(cnt, ist, xst) =>
             let cnt := (cnt + msi_ncells msi i)%Z in
             (cnt, upd ist (i + 1) cnt, upd xst (i + 1) (msi_delims msi i)))
          (0%Z, zeroInt, zeroScal) in
      let bia :=
        for_loop 0 (msi_nsegs msi)
          (fun i bia => upd bia i (msi_biases msi i)) zeroScal in
      (ist, xst, bia) in
  {| nsegs  := n;
     istart := upd (upd ist 0 0%Z) n tncels;
     xstart := upd (upd xst 0 beg) n end_;
     biases := bia |}.

Definition MeshSeg1DStretch (ms : MeshSeg1D) (eps : R) : MeshSeg1D :=
  {| nsegs  := nsegs ms;
     istart := istart ms;
     xstart := for_loop 0 (nsegs ms + 1)
                 (fun i xs => upd xs i (xs i * (1 - eps))) (xstart ms);
     biases := biases ms |}.

(** [crd] is a pointer into the coordinate buffer [mem]: [crd[i]] is
    [mem (crd + i)]. *)
Definition MeshSeg1DGenCoord (ms : MeshSeg1D) (iseg nl istart_ : Z)
    (crd : Z) (mem : Z -> R) : Z -> R :=
  (* total number of nodes in segment (including both ends) *)
  let N := (istart ms (iseg + 1) - istart ms iseg + 1)%Z in
  (* total number of cells *)
  let M := (N - 1)%Z in
  let xbeg := xstart ms iseg in
  let xclose := xstart ms (iseg + 1) in
  let bias := biases ms iseg in
  let avgSz := (xclose - xbeg) / IZR M in
  let mem1 :=
    if Req_dec_T bias 1 then
      for_loop 0 nl
        (fun i m => upd m (crd + i) (xbeg + IZR (istart_ + i) * avgSz)) mem
    else
      let begSz := 2 * avgSz / (1 + bias) in
      let endSz := bias * begSz in
      let dx := (endSz - begSz) / IZR (M - 1) in
      let sum0 := for_loop 0 istart_ (fun i sum => (sum + i)%Z) 0%Z in
      snd (for_loop 0 nl
             (fun i '(sum, m) =>
                ((sum + (istart_ + i))%Z,
                 upd m (crd + i)
                   (xbeg + IZR (istart_ + i) * begSz + IZR sum * dx)))
             (sum0, mem))
  in
  (* override last node coordinate *)
  if Z.eqb (istart_ + nl) N then upd mem1 (crd + (nl - 1)) xclose else mem1.

Definition MeshSeg1DGetUniStep (ms : MeshSeg1D) : R :=
  (xstart ms (nsegs ms) - xstart ms 0) / IZR (istart ms (nsegs ms)).

(** *** Discret1D *)

Record Discret1D := {
  nproc  : Z;        (* number of processors *)
  rank   : Z;        (* rank of current processor *)
  starts : Z -> Z;   (* index of first node on all processors + last index *)
  pstart : Z;        (* index of first node on this processor *)
  tnods  : Z;        (* total number of nodes *)
  tcels  : Z;        (* total number of cells *)
  nnods  : Z;        (* number of local nodes *)
  ncels  : Z;        (* number of local cells *)
  bufsz  : Z;        (* size of the node coordinate buffer *)
  ncoor  : Z -> R;   (* node coordinates, local index; ghosts at -1, nnods, .. *)
  ccoor  : Z -> R;   (* cell coordinates, local index; ghosts at -1, ncels *)
  color  : Z;        (* column color *)
  grprev : Z;        (* global rank of previous process (-1 if none) *)
  grnext : Z;        (* global rank of next process (-1 if none) *)
  h_uni  : R;        (* uniform mesh step, negative if the mesh is not uniform *)
  h_min  : R;
  h_max  : R
}.

(** [ds->ncoor = ds->nbuff + 1] and [ds->ccoor = ds->cbuff + 1]: the buffers
    are the same memory seen from one entry earlier. *)
Definition nbuff (ds : Discret1D) (i : Z) : R := ncoor ds (i - 1).
Definition cbuff (ds : Discret1D) (i : Z) : R := ccoor ds (i - 1).

Definition set_coor (ds : Discret1D) (nc cc : Z -> R) : Discret1D :=
  {| nproc := nproc ds; rank := rank ds; starts := starts ds;
     pstart := pstart ds; tnods := tnods ds; tcels := tcels ds;
     nnods := nnods ds; ncels := ncels ds; bufsz := bufsz ds;
     ncoor := nc; ccoor := cc;
     color := color ds; grprev := grprev ds; grnext := grnext ds;
     h_uni := h_uni ds; h_min := h_min ds; h_max := h_max ds |}.

Definition set_steps (ds : Discret1D) (hu hmn hmx : R) : Discret1D :=
  {| nproc := nproc ds; rank := rank ds; starts := starts ds;
     pstart := pstart ds; tnods := tnods ds; tcels := tcels ds;
     nnods := nnods ds; ncels := ncels ds; bufsz := bufsz ds;
     ncoor := ncoor ds; ccoor := ccoor ds;
     color := color ds; grprev := grprev ds; grnext := grnext ds;
     h_uni := hu; h_min := hmn; h_max := hmx |}.

(** The object is written field by field; the three mesh steps are not
    assigned here and keep what [ds] held. *)
Definition Discret1DCreate (ds : Discret1D) (nproc_ rank_ : Z)
    (nnodProc : Z -> Z) (color_ : Z) (grprev_ grnext_ : Z) : Discret1D :=
  let '(cnt, st) :=
    for_loop 0 nproc_
      (fun i '(cnt, st) => ((cnt + nnodProc i)%Z, upd st i cnt))
      (0%Z, zeroInt) in
  let st := upd st nproc_ (cnt - 1)%Z in
  let nn := nnodProc rank_ in
  {| nproc := nproc_; rank := rank_; starts := st;
     pstart := st rank_;
     tnods := cnt; tcels := (cnt - 1)%Z;
     nnods := nn;
     ncels := if Z.eqb grnext_ (-1) then (nn - 1)%Z else nn;
     bufsz := if Z.eqb grnext_ (-1) then (nn + 2)%Z else (nn + 3)%Z;
     ncoor := zeroScal; ccoor := zeroScal;
     color := color_; grprev := grprev_; grnext := grnext_;
     h_uni := h_uni ds; h_min := h_min ds; h_max := h_max ds |}.

(** Modelled from the spec: the macros [SIZE_CELL] and [SIZE_NODE] are
    declared in fdstag.h, which is not among the sources.  The spec calls
    them the local cell width (difference of the two nodes of a cell) and
    the backward/forward spacing between adjacent cell centers. *)
Definition SIZE_CELL (i s : Z) (ds : Discret1D) : R :=
  ncoor ds (i - s + 1) - ncoor ds (i - s).

Definition SIZE_NODE (i s : Z) (ds : Discret1D) : R :=
  ccoor ds (i - s) - ccoor ds (i - s - 1).

Definition rtol : R := 1e-8.

(** [MPI_Allreduce] with [MPI_MIN] / [MPI_MAX] over the column communicator:
    [peers] holds what the other processes of the column contribute. *)
Definition Allreduce_MIN (peers : list R) (l : R) : R := fold_right Rmin l peers.
Definition Allreduce_MAX (peers : list R) (l : R) : R := fold_right Rmax l peers.

Definition Discret1DGetMinMaxCellSize (peers : list (R * R))
    (ds : Discret1D) (ms : MeshSeg1D) : Discret1D :=
  (* get local values *)
  let l0 := SIZE_CELL 0 0 ds in
  let '(lminsz, lmaxsz) :=
    for_loop 1 (ncels ds)
      (fun i '(mn, mx) =>
         let sz := SIZE_CELL i 0 ds in
         let mn := if Rlt_dec sz mn then sz else mn in
         let mx := if Rgt_dec sz mx then sz else mx in
         (mn, mx))
      (l0, l0) in
  (* sort out sequential case *)
  let '(gminsz, gmaxsz) :=
    if Z.eqb (nproc ds) 1 then (lminsz, lmaxsz)
    else (Allreduce_MIN (map fst peers) lminsz,
          Allreduce_MAX (map snd peers) lmaxsz) in
  (* detect uniform mesh & store result *)
  let h := MeshSeg1DGetUniStep ms in
  if Rlt_dec (Rabs (gmaxsz - gminsz)) (rtol * h)
  then set_steps ds h h h
  else set_steps ds (-1) gminsz gmaxsz.

(** [MeshSeg1DGenCoord] writes through a bare pointer and divides without
    a check.  [Discret1DGenCoord] runs it on the node buffer, whose entries
    are [lo .. hi] when counted from [ncoor].  There the call has a result
    when every entry it writes lies in the buffer (the [nl] generated ones,
    and the entry [crd[nl-1]] of the override, which for [nl = 0] is the one
    before the block), and when no value it leaves behind is a quotient by
    zero, an infinity or NaN of the machine.  The divisors are [M] and, for
    a bias other than 1, [1 + bias] and [M - 1]; with one of them zero every
    value of the loop is such a quotient, and the override replaces the
    last of them. *)
Definition divides_by_zero (ms : MeshSeg1D) (iseg : Z) : bool :=
  let M := (istart ms (iseg + 1) - istart ms iseg)%Z in
  if Req_dec_T (biases ms iseg) 1 then Z.eqb M 0
  else if Req_dec_T (1 + biases ms iseg) 0 then true
  else (Z.eqb M 0 || Z.eqb (M - 1) 0)%bool.

Definition in_buffer (lo hi x : Z) : bool := (Z.leb lo x && Z.leb x hi)%bool.

Definition MeshSeg1DGenCoord_checked (lo hi : Z) (ms : MeshSeg1D)
    (iseg nl istart_ : Z) (crd : Z) (mem : Z -> R) : option (Z -> R) :=
  let N := (istart ms (iseg + 1) - istart ms iseg + 1)%Z in
  let closes := Z.eqb (istart_ + nl) N in
  (* the entries written by the loop and by the override *)
  let block_in :=
    (Z.leb nl 0
     || (in_buffer lo hi crd && in_buffer lo hi (crd + nl - 1)))%bool in
  let last_in := (negb closes || in_buffer lo hi (crd + nl - 1))%bool in
  (* the values of the loop that the override leaves *)
  let kept := if closes then (nl - 1)%Z else nl in
  if negb (block_in && last_in) then None
  else if (divides_by_zero ms iseg && Z.ltb 0 kept)%bool then None
  else Some (MeshSeg1DGenCoord ms iseg nl istart_ crd mem).

(** The segment loop [for(i = 0; n; i++)] of [Discret1DGenCoord].  It only
    stops when [n] reaches zero; [left] counts the segments not yet
    visited, and walking past the last one (a read behind the segment
    table) has no defined result.  [lo .. hi] are the entries of the node
    buffer. *)
Fixpoint gen_segments (left : nat) (lo hi : Z) (ms : MeshSeg1D)
    (i pstart_ crd n : Z) (mem : Z -> R) : option (Z -> R) :=
  if Z.eqb n 0 then Some mem
  else
    match left with
    | O => None
    | S left' =>
        (* compute number of nodes within this segment *)
        let nl := (istart ms (i + 1) - pstart_ + 1)%Z in
        (* skip the non-overlapping segments *)
        if Z.ltb nl 0 then gen_segments left' lo hi ms (i + 1) pstart_ crd n mem
        else
          (* correct if the rest of the mesh completely fits into the segment *)
          let nl := if Z.gtb nl n then n else nl in
          (* compute starting index within the segment *)
          let ist := (pstart_ - istart ms i)%Z in
          (* generate nodal coordinates for the local part of the segment *)
          match MeshSeg1DGenCoord_checked lo hi ms i nl ist crd mem with
          | None => None
          | Some mem =>
              (* update the rest of the local mesh to be generated *)
              gen_segments left' lo hi ms (i + 1) (pstart_ + nl) (crd + nl)
                (n - nl) mem
          end
    end.

(** The entries of the node buffer that [Discret1DGenCoord] reads and
    writes after the segment loop: the boundary ghosts and the two nodes
    each is mirrored from, the two nodes of every cell, ghost cells
    included, for its center, and the nodes of the cells whose size
    [Discret1DGetMinMaxCellSize] measures. *)
Definition nodes_inside (ds : Discret1D) : bool :=
  let hi := (bufsz ds - 2)%Z in
  (Z.leb 1 hi && Z.leb (ncels ds + 1) hi
   && (if Z.eqb (grnext ds) (-1)
       then Z.leb 1 (nnods ds) && Z.leb (nnods ds) hi
       else true))%bool.

Definition cell_centers (ds : Discret1D) (nc : Z -> R) : Z -> R :=
  for_loop (-1) (ncels ds + 1)
    (fun i cc => upd cc i ((nc i + nc (i + 1)%Z) / 2)) (ccoor ds).

Definition Discret1DGenCoord (peers : list (R * R)) (ds : Discret1D)
    (ms : MeshSeg1D) : option Discret1D :=
  (* compute number of nodes to be generated locally *)
  let ps := pstart ds in
  let crd := 0%Z in
  let n := nnods ds in
  (* correct numbers if we need to include internal ghost points *)
  let '(ps, crd, n) :=
    if Z.eqb (grprev ds) (-1) then (ps, crd, n)
    else ((ps - 1)%Z, (crd - 1)%Z, (n + 1)%Z) in
  let n := if Z.eqb (grnext ds) (-1) then n else (n + 2)%Z in
  (* apply local filter & expand segment data: nbuff[0 .. bufsz-1] is
     ncoor[-1 .. bufsz-2] *)
  match gen_segments (Z.to_nat (nsegs ms)) (-1) (bufsz ds - 2) ms 0 ps crd n
          (ncoor ds) with
  | None => None
  | Some nc =>
      if negb (nodes_inside ds) then None else
      (* set boundary ghost coordinates *)
      let nc :=
        if Z.eqb (grprev ds) (-1) then
          let A := nc 0%Z in
          let B := nc 1%Z in
          upd nc (-1) (A - (B - A))
        else nc in
      let nc :=
        if Z.eqb (grnext ds) (-1) then
          let A := nc (nnods ds - 2)%Z in
          let B := nc (nnods ds - 1)%Z in
          upd nc (nnods ds) (B + (B - A))
        else nc in
      (* compute coordinates of the cell centers including ghosts *)
      let cc := cell_centers ds nc in
      (* compute extreme cell sizes *)
      Some (Discret1DGetMinMaxCellSize peers (set_coor ds nc cc) ms)
  end.

Definition Discret1DStretch (ds : Discret1D) (ms : MeshSeg1D) (eps : R)
  : Discret1D * MeshSeg1D :=
  (* recompute segment data *)
  let ms := MeshSeg1DStretch ms eps in
  (* recompute (stretch) node coordinates in the buffer: nbuff[i] is ncoor[i-1] *)
  let nc := for_loop 0 (bufsz ds)
              (fun i nc => upd nc (i - 1) (nc (i - 1)%Z * (1 - eps))) (ncoor ds) in
  (* recompute cell coordinates *)
  let cc := cell_centers ds nc in
  let ds := set_coor ds nc cc in
  (* update mesh steps *)
  let ds :=
    if Rlt_dec (h_uni ds) 0 then
      set_steps ds (h_uni ds) (h_min ds * (1 - eps)) (h_max ds * (1 - eps))
    else
      let h := MeshSeg1DGetUniStep ms in
      set_steps ds h h h in
  (ds, ms).

(** The halving loop [while(!(sz % 2)) { sz /= 2; ncors++; }]; C's [%] and
    [/] truncate towards zero ([Z.rem], [Z.quot]).  [fuel] bounds the number
    of iterations looked at; [None] when the loop is still running. *)
Fixpoint halvings (fuel : nat) (sz ncors : Z) : option Z :=
  match fuel with
  | O => None
  | S fuel' =>
      if Z.eqb (Z.rem sz 2) 0
      then halvings fuel' (Z.quot sz 2) (ncors + 1)
      else Some ncors
  end.

Inductive MGError :=
| OddLocalSize       (* "Local grid size is an odd number in %s-direction" *)
| NoUniformLocalSize (* "Uniform local grid size doesn't exist in %s-direction" *)
| NotConstantSize.   (* "Local grid size is not constant on all processors in %s-direction" *)

Inductive MGResult :=
| MGFail (e : MGError) (dir : list Byte.byte)  (* SETERRQ1 with the axis name *)
| MGOk (ncors : Z)
| MGRunning.                                   (* the loop has not ended *)

Definition Discret1DCheckMG (fuel : nat) (ds : Discret1D)
    (dir : list Byte.byte) : MGResult :=
  (* check whether local grid size is an even number *)
  if negb (Z.eqb (Z.rem (ncels ds) 2) 0) then MGFail OddLocalSize dir
  (* check uniform local grid size (constant on all processors) *)
  else if negb (Z.eqb (Z.rem (tcels ds) (nproc ds)) 0)
  then MGFail NoUniformLocalSize dir
  (* compare actual grid size with uniform value *)
  else if negb (Z.eqb (Z.quot (tcels ds) (nproc ds)) (ncels ds))
  then MGFail NotConstantSize dir
  else
    (* determine maximum number of coarsening steps *)
    match halvings fuel (ncels ds) 0 with
    | Some ncors => MGOk ncors
    | None => MGRunning
    end.

(** *** The PETSc layer the grid is built on *)

Inductive DMBoundaryType := DM_BOUNDARY_NONE | DM_BOUNDARY_GHOSTED.

Definition PETSC_DECIDE : Z := (-1)%Z.

(** A distributed array, as far as the sources query it. *)
Record DM := {
  da_m : Z; da_n : Z; da_p : Z;                      (* DMDAGetInfo: processes per direction *)
  da_lx : Z -> Z; da_ly : Z -> Z; da_lz : Z -> Z;    (* DMDAGetOwnershipRanges *)
  da_rx : Z; da_ry : Z; da_rz : Z;                   (* DMDAGetProcessorRank *)
  da_sx : Z; da_sy : Z; da_sz : Z;                   (* DMDAGetCorners: first owned point *)
  da_nx : Z; da_ny : Z; da_nz : Z                    (* DMDAGetCorners: owned widths *)
}.

(** What PETSc, MPI and Utils decide outside the sources.  The stencil is
    always DMDA_STENCIL_BOX and the communicator PETSC_COMM_WORLD. *)
Class PetscLib := {
  DMDACreate3d :
    DMBoundaryType -> DMBoundaryType -> DMBoundaryType ->
    Z -> Z -> Z ->               (* global sizes M, N, P *)
    Z -> Z -> Z ->               (* processes m, n, p (or PETSC_DECIDE) *)
    Z -> Z ->                    (* dof, stencil width *)
    option (Z -> Z) -> option (Z -> Z) -> option (Z -> Z) ->  (* lx, ly, lz *)
    Res DM;
  MPI_Scan_SUM : Z * Z -> Z * Z;
  getGlobalRank : Z -> Z -> Z -> Z -> Z -> Z -> Z;
  LOCAL_TO_LOCAL : DM -> arr3 -> arr3;
  GLOBAL_TO_LOCAL : DM -> arr3 -> arr3 -> arr3;
  LOCAL_TO_GLOBAL : DM -> arr3 -> arr3 -> arr3
}.

(** [VecGetArray] on a vector of a distributed array: the owned points in
    the order i fastest, then j, then k. *)
Definition VecGetArray (da : DM) (a : arr3) : Z -> R :=
  fun n =>
    a (da_sz da + (n / da_nx da) / da_ny da)%Z
      (da_sy da + (n / da_nx da) mod da_ny da)%Z
      (da_sx da + n mod da_nx da)%Z.

Definition dmda_index (da : DM) (k j i : Z) : Z :=
  (((k - da_sz da) * da_ny da + (j - da_sy da)) * da_nx da + (i - da_sx da))%Z.

(** [PetscMemcpy] of a flat array into the storage of a vector *)
Definition VecPlaceArray (da : DM) (f : Z -> R) : arr3 :=
  fun k j i => f (dmda_index da k j i).

Definition VecGetLocalSize (da : DM) : Z := (da_nx da * da_ny da * da_nz da)%Z.

(** *** DOFIndex *)

Inductive idxtype := IDXNONE | IDXCOUPLED | IDXUNCOUPLED.

Record DOFIndex := {
  idxmod : idxtype;
  lnv : Z; lnp : Z; ln : Z;     (* local number of dof *)
  stv : Z; stp : Z; st : Z;     (* starting indices *)
  ivx : arr3; ivy : arr3; ivz : arr3; ip : arr3
}.

Definition zero3 : arr3 := fun _ _ _ => 0.

Definition DOFIndexCreate `{PetscLib} (DA_CEN DA_X DA_Y DA_Z : DM) : DOFIndex :=
  let lnv_ := (da_nx DA_X * da_ny DA_X * da_nz DA_X
               + da_nx DA_Y * da_ny DA_Y * da_nz DA_Y
               + da_nx DA_Z * da_ny DA_Z * da_nz DA_Z)%Z in
  let lnp_ := (da_nx DA_CEN * da_ny DA_CEN * da_nz DA_CEN)%Z in
  (* compute prefix sums *)
  let SUM := MPI_Scan_SUM (lnv_, lnp_) in
  let stv_ := (fst SUM - lnv_)%Z in
  let stp_ := (snd SUM - lnp_)%Z in
  {| idxmod := IDXNONE;
     lnv := lnv_; lnp := lnp_; ln := (lnv_ + lnp_)%Z;
     stv := stv_; stp := stp_; st := (stv_ + stp_)%Z;
     ivx := zero3; ivy := zero3; ivz := zero3; ip := zero3 |}.

(** *** FDSTAG *)

Record FDSTAG := {
  DA_CEN : DM; DA_COR : DM;
  DA_XY : DM; DA_XZ : DM; DA_YZ : DM;
  DA_X : DM; DA_Y : DM; DA_Z : DM;
  dsx : Discret1D; dsy : Discret1D; dsz : Discret1D;
  msx : MeshSeg1D; msy : MeshSeg1D; msz : MeshSeg1D;
  nCells : Z; nCorns : Z;
  nXYEdg : Z; nXZEdg : Z; nYZEdg : Z;
  nXFace : Z; nYFace : Z; nZFace : Z;
  dof : DOFIndex;
  neighb : Z -> Z
}.

Definition incr (l : Z -> Z) (i : Z) : Z -> Z := upd l i (l i + 1)%Z.
Definition decr (l : Z -> Z) (i : Z) : Z -> Z := upd l i (l i - 1)%Z.

Definition FDSTAGGetNeighbProc `{PetscLib} (dsx_ dsy_ dsz_ : Discret1D)
    (nb : Z -> Z) : Z -> Z :=
  let rx := rank dsx_ in let ry := rank dsy_ in let rz := rank dsz_ in
  let Px := nproc dsx_ in let Py := nproc dsy_ in let Pz := nproc dsz_ in
  snd (for_loop (-1) 2 (fun k =>
         for_loop (-1) 2 (fun j =>
           for_loop (-1) 2 (fun i '(cnt, nb) =>
             ((cnt + 1)%Z,
              upd nb cnt (getGlobalRank (rx + i) (ry + j) (rz + k) Px Py Pz)))))
       (0%Z, nb)).

Definition FDSTAGCreate `{PetscLib} (fs : FDSTAG) (Nx Ny Nz : Z)
    (Px Py Pz : Z) : Res FDSTAG :=
  let dof_ := 1%Z in
  let nlayer := 1%Z in
  (* get number of processors *)
  let Px := PETSC_DECIDE in
  let Py := PETSC_DECIDE in
  let Pz := PETSC_DECIDE in
  (* partition central points (DA_CEN) with boundary ghost points *)
  CHK cen <- DMDACreate3d DM_BOUNDARY_GHOSTED DM_BOUNDARY_GHOSTED DM_BOUNDARY_GHOSTED
               (Nx - 1) (Ny - 1) (Nz - 1) Px Py Pz dof_ 1 None None None ;;
  (* get actual number of processors in every direction *)
  let Px := da_m cen in
  let Py := da_n cen in
  let Pz := da_p cen in
  (* get number of points per processor *)
  let lx := da_lx cen in
  let ly := da_ly cen in
  let lz := da_lz cen in
  (* increment number of points on last processor *)
  let lx := incr lx (Px - 1) in
  let ly := incr ly (Py - 1) in
  let lz := incr lz (Pz - 1) in
  (* corners *)
  CHK cor <- DMDACreate3d DM_BOUNDARY_NONE DM_BOUNDARY_NONE DM_BOUNDARY_NONE
               Nx Ny Nz Px Py Pz dof_ nlayer (Some lx) (Some ly) (Some lz) ;;
  (* XY edges *)
  let lz := decr lz (Pz - 1) in
  CHK xy <- DMDACreate3d DM_BOUNDARY_NONE DM_BOUNDARY_NONE DM_BOUNDARY_NONE
               Nx Ny (Nz - 1) Px Py Pz dof_ nlayer (Some lx) (Some ly) (Some lz) ;;
  let lz := incr lz (Pz - 1) in
  (* XZ edges *)
  let ly := decr ly (Py - 1) in
  CHK xz <- DMDACreate3d DM_BOUNDARY_NONE DM_BOUNDARY_NONE DM_BOUNDARY_NONE
               Nx (Ny - 1) Nz Px Py Pz dof_ nlayer (Some lx) (Some ly) (Some lz) ;;
  let ly := incr ly (Py - 1) in
  (* YZ edges *)
  let lx := decr lx (Px - 1) in
  CHK yz <- DMDACreate3d DM_BOUNDARY_NONE DM_BOUNDARY_NONE DM_BOUNDARY_NONE
               (Nx - 1) Ny Nz Px Py Pz dof_ nlayer (Some lx) (Some ly) (Some lz) ;;
  let lx := incr lx (Px - 1) in
  (* X face *)
  let ly := decr ly (Py - 1) in
  let lz := decr lz (Pz - 1) in
  CHK dax <- DMDACreate3d DM_BOUNDARY_GHOSTED DM_BOUNDARY_GHOSTED DM_BOUNDARY_GHOSTED
               Nx (Ny - 1) (Nz - 1) Px Py Pz dof_ nlayer (Some lx) (Some ly) (Some lz) ;;
  let ly := incr ly (Py - 1) in
  let lz := incr lz (Pz - 1) in
  (* Y face *)
  let lx := decr lx (Px - 1) in
  let lz := decr lz (Pz - 1) in
  CHK day <- DMDACreate3d DM_BOUNDARY_GHOSTED DM_BOUNDARY_GHOSTED DM_BOUNDARY_GHOSTED
               (Nx - 1) Ny (Nz - 1) Px Py Pz dof_ nlayer (Some lx) (Some ly) (Some lz) ;;
  let lx := incr lx (Px - 1) in
  let lz := incr lz (Pz - 1) in
  (* Z face *)
  let lx := decr lx (Px - 1) in
  let ly := decr ly (Py - 1) in
  CHK daz <- DMDACreate3d DM_BOUNDARY_GHOSTED DM_BOUNDARY_GHOSTED DM_BOUNDARY_GHOSTED
               (Nx - 1) (Ny - 1) Nz Px Py Pz dof_ nlayer (Some lx) (Some ly) (Some lz) ;;
  let lx := incr lx (Px - 1) in
  let ly := incr ly (Py - 1) in
  (* get processor ranks *)
  let rx := da_rx cen in
  let ry := da_ry cen in
  let rz := da_rz cen in
  (* compute column colors *)
  let cx := (ry + rz * Py)%Z in
  let cy := (rx + rz * Px)%Z in
  let cz := (rx + ry * Px)%Z in
  (* set discretization / domain decomposition data *)
  let dsx_ := Discret1DCreate (dsx fs) Px rx lx cx
                (getGlobalRank (rx - 1) ry rz Px Py Pz)
                (getGlobalRank (rx + 1) ry rz Px Py Pz) in
  let dsy_ := Discret1DCreate (dsy fs) Py ry ly cy
                (getGlobalRank rx (ry - 1) rz Px Py Pz)
                (getGlobalRank rx (ry + 1) rz Px Py Pz) in
  let dsz_ := Discret1DCreate (dsz fs) Pz rz lz cz
                (getGlobalRank rx ry (rz - 1) Px Py Pz)
                (getGlobalRank rx ry (rz + 1) Px Py Pz) in
  (* compute local number of grid points *)
  let nnx := nnods dsx_ in let ncx := ncels dsx_ in
  let nny := nnods dsy_ in let ncy := ncels dsy_ in
  let nnz := nnods dsz_ in let ncz := ncels dsz_ in
  Ok {| DA_CEN := cen; DA_COR := cor;
        DA_XY := xy; DA_XZ := xz; DA_YZ := yz;
        DA_X := dax; DA_Y := day; DA_Z := daz;
        dsx := dsx_; dsy := dsy_; dsz := dsz_;
        msx := msx fs; msy := msy fs; msz := msz fs;
        nCells := (ncx * ncy * ncz)%Z;
        nCorns := (nnx * nny * nnz)%Z;
        nXYEdg := (nnx * nny * ncz)%Z;
        nXZEdg := (nnx * ncy * nnz)%Z;
        nYZEdg := (ncx * nny * nnz)%Z;
        nXFace := (nnx * ncy * ncz)%Z;
        nYFace := (ncx * nny * ncz)%Z;
        nZFace := (ncx * ncy * nnz)%Z;
        (* setup indexing data *)
        dof := DOFIndexCreate cen dax day daz;
        (* get ranks of neighbor processes *)
        neighb := FDSTAGGetNeighbProc dsx_ dsy_ dsz_ (neighb fs) |}.

Definition set_axes (fs : FDSTAG) (dx_ dy_ dz_ : Discret1D)
    (mx_ my_ mz_ : MeshSeg1D) : FDSTAG :=
  {| DA_CEN := DA_CEN fs; DA_COR := DA_COR fs;
     DA_XY := DA_XY fs; DA_XZ := DA_XZ fs; DA_YZ := DA_YZ fs;
     DA_X := DA_X fs; DA_Y := DA_Y fs; DA_Z := DA_Z fs;
     dsx := dx_; dsy := dy_; dsz := dz_;
     msx := mx_; msy := my_; msz := mz_;
     nCells := nCells fs; nCorns := nCorns fs;
     nXYEdg := nXYEdg fs; nXZEdg := nXZEdg fs; nYZEdg := nYZEdg fs;
     nXFace := nXFace fs; nYFace := nYFace fs; nZFace := nZFace fs;
     dof := dof fs; neighb := neighb fs |}.

(** [if(E)] on a scalar: taken when [E] is not zero. *)
Definition FDSTAGStretch (fs : FDSTAG) (Exx Eyy dt : R) : FDSTAG :=
  (* compute vertical strain rate for mass balance *)
  let Ezz := - (Exx + Eyy) in
  (* stretch grid *)
  let '(dx_, mx_) :=
    if Req_dec_T Exx 0 then (dsx fs, msx fs)
    else Discret1DStretch (dsx fs) (msx fs) (Exx * dt) in
  let '(dy_, my_) :=
    if Req_dec_T Eyy 0 then (dsy fs, msy fs)
    else Discret1DStretch (dsy fs) (msy fs) (Eyy * dt) in
  let '(dz_, mz_) :=
    if Req_dec_T Ezz 0 then (dsz fs, msz fs)
    else Discret1DStretch (dsz fs) (msz fs) (Ezz * dt) in
  set_axes fs dx_ dy_ dz_ mx_ my_ mz_.

(** *** Solution variables (solVar.h) *)

(** The structures are declared in solVar.h, not among the sources; they
    carry the members the sources touch, and [more] stands for any further
    scalar members the constitutive routines keep in them. *)
Module Dev.
Record t := { DII : R; I2Gdt : R; more : list R }.
End Dev.

Module Bulk.
Record t := {
  theta : R;   (* volumetric strain rate *)
  rho   : R;   (* effective density *)
  IKdt  : R;   (* inverse bulk viscosity *)
  alpha : R;   (* effective thermal expansion *)
  pn    : R;   (* pressure history *)
  Tn    : R;   (* temperature history *)
  more  : list R
}.
Definition set_theta (b : t) (th : R) : t :=
  {| theta := th; rho := rho b; IKdt := IKdt b; alpha := alpha b;
     pn := pn b; Tn := Tn b; more := more b |}.
End Bulk.

Module Cell.
Record t := {
  svDev  : Dev.t;
  svBulk : Bulk.t;
  sxx : R; syy : R; szz : R;   (* deviatoric stress *)
  hxx : R; hyy : R; hzz : R;   (* history stress *)
  dxx : R; dyy : R; dzz : R;   (* total deviatoric strain rate *)
  eta_creep : R;
  phRat : Z -> R;
  more : list R
}.
Definition set_svDev (c : t) (v : Dev.t) : t :=
  {| svDev := v; svBulk := svBulk c;
     sxx := sxx c; syy := syy c; szz := szz c;
     hxx := hxx c; hyy := hyy c; hzz := hzz c;
     dxx := dxx c; dyy := dyy c; dzz := dzz c;
     eta_creep := eta_creep c; phRat := phRat c; more := more c |}.
Definition set_svBulk (c : t) (v : Bulk.t) : t :=
  {| svDev := svDev c; svBulk := v;
     sxx := sxx c; syy := syy c; szz := szz c;
     hxx := hxx c; hyy := hyy c; hzz := hzz c;
     dxx := dxx c; dyy := dyy c; dzz := dzz c;
     eta_creep := eta_creep c; phRat := phRat c; more := more c |}.
Definition set_d (c : t) (xx yy zz : R) : t :=
  {| svDev := svDev c; svBulk := svBulk c;
     sxx := sxx c; syy := syy c; szz := szz c;
     hxx := hxx c; hyy := hyy c; hzz := hzz c;
     dxx := xx; dyy := yy; dzz := zz;
     eta_creep := eta_creep c; phRat := phRat c; more := more c |}.
End Cell.

Module Edge.
Record t := {
  svDev : Dev.t;
  s : R;   (* xy, xz, yz deviatoric stress components *)
  h : R;   (* history stress *)
  d : R;   (* total strain rate *)
  phRat : Z -> R;
  more : list R
}.
Definition set_svDev (e : t) (v : Dev.t) : t :=
  {| svDev := v; s := s e; h := h e; d := d e;
     phRat := phRat e; more := more e |}.
Definition set_d (e : t) (v : R) : t :=
  {| svDev := svDev e; s := s e; h := h e; d := v;
     phRat := phRat e; more := more e |}.
End Edge.


Record MatParLim := {
  eta_min : R; eta_max : R; eta_ref : R;
  TRef : R; Rugc : R;
  eta_atol : R; eta_rtol : R; DII_atol : R; DII_rtol : R; DII_ref : R;
  minCh : R; minFr : R; tauUlt : R; shearHeatEff : R;
  quasiHarmAvg : bool; initGuessFlg : bool
}.

(** Material parameters of the phases ([Material_t], opaque here). *)
Definition Phases := Z -> list R.

(** The constitutive routines (constEq.h) are external: each gets a pointer
    to the state it updates and may fail with an error code. *)
Class ConstEq := {
  DevConstEq :
    Dev.t -> Z -> Phases -> (Z -> R) -> MatParLim -> R -> R -> R ->
    Res (Dev.t * R);                      (* updated svDev, eta_creep *)
  VolConstEq :
    Bulk.t -> Z -> Phases -> (Z -> R) -> MatParLim -> R -> R -> R ->
    Res Bulk.t;
  GetStressCell : Cell.t -> MatParLim -> R -> R -> R -> Res Cell.t;
  GetStressEdge : Edge.t -> MatParLim -> R -> Res Edge.t
}.

(** *** Boundary conditions and time stepping (bc.h, tssolve.h) *)

Record BCCtx := {
  vNumSPC : Z; vSPCList : Z -> Z; vSPCVals : Z -> R;
  pNumSPC : Z; pSPCList : Z -> Z; pSPCVals : Z -> R;
  bcvx : arr3; bcvy : arr3; bcvz : arr3; bcp : arr3
}.

Record TSSol := {
  ts_dt : R;      (* time step *)
  ts_pdt : R;     (* previous time step *)
  Cmax : R;       (* dimensionless length of the time step (Courant number) *)
  dtmax : R;      (* maximum time step *)
  ts_time : R;
  istep : Z
}.

(** The ghost ranges and the two-point constraint macros come from
    fdstag.h and bc.h, which are not among the sources; they are taken as
    given.  [SET_EDGE_CORNER] is handed its first argument [n] as written,
    an identifier the calling function does not declare. *)
Class BCMacros := {
  GET_NODE_RANGE_GHOST_INT : Discret1D -> Z * Z;   (* n, s *)
  GET_CELL_RANGE_GHOST_INT : Discret1D -> Z * Z;
  SET_TPC : arr3 -> arr3 -> Z -> Z -> Z -> R -> arr3;
  SET_EDGE_CORNER : arr3 -> Z -> Z -> Z -> Z -> Z -> Z -> R -> arr3
}.

(** Modelled from the spec: [GET_CELL_RANGE] and [GET_NODE_RANGE] are
    macros of fdstag.h, not among the sources.  By the spec's data model a
    process holds [ncels] cells and [nnods] nodes starting at the global
    offset [pstart]. *)
Definition GET_CELL_RANGE (ds : Discret1D) : Z * Z := (ncels ds, pstart ds).
Definition GET_NODE_RANGE (ds : Discret1D) : Z * Z := (nnods ds, pstart ds).

(** *** JacRes *)

Record JacRes := {
  fs : FDSTAG;
  bc : BCCtx;
  ts : TSSol;
  numPhases : Z;
  phases : Phases;
  matLim : MatParLim;
  FSSA : R;             (* density gradient penalty parameter *)
  grav : Z -> R;        (* gravity acceleration *)
  pShift : R;           (* pressure shift *)
  pShiftAct : bool;
  svCell : Z -> Cell.t;
  svXYEdge : Z -> Edge.t;
  svXZEdge : Z -> Edge.t;
  svYZEdge : Z -> Edge.t;
  gvx : arr3; gvy : arr3; gvz : arr3; gp : arr3;   (* global solution *)
  lvx : arr3; lvy : arr3; lvz : arr3; lp : arr3;   (* local (ghosted) solution *)
  lT : arr3;
  ldxx : arr3; ldyy : arr3; ldzz : arr3;
  ldxy : arr3; ldxz : arr3; ldyz : arr3;
  gc : arr3;                                       (* continuity residual *)
  lfx : arr3; lfy : arr3; lfz : arr3;
  gfx : arr3; gfy : arr3; gfz : arr3
}.


(** **** JacResGetEffStrainRate *)

Section EffStrainRate.
Variable jr : JacRes.

(** central points (dxx, dyy, dzz); the state is
    (iter, svCell, dxx, dyy, dzz) *)
Definition eff_cell_body (k j i : Z)
    (st : Z * (Z -> Cell.t) * arr3 * arr3 * arr3)
  : Z * (Z -> Cell.t) * arr3 * arr3 * arr3 :=
  let '(iter, sv, dxx, dyy, dzz) := st in
  let sx := snd (GET_CELL_RANGE (dsx (fs jr))) in
  let sy := snd (GET_CELL_RANGE (dsy (fs jr))) in
  let sz := snd (GET_CELL_RANGE (dsz (fs jr))) in
  let vx := lvx jr in let vy := lvy jr in let vz := lvz jr in
  (* access solution variables *)
  let svCell_ := sv iter in
  let svDev := Cell.svDev svCell_ in
  let svBulk := Cell.svBulk svCell_ in
  (* get mesh steps *)
  let dx := SIZE_CELL i sx (dsx (fs jr)) in
  let dy := SIZE_CELL j sy (dsy (fs jr)) in
  let dz := SIZE_CELL k sz (dsz (fs jr)) in
  (* compute velocity gradients *)
  let xx := (vx@[k, j, i+1] - vx@[k, j, i]) / dx in
  let yy := (vy@[k, j+1, i] - vy@[k, j, i]) / dy in
  let zz := (vz@[k+1, j, i] - vz@[k, j, i]) / dz in
  (* compute & store volumetric strain rate *)
  let theta := xx + yy + zz in
  let svBulk := Bulk.set_theta svBulk theta in
  (* compute & store total deviatoric strain rates *)
  let tr := theta / 3 in
  let xx := xx - tr in
  let yy := yy - tr in
  let zz := zz - tr in
  let svCell_ := Cell.set_d (Cell.set_svBulk svCell_ svBulk) xx yy zz in
  (* compute & store effective deviatoric strain rates *)
  ((iter + 1)%Z, upd sv iter svCell_,
   set3 dxx k j i (xx + Cell.hxx svCell_ * Dev.I2Gdt svDev),
   set3 dyy k j i (yy + Cell.hyy svCell_ * Dev.I2Gdt svDev),
   set3 dzz k j i (zz + Cell.hzz svCell_ * Dev.I2Gdt svDev)).

(** one edge loop: [va], [vb] are the two velocity components, [da], [db]
    the two mesh steps and the finite differences are taken by
    [grad_a], [grad_b]; the state is (iter, svEdge, d) *)
Definition eff_edge_store (k j i : Z) (ga gb : R)
    (st : Z * (Z -> Edge.t) * arr3) : Z * (Z -> Edge.t) * arr3 :=
  let '(iter, sv, dd) := st in
  let svEdge := sv iter in
  let svDev := Edge.svDev svEdge in
  (* compute & store total strain rate *)
  let e := 0.5 * (ga + gb) in
  let svEdge := Edge.set_d svEdge e in
  (* compute & store effective deviatoric strain rate *)
  ((iter + 1)%Z, upd sv iter svEdge,
   set3 dd k j i (e + Edge.h svEdge * Dev.I2Gdt svDev)).

Definition eff_xy_body (k j i : Z) (st : Z * (Z -> Edge.t) * arr3) :=
  let sx := snd (GET_NODE_RANGE (dsx (fs jr))) in
  let sy := snd (GET_NODE_RANGE (dsy (fs jr))) in
  let vx := lvx jr in let vy := lvy jr in
  let dx := SIZE_NODE i sx (dsx (fs jr)) in
  let dy := SIZE_NODE j sy (dsy (fs jr)) in
  let dvxdy := (vx@[k, j, i] - vx@[k, j-1, i]) / dy in
  let dvydx := (vy@[k, j, i] - vy@[k, j, i-1]) / dx in
  eff_edge_store k j i dvxdy dvydx st.

Definition eff_xz_body (k j i : Z) (st : Z * (Z -> Edge.t) * arr3) :=
  let sx := snd (GET_NODE_RANGE (dsx (fs jr))) in
  let sz := snd (GET_NODE_RANGE (dsz (fs jr))) in
  let vx := lvx jr in let vz := lvz jr in
  let dx := SIZE_NODE i sx (dsx (fs jr)) in
  let dz := SIZE_NODE k sz (dsz (fs jr)) in
  let dvxdz := (vx@[k, j, i] - vx@[k-1, j, i]) / dz in
  let dvzdx := (vz@[k, j, i] - vz@[k, j, i-1]) / dx in
  eff_edge_store k j i dvxdz dvzdx st.

Definition eff_yz_body (k j i : Z) (st : Z * (Z -> Edge.t) * arr3) :=
  let sy := snd (GET_NODE_RANGE (dsy (fs jr))) in
  let sz := snd (GET_NODE_RANGE (dsz (fs jr))) in
  let vy := lvy jr in let vz := lvz jr in
  let dy := SIZE_NODE j sy (dsy (fs jr)) in
  let dz := SIZE_NODE k sz (dsz (fs jr)) in
  let dvydz := (vy@[k, j, i] - vy@[k-1, j, i]) / dz in
  let dvzdy := (vz@[k, j, i] - vz@[k, j-1, i]) / dy in
  eff_edge_store k j i dvydz dvzdy st.
End EffStrainRate.

(** the loop ranges of one point set: cells or nodes per direction *)
Definition loop_range (rx ry rz : Discret1D -> Z * Z) (f : FDSTAG)
  : Z * Z * Z * Z * Z * Z :=
  (snd (rx (dsx f)), snd (ry (dsy f)), snd (rz (dsz f)),
   fst (rx (dsx f)), fst (ry (dsy f)), fst (rz (dsz f))).

Definition std_loop_on {St} (r : Z * Z * Z * Z * Z * Z)
    (body : Z -> Z -> Z -> St -> St) (s : St) : St :=
  let '(sx, sy, sz, nx, ny, nz) := r in std_loop sx sy sz nx ny nz body s.


Definition cen_range := loop_range GET_CELL_RANGE GET_CELL_RANGE GET_CELL_RANGE.
Definition xy_range := loop_range GET_NODE_RANGE GET_NODE_RANGE GET_CELL_RANGE.
Definition xz_range := loop_range GET_NODE_RANGE GET_CELL_RANGE GET_NODE_RANGE.
Definition yz_range := loop_range GET_CELL_RANGE GET_NODE_RANGE GET_NODE_RANGE.

Definition JacResGetEffStrainRate `{PetscLib} (jr : JacRes) : JacRes :=
  let f := fs jr in
  let '(_, svC, dxx, dyy, dzz) :=
    std_loop_on (cen_range f) (eff_cell_body jr)
      (0%Z, svCell jr, ldxx jr, ldyy jr, ldzz jr) in
  let '(_, svXY, dxy) :=
    std_loop_on (xy_range f) (eff_xy_body jr) (0%Z, svXYEdge jr, ldxy jr) in
  let '(_, svXZ, dxz) :=
    std_loop_on (xz_range f) (eff_xz_body jr) (0%Z, svXZEdge jr, ldxz jr) in
  let '(_, svYZ, dyz) :=
    std_loop_on (yz_range f) (eff_yz_body jr) (0%Z, svYZEdge jr, ldyz jr) in
  {| fs := fs jr; bc := bc jr; ts := ts jr;
     numPhases := numPhases jr; phases := phases jr; matLim := matLim jr;
     FSSA := FSSA jr; grav := grav jr;
     pShift := pShift jr; pShiftAct := pShiftAct jr;
     svCell := svC; svXYEdge := svXY; svXZEdge := svXZ; svYZEdge := svYZ;
     gvx := gvx jr; gvy := gvy jr; gvz := gvz jr; gp := gp jr;
     lvx := lvx jr; lvy := lvy jr; lvz := lvz jr; lp := lp jr;
     lT := lT jr;
     (* communicate boundary strain-rate values *)
     ldxx := LOCAL_TO_LOCAL (DA_CEN f) dxx;
     ldyy := LOCAL_TO_LOCAL (DA_CEN f) dyy;
     ldzz := LOCAL_TO_LOCAL (DA_CEN f) dzz;
     ldxy := LOCAL_TO_LOCAL (DA_XY f) dxy;
     ldxz := LOCAL_TO_LOCAL (DA_XZ f) dxz;
     ldyz := LOCAL_TO_LOCAL (DA_YZ f) dyz;
     gc := gc jr;
     lfx := lfx jr; lfy := lfy jr; lfz := lfz jr;
     gfx := gfx jr; gfy := gfy jr; gfz := gfz jr |}.

(** **** JacResGetResidual *)

(** second invariant at a cell center *)
Definition J2Inv_cell (dxx dyy dzz dxy dxz dyz : arr3) (k j i : Z) : R :=
  (* access strain rates *)
  let XX := dxx@[k, j, i] in
  let YY := dyy@[k, j, i] in
  let ZZ := dzz@[k, j, i] in
  (* x-y plane, i-j indices *)
  let XY1 := dxy@[k, j, i] in
  let XY2 := dxy@[k, j+1, i] in
  let XY3 := dxy@[k, j, i+1] in
  let XY4 := dxy@[k, j+1, i+1] in
  (* x-z plane, i-k indices *)
  let XZ1 := dxz@[k, j, i] in
  let XZ2 := dxz@[k+1, j, i] in
  let XZ3 := dxz@[k, j, i+1] in
  let XZ4 := dxz@[k+1, j, i+1] in
  (* y-z plane, j-k indices *)
  let YZ1 := dyz@[k, j, i] in
  let YZ2 := dyz@[k+1, j, i] in
  let YZ3 := dyz@[k, j+1, i] in
  let YZ4 := dyz@[k+1, j+1, i] in
  0.5 * (XX*XX + YY*YY + ZZ*ZZ) +
  0.25 * (XY1*XY1 + XY2*XY2 + XY3*XY3 + XY4*XY4) +
  0.25 * (XZ1*XZ1 + XZ2*XZ2 + XZ3*XZ3 + XZ4*XZ4) +
  0.25 * (YZ1*YZ1 + YZ2*YZ2 + YZ3*YZ3 + YZ4*YZ4).

(** [I1 = i; if(I1 == m) I1--;] and [I2 = i-1; if(I2 == -1) I2++;] *)
Definition bound_hi (i m : Z) : Z := if Z.eqb i m then (i - 1)%Z else i.
Definition bound_lo (i : Z) : Z :=
  if Z.eqb (i - 1) (-1) then (i - 1 + 1)%Z else (i - 1)%Z.

(** second invariant at an xy edge; [mx], [my] are the last node indices *)
Definition J2Inv_xy (dxx dyy dzz dxy dxz dyz : arr3) (mx my : Z)
    (k j i : Z) : R :=
  (* check index bounds *)
  let I1 := bound_hi i mx in
  let I2 := bound_lo i in
  let J1 := bound_hi j my in
  let J2 := bound_lo j in
  (* access strain rates *)
  let XY := dxy@[k, j, i] in
  let XX1 := dxx@[k, J1, I1] in let XX2 := dxx@[k, J1, I2] in
  let XX3 := dxx@[k, J2, I1] in let XX4 := dxx@[k, J2, I2] in
  let YY1 := dyy@[k, J1, I1] in let YY2 := dyy@[k, J1, I2] in
  let YY3 := dyy@[k, J2, I1] in let YY4 := dyy@[k, J2, I2] in
  let ZZ1 := dzz@[k, J1, I1] in let ZZ2 := dzz@[k, J1, I2] in
  let ZZ3 := dzz@[k, J2, I1] in let ZZ4 := dzz@[k, J2, I2] in
  let XZ1 := dxz@[k, J1, i] in let XZ2 := dxz@[k+1, J1, i] in
  let XZ3 := dxz@[k, J2, i] in let XZ4 := dxz@[k+1, J2, i] in
  let YZ1 := dyz@[k, j, I1] in let YZ2 := dyz@[k+1, j, I1] in
  let YZ3 := dyz@[k, j, I2] in let YZ4 := dyz@[k+1, j, I2] in
  XY*XY +
  0.125 * (XX1*XX1 + XX2*XX2 + XX3*XX3 + XX4*XX4) +
  0.125 * (YY1*YY1 + YY2*YY2 + YY3*YY3 + YY4*YY4) +
  0.125 * (ZZ1*ZZ1 + ZZ2*ZZ2 + ZZ3*ZZ3 + ZZ4*ZZ4) +
  0.25 * (XZ1*XZ1 + XZ2*XZ2 + XZ3*XZ3 + XZ4*XZ4) +
  0.25 * (YZ1*YZ1 + YZ2*YZ2 + YZ3*YZ3 + YZ4*YZ4).

(** second invariant at an xz edge *)
Definition J2Inv_xz (dxx dyy dzz dxy dxz dyz : arr3) (mx mz : Z)
    (k j i : Z) : R :=
  let I1 := bound_hi i mx in
  let I2 := bound_lo i in
  let K1 := bound_hi k mz in
  let K2 := bound_lo k in
  let XZ := dxz@[k, j, i] in
  let XX1 := dxx@[K1, j, I1] in let XX2 := dxx@[K1, j, I2] in
  let XX3 := dxx@[K2, j, I1] in let XX4 := dxx@[K2, j, I2] in
  let YY1 := dyy@[K1, j, I1] in let YY2 := dyy@[K1, j, I2] in
  let YY3 := dyy@[K2, j, I1] in let YY4 := dyy@[K2, j, I2] in
  let ZZ1 := dzz@[K1, j, I1] in let ZZ2 := dzz@[K1, j, I2] in
  let ZZ3 := dzz@[K2, j, I1] in let ZZ4 := dzz@[K2, j, I2] in
  let XY1 := dxy@[K1, j, i] in let XY2 := dxy@[K1, j+1, i] in
  let XY3 := dxy@[K2, j, i] in let XY4 := dxy@[K2, j+1, i] in
  let YZ1 := dyz@[k, j, I1] in let YZ2 := dyz@[k, j+1, I1] in
  let YZ3 := dyz@[k, j, I2] in let YZ4 := dyz@[k, j+1, I2] in
  XZ*XZ +
  0.125 * (XX1*XX1 + XX2*XX2 + XX3*XX3 + XX4*XX4) +
  0.125 * (YY1*YY1 + YY2*YY2 + YY3*YY3 + YY4*YY4) +
  0.125 * (ZZ1*ZZ1 + ZZ2*ZZ2 + ZZ3*ZZ3 + ZZ4*ZZ4) +
  0.25 * (XY1*XY1 + XY2*XY2 + XY3*XY3 + XY4*XY4) +
  0.25 * (YZ1*YZ1 + YZ2*YZ2 + YZ3*YZ3 + YZ4*YZ4).

(** second invariant at a yz edge *)
Definition J2Inv_yz (dxx dyy dzz dxy dxz dyz : arr3) (my mz : Z)
    (k j i : Z) : R :=
  let J1 := bound_hi j my in
  let J2 := bound_lo j in
  let K1 := bound_hi k mz in
  let K2 := bound_lo k in
  let YZ := dyz@[k, j, i] in
  let XX1 := dxx@[K1, J1, i] in let XX2 := dxx@[K1, J2, i] in
  let XX3 := dxx@[K2, J1, i] in let XX4 := dxx@[K2, J2, i] in
  let YY1 := dyy@[K1, J1, i] in let YY2 := dyy@[K1, J2, i] in
  let YY3 := dyy@[K2, J1, i] in let YY4 := dyy@[K2, J2, i] in
  let ZZ1 := dzz@[K1, J1, i] in let ZZ2 := dzz@[K1, J2, i] in
  let ZZ3 := dzz@[K2, J1, i] in let ZZ4 := dzz@[K2, J2, i] in
  let XY1 := dxy@[K1, j, i] in let XY2 := dxy@[K1, j, i+1] in
  let XY3 := dxy@[K2, j, i] in let XY4 := dxy@[K2, j, i+1] in
  let XZ1 := dxz@[k, J1, i] in let XZ2 := dxz@[k, J1, i+1] in
  let XZ3 := dxz@[k, J2, i] in let XZ4 := dxz@[k, J2, i+1] in
  YZ*YZ +
  0.125 * (XX1*XX1 + XX2*XX2 + XX3*XX3 + XX4*XX4) +
  0.125 * (YY1*YY1 + YY2*YY2 + YY3*YY3 + YY4*YY4) +
  0.125 * (ZZ1*ZZ1 + ZZ2*ZZ2 + ZZ3*ZZ3 + ZZ4*ZZ4) +
  0.25 * (XY1*XY1 + XY2*XY2 + XY3*XY3 + XY4*XY4) +
  0.25 * (XZ1*XZ1 + XZ2*XZ2 + XZ3*XZ3 + XZ4*XZ4).


Section Residual.
Context `{ConstEq}.
Variable jr : JacRes.

Let dt := ts_dt (ts jr).
Let mx := (tnods (dsx (fs jr)) - 1)%Z.
Let my := (tnods (dsy (fs jr)) - 1)%Z.
Let mz := (tnods (dsz (fs jr)) - 1)%Z.





End Residual.


(** **** JacResCopySol, JacResCopyRes *)

(** [for(i = 0; i < num; i++) sol[list[i]] = vals[i];] *)
Definition spc_set (num : Z) (list_ : Z -> Z) (vals : Z -> R)
    (sol : Z -> R) : Z -> R :=
  for_loop 0 num (fun i sol => upd sol (list_ i) (vals i)) sol.

(** [for(i = 0; i < num; i++) res[list[i]] = 0.0;] *)
Definition spc_zero (num : Z) (list_ : Z -> Z) (res : Z -> R) : Z -> R :=
  for_loop 0 num (fun i res => upd res (list_ i) 0) res.

(** [PetscMemcpy(dst + doff, src + soff, n*sizeof(PetscScalar))] *)
Definition PetscMemcpy (dst : Z -> R) (doff : Z) (src : Z -> R) (soff : Z)
    (n : Z) : Z -> R :=
  fun i =>
    if (Z.leb doff i && Z.ltb i (doff + n))%bool
    then src (soff + (i - doff))%Z else dst i.

Section TwoPoint.
Context `{BCMacros}.

(** one boundary test of the two-point constraints:
    [if(j == b) { fj = 1; J_ = jn; SET_TPC(bc, a, ..., pmdof) }], where
    [at_] places the neighbour index [jn] in its direction *)
Definition tpc_side (bcv : arr3) (pmdof : R) (idx b jn : Z)
    (at_ : Z -> Z * Z * Z) (st : arr3 * Z * Z) : arr3 * Z * Z :=
  let '(a, J_, fj) := st in
  if Z.eqb idx b then
    let '(kk, jj, ii) := at_ jn in
    (SET_TPC bcv a kk jj ii pmdof, jn, 1%Z)
  else (a, J_, fj).

Definition nonzero (z : Z) : bool := negb (Z.eqb z 0).

(** X points: constraints across j and k *)
Definition tpc_x_body (bcv : arr3) (mcy mcz : Z) (k j i : Z) (a : arr3)
  : arr3 :=
  let pmdof := a@[k, j, i] in
  let '(a, J_, fj) := tpc_side bcv pmdof j 0 (j-1) (fun J_ => (k, J_, i)) (a, j, 0%Z) in
  let '(a, J_, fj) := tpc_side bcv pmdof j mcy (j+1) (fun J_ => (k, J_, i)) (a, J_, fj) in
  let '(a, K_, fk) := tpc_side bcv pmdof k 0 (k-1) (fun K_ => (K_, j, i)) (a, k, 0%Z) in
  let '(a, K_, fk) := tpc_side bcv pmdof k mcz (k+1) (fun K_ => (K_, j, i)) (a, K_, fk) in
  if nonzero (fj * fk) then SET_EDGE_CORNER a K_ J_ i k j i pmdof else a.

(** Y points: constraints across i and k *)
Definition tpc_y_body (bcv : arr3) (mcx mcz : Z) (k j i : Z) (a : arr3)
  : arr3 :=
  let pmdof := a@[k, j, i] in
  let '(a, I_, fi) := tpc_side bcv pmdof i 0 (i-1) (fun I_ => (k, j, I_)) (a, i, 0%Z) in
  let '(a, I_, fi) := tpc_side bcv pmdof i mcx (i+1) (fun I_ => (k, j, I_)) (a, I_, fi) in
  let '(a, K_, fk) := tpc_side bcv pmdof k 0 (k-1) (fun K_ => (K_, j, i)) (a, k, 0%Z) in
  let '(a, K_, fk) := tpc_side bcv pmdof k mcz (k+1) (fun K_ => (K_, j, i)) (a, K_, fk) in
  if nonzero (fi * fk) then SET_EDGE_CORNER a K_ j I_ k j i pmdof else a.

(** Z points: constraints across i and j *)
Definition tpc_z_body (bcv : arr3) (mcx mcy : Z) (k j i : Z) (a : arr3)
  : arr3 :=
  let pmdof := a@[k, j, i] in
  let '(a, I_, fi) := tpc_side bcv pmdof i 0 (i-1) (fun I_ => (k, j, I_)) (a, i, 0%Z) in
  let '(a, I_, fi) := tpc_side bcv pmdof i mcx (i+1) (fun I_ => (k, j, I_)) (a, I_, fi) in
  let '(a, J_, fj) := tpc_side bcv pmdof j 0 (j-1) (fun J_ => (k, J_, i)) (a, j, 0%Z) in
  let '(a, J_, fj) := tpc_side bcv pmdof j mcy (j+1) (fun J_ => (k, J_, i)) (a, J_, fj) in
  if nonzero (fi * fj) then SET_EDGE_CORNER a k J_ I_ k j i pmdof else a.

(** central points (pressure): constraints across i, j and k *)
Definition tpc_p_body (bcv : arr3) (mcx mcy mcz : Z) (k j i : Z) (a : arr3)
  : arr3 :=
  let pmdof := a@[k, j, i] in
  let '(a, I_, fi) := tpc_side bcv pmdof i 0 (i-1) (fun I_ => (k, j, I_)) (a, i, 0%Z) in
  let '(a, I_, fi) := tpc_side bcv pmdof i mcx (i+1) (fun I_ => (k, j, I_)) (a, I_, fi) in
  let '(a, J_, fj) := tpc_side bcv pmdof j 0 (j-1) (fun J_ => (k, J_, i)) (a, j, 0%Z) in
  let '(a, J_, fj) := tpc_side bcv pmdof j mcy (j+1) (fun J_ => (k, J_, i)) (a, J_, fj) in
  let '(a, K_, fk) := tpc_side bcv pmdof k 0 (k-1) (fun K_ => (K_, j, i)) (a, k, 0%Z) in
  let '(a, K_, fk) := tpc_side bcv pmdof k mcz (k+1) (fun K_ => (K_, j, i)) (a, K_, fk) in
  let a := if nonzero (fi * fj) then SET_EDGE_CORNER a k J_ I_ k j i pmdof else a in
  let a := if nonzero (fi * fk) then SET_EDGE_CORNER a K_ j I_ k j i pmdof else a in
  let a := if nonzero (fj * fk) then SET_EDGE_CORNER a K_ J_ i k j i pmdof else a in
  if nonzero (fi * fj * fk) then SET_EDGE_CORNER a K_ J_ I_ k j i pmdof else a.
End TwoPoint.

(** The solution vector [x] is written too (the constrained entries), so it
    is returned next to the object. *)
Definition JacResCopySol `{PetscLib} `{BCMacros} (jr : JacRes) (x : Z -> R)
  : JacRes * (Z -> R) :=
  let f := fs jr in
  let b := bc jr in
  (* initialize maximal index in all directions *)
  let mcx := (tcels (dsx f) - 1)%Z in
  let mcy := (tcels (dsy f) - 1)%Z in
  let mcz := (tcels (dsz f) - 1)%Z in
  (* enforce single point constraints: velocity, then pressure *)
  let sol := spc_set (vNumSPC b) (vSPCList b) (vSPCVals b) x in
  let sol := spc_set (pNumSPC b) (pSPCList b) (pSPCVals b) sol in
  (* copy vectors component-wise *)
  let iter := 0%Z in
  let vx := PetscMemcpy (VecGetArray (DA_X f) (gvx jr)) 0 sol iter (nXFace f) in
  let iter := (iter + nXFace f)%Z in
  let vy := PetscMemcpy (VecGetArray (DA_Y f) (gvy jr)) 0 sol iter (nYFace f) in
  let iter := (iter + nYFace f)%Z in
  let vz := PetscMemcpy (VecGetArray (DA_Z f) (gvz jr)) 0 sol iter (nZFace f) in
  let iter := (iter + nZFace f)%Z in
  let p := PetscMemcpy (VecGetArray (DA_CEN f) (gp jr)) 0 sol iter (nCells f) in
  let gvx_ := VecPlaceArray (DA_X f) vx in
  let gvy_ := VecPlaceArray (DA_Y f) vy in
  let gvz_ := VecPlaceArray (DA_Z f) vz in
  let gp_ := VecPlaceArray (DA_CEN f) p in
  (* fill local (ghosted) version of solution vectors *)
  let lvx_ := GLOBAL_TO_LOCAL (DA_X f) gvx_ (lvx jr) in
  let lvy_ := GLOBAL_TO_LOCAL (DA_Y f) gvy_ (lvy jr) in
  let lvz_ := GLOBAL_TO_LOCAL (DA_Z f) gvz_ (lvz jr) in
  let lp_ := GLOBAL_TO_LOCAL (DA_CEN f) gp_ (lp jr) in
  (* enforce two-point constraints *)
  let lvx_ :=
    std_loop_on (loop_range GET_NODE_RANGE_GHOST_INT GET_CELL_RANGE_GHOST_INT
                   GET_CELL_RANGE_GHOST_INT f)
      (tpc_x_body (bcvx b) mcy mcz) lvx_ in
  let lvy_ :=
    std_loop_on (loop_range GET_CELL_RANGE_GHOST_INT GET_NODE_RANGE_GHOST_INT
                   GET_CELL_RANGE_GHOST_INT f)
      (tpc_y_body (bcvy b) mcx mcz) lvy_ in
  let lvz_ :=
    std_loop_on (loop_range GET_CELL_RANGE_GHOST_INT GET_CELL_RANGE_GHOST_INT
                   GET_NODE_RANGE_GHOST_INT f)
      (tpc_z_body (bcvz b) mcx mcy) lvz_ in
  let lp_ :=
    std_loop_on (loop_range GET_CELL_RANGE_GHOST_INT GET_CELL_RANGE_GHOST_INT
                   GET_CELL_RANGE_GHOST_INT f)
      (tpc_p_body (bcp b) mcx mcy mcz) lp_ in
  ({| fs := fs jr; bc := bc jr; ts := ts jr;
      numPhases := numPhases jr; phases := phases jr; matLim := matLim jr;
      FSSA := FSSA jr; grav := grav jr;
      pShift := pShift jr; pShiftAct := pShiftAct jr;
      svCell := svCell jr; svXYEdge := svXYEdge jr;
      svXZEdge := svXZEdge jr; svYZEdge := svYZEdge jr;
      gvx := gvx_; gvy := gvy_; gvz := gvz_; gp := gp_;
      lvx := lvx_; lvy := lvy_; lvz := lvz_; lp := lp_;
      lT := lT jr;
      ldxx := ldxx jr; ldyy := ldyy jr; ldzz := ldzz jr;
      ldxy := ldxy jr; ldxz := ldxz jr; ldyz := ldyz jr;
      gc := gc jr;
      lfx := lfx jr; lfy := lfy jr; lfz := lfz jr;
      gfx := gfx jr; gfy := gfy jr; gfz := gfz jr |},
   sol).

(** The object is only read; the result is the residual vector [f]. *)
Definition JacResCopyRes (jr : JacRes) (f : Z -> R) : Z -> R :=
  let g := fs jr in
  let b := bc jr in
  (* copy vectors component-wise *)
  let iter := 0%Z in
  let res := PetscMemcpy f iter (VecGetArray (DA_X g) (gfx jr)) 0 (nXFace g) in
  let iter := (iter + nXFace g)%Z in
  let res := PetscMemcpy res iter (VecGetArray (DA_Y g) (gfy jr)) 0 (nYFace g) in
  let iter := (iter + nYFace g)%Z in
  let res := PetscMemcpy res iter (VecGetArray (DA_Z g) (gfz jr)) 0 (nZFace g) in
  let iter := (iter + nZFace g)%Z in
  let res := PetscMemcpy res iter (VecGetArray (DA_CEN g) (gc jr)) 0 (nCells g) in
  (* zero out constrained residuals (velocity) *)
  let res := spc_zero (vNumSPC b) (vSPCList b) res in
  (* zero out constrained residuals (pressure) *)
  spc_zero (pNumSPC b) (pSPCList b) res.

(** **** JacResGetCourantStep *)

Definition getMaxInvStep1DLocal (ds : Discret1D) (da : DM) (gv : arr3)
    (dir : Z) (idtmax0 : R) : R :=
  if Rlt_dec (h_uni ds) 0 then
    (* compute time step on variable spacing grid *)
    std_loop (da_sx da) (da_sy da) (da_sz da) (da_nx da) (da_ny da) (da_nz da)
      (fun k j i idtmax =>
         (* get velocity *)
         let v := gv@[k, j, i] in
         (* prepare node index buffer *)
         let ijk := upd (upd (upd zeroInt 0 (i - da_sx da)%Z)
                              1 (j - da_sy da)%Z) 2 (k - da_sz da)%Z in
         (* anisotropic direction-dependent criterion *)
         let idx := if Rge_dec v 0 then ijk dir else (ijk dir - 1)%Z in
         (* get mesh step *)
         let h := ncoor ds (idx + 1) - ncoor ds idx in
         (* get inverse time step *)
         let idt := v / h in
         (* update maximum inverse time step *)
         if Rgt_dec idt idtmax then idt else idtmax)
      idtmax0
  else
    (* compute time step on uniform spacing grid *)
    let ln := VecGetLocalSize da in
    let va := VecGetArray da gv in
    (* get maximum local velocity *)
    let vmax :=
      for_loop 0 ln
        (fun jj vmax => let v := Rabs (va jj) in
                        if Rgt_dec v vmax then v else vmax) 0 in
    (* get inverse time step *)
    let idt := vmax / h_uni ds in
    (* update maximum inverse time step *)
    if Rgt_dec idt idtmax0 then idt else idtmax0.

Definition set_ts (jr : JacRes) (t : TSSol) : JacRes :=
  {| fs := fs jr; bc := bc jr; ts := t;
     numPhases := numPhases jr; phases := phases jr; matLim := matLim jr;
     FSSA := FSSA jr; grav := grav jr;
     pShift := pShift jr; pShiftAct := pShiftAct jr;
     svCell := svCell jr; svXYEdge := svXYEdge jr;
     svXZEdge := svXZEdge jr; svYZEdge := svYZEdge jr;
     gvx := gvx jr; gvy := gvy jr; gvz := gvz jr; gp := gp jr;
     lvx := lvx jr; lvy := lvy jr; lvz := lvz jr; lp := lp jr;
     lT := lT jr;
     ldxx := ldxx jr; ldyy := ldyy jr; ldzz := ldzz jr;
     ldxy := ldxy jr; ldxz := ldxz jr; ldyz := ldyz jr;
     gc := gc jr;
     lfx := lfx jr; lfy := lfy jr; lfz := lfz jr;
     gfx := gfx jr; gfy := gfy jr; gfz := gfz jr |}.

(** The time step after the growth cap, the Courant bound and the ceiling.
    [1.0/gidtmax] with [gidtmax] zero (no velocity anywhere) is +infinity
    in the arithmetic of the machine, so the Courant test is not taken
    there; [R] has no such value and the case is written out. *)
Definition courant_dt (dt_prev gidtmax dtmax_ : R) : R :=
  (* slightly increase timestep *)
  let dt := dt_prev * 1.1 in
  (* if dt larger than dt_courant, use courant *)
  let dt :=
    if Req_dec_T gidtmax 0 then dt
    else if Rgt_dec dt (1 / gidtmax) then 1 / gidtmax else dt in
  (* if dt larger than maximum dt use maximum dt *)
  if Rgt_dec dt dtmax_ then dtmax_ else dt.

(** [others]: the local maxima of the other processes of PETSC_COMM_WORLD
    (empty when the run is sequential). *)
Definition JacResGetCourantStep (others : list R) (jr : JacRes) : JacRes :=
  let f := fs jr in
  let t := ts jr in
  let lidtmax := 0 in
  (* determine maximum local inverse time step *)
  let lidtmax := getMaxInvStep1DLocal (dsx f) (DA_X f) (gvx jr) 0 lidtmax in
  let lidtmax := getMaxInvStep1DLocal (dsy f) (DA_Y f) (gvy jr) 0 lidtmax in
  let lidtmax := getMaxInvStep1DLocal (dsz f) (DA_Z f) (gvz jr) 0 lidtmax in
  (* synchronize *)
  let gidtmax :=
    match others with
    | [] => lidtmax
    | _ => Allreduce_MAX others lidtmax
    end in
  (* compute time step *)
  let gidtmax := gidtmax / Cmax t in
  let dt := courant_dt (ts_dt t) gidtmax (dtmax t) in
  (* store new time step *)
  set_ts jr {| ts_dt := dt; ts_pdt := ts_dt t; Cmax := Cmax t;
               dtmax := dtmax t; ts_time := ts_time t; istep := istep t |}.

(** *** Discret1DGatherCoord *)

(** [MPI_Gatherv] as the root of the communicator sees it: the block of the
    receive buffer that starts at [displs r] takes the [recvcnts r] entries
    that rank [r] sends. *)
Definition MPI_Gatherv (np : Z) (send : Z -> Z -> R) (recvcnts displs : Z -> Z)
    (recv : Z -> R) : Z -> R :=
  for_loop 0 np
    (fun r buf =>
       for_loop 0 (recvcnts r)
         (fun l buf => upd buf (displs r + l) (send r l)) buf)
    recv.

(** the receive counts, computed from the table of first nodes *)
Definition gather_recvcnts (ds : Discret1D) : Z -> Z :=
  let recvcnts :=
    for_loop 0 (nproc ds - 1)
      (fun i rc => upd rc i (starts ds (i + 1) - starts ds i)%Z) zeroInt in
  (* last element stores index of the last node (not total number of nodes) *)
  upd recvcnts (nproc ds - 1)
    (starts ds (nproc ds) - starts ds (nproc ds - 1) + 1)%Z.

(** The routine on the process that is rank zero of PETSC_COMM_WORLD, which
    is rank zero of its column too; [others r] is the node array that rank
    [r] of the column passes to [MPI_Gatherv].  The result is the array
    returned in [coord]. *)
Definition Discret1DGatherCoord (others : Z -> Z -> R) (ds : Discret1D)
  : Z -> R :=
  (* check for sequential case *)
  if Z.eqb (nproc ds) 1 then
    for_loop 0 (tnods ds) (fun i pcoord => upd pcoord i (ncoor ds i)) zeroScal
  else
    (* gather coordinates on zero ranks of column communicator *)
    let send := fun r => if Z.eqb r (rank ds) then ncoor ds else others r in
    MPI_Gatherv (nproc ds) send (gather_recvcnts ds) (starts ds) zeroScal.

(** *** FDSTAGGetLocalBox, FDSTAGGetGlobalBox *)

(** The six output pointers of the box routines: [None] for a pointer the
    caller passes as NULL, the variable behind it otherwise. *)
Record Box := {
  box_bx : option R; box_by : option R; box_bz : option R;
  box_ex : option R; box_ey : option R; box_ez : option R
}.

(** an assignment through an output pointer, made when it is not NULL *)
Definition store (p : option R) (v : R) : option R :=
  match p with
  | Some _ => Some v
  | None => None
  end.

Definition FDSTAGGetLocalBox (fs : FDSTAG) (b : Box) : Box :=
  {| box_bx := store (box_bx b) (ncoor (dsx fs) 0);
     box_by := store (box_by b) (ncoor (dsy fs) 0);
     box_bz := store (box_bz b) (ncoor (dsz fs) 0);
     box_ex := store (box_ex b) (ncoor (dsx fs) (ncels (dsx fs)));
     box_ey := store (box_ey b) (ncoor (dsy fs) (ncels (dsy fs)));
     box_ez := store (box_ez b) (ncoor (dsz fs) (ncels (dsz fs))) |}.

Definition FDSTAGGetGlobalBox (fs : FDSTAG) (b : Box) : Box :=
  {| box_bx := store (box_bx b) (xstart (msx fs) 0);
     box_by := store (box_by b) (xstart (msy fs) 0);
     box_bz := store (box_bz b) (xstart (msz fs) 0);
     box_ex := store (box_ex b) (xstart (msx fs) (nsegs (msx fs)));
     box_ey := store (box_ey b) (xstart (msy fs) (nsegs (msy fs)));
     box_ez := store (box_ez b) (xstart (msz fs) (nsegs (msz fs))) |}.

(** *** FDSTAGGenCoord *)

(** The members of the user context [UserContext] (LaMEM.h) that
    [FDSTAGGenCoord] reads. *)
Module Usr.
Record t := {
  x_left : R; y_front : R; z_bot : R;     (* the corner of the domain *)
  W : R; L : R; H : R;                    (* its extent along x, y, z *)
  nel_x : Z; nel_y : Z; nel_z : Z;        (* cells along x, y, z *)
  mseg_x : MeshSegInp; mseg_y : MeshSegInp; mseg_z : MeshSegInp
}.
End Usr.

(** [px], [py], [pz]: the extreme cell sizes of the other processes of the
    three columns.  There is no result when [Discret1DGenCoord] has none
    on one of the axes. *)
Definition FDSTAGGenCoord (px py pz : list (R * R)) (fs : FDSTAG)
    (usr : Usr.t) : option FDSTAG :=
  (* generate mesh segment data *)
  let mx := MeshSeg1DCreate (Usr.x_left usr) (Usr.x_left usr + Usr.W usr) (Usr.nel_x usr)
              (Usr.mseg_x usr) in
  let my := MeshSeg1DCreate (Usr.y_front usr) (Usr.y_front usr + Usr.L usr) (Usr.nel_y usr)
              (Usr.mseg_y usr) in
  let mz := MeshSeg1DCreate (Usr.z_bot usr) (Usr.z_bot usr + Usr.H usr) (Usr.nel_z usr)
              (Usr.mseg_z usr) in
  (* generate coordinates *)
  match Discret1DGenCoord px (dsx fs) mx with
  | None => None
  | Some dx_ =>
      match Discret1DGenCoord py (dsy fs) my with
      | None => None
      | Some dy_ =>
          match Discret1DGenCoord pz (dsz fs) mz with
          | None => None
          | Some dz_ => Some (set_axes fs dx_ dy_ dz_ mx my mz)
          end
      end
  end.

(** *** DOFIndexCompute *)

(** [DMDAGetCorners]: the first owned point and the owned widths *)
Definition DMDAGetCorners (da : DM) : Z * Z * Z * Z * Z * Z :=
  (da_sx da, da_sy da, da_sz da, da_nx da, da_ny da, da_nz da).

(** one numbering loop: [iv[k][j][i] = (PetscScalar)st; st++;] *)
Definition number_points (da : DM) (st : Z) (iv : arr3) : Z * arr3 :=
  std_loop_on (DMDAGetCorners da)
    (fun k j i '(st, iv) => ((st + 1)%Z, set3 iv k j i (IZR st))) (st, iv).

(** With [idxmod] neither IDXCOUPLED nor IDXUNCOUPLED the routine reads
    [stv] and [stp] before anything was assigned to them: no defined
    result. *)
Definition DOFIndexCompute `{PetscLib} (id : DOFIndex)
    (DA_CEN DA_X DA_Y DA_Z : DM) (idxmod_ : idxtype) : option DOFIndex :=
  (* set global indices of the local and ghost nodes (including boundary) *)
  let ivx_ : arr3 := fun _ _ _ => -1 in
  let ivy_ : arr3 := fun _ _ _ => -1 in
  let ivz_ : arr3 := fun _ _ _ => -1 in
  let ip_ : arr3 := fun _ _ _ => -1 in
  (* compute interlaced global numbering of the local nodes *)
  match
    match idxmod_ with
    | IDXCOUPLED => Some (st id, (st id + lnv id)%Z)
    | IDXUNCOUPLED => Some (stv id, stp id)
    | IDXNONE => None
    end
  with
  | None => None
  | Some (stv_, stp_) =>
      (* X-points *)
      let '(stv_, ivx_) := number_points DA_X stv_ ivx_ in
      (* Y-points *)
      let '(stv_, ivy_) := number_points DA_Y stv_ ivy_ in
      (* Z-points *)
      let '(stv_, ivz_) := number_points DA_Z stv_ ivz_ in
      (* P-points *)
      let '(stp_, ip_) := number_points DA_CEN stp_ ip_ in
      Some {| idxmod := idxmod_;   (* store index mode *)
              lnv := lnv id; lnp := lnp id; ln := ln id;
              stv := stv id; stp := stp id; st := st id;
              (* get ghost point indices *)
              ivx := LOCAL_TO_LOCAL DA_X ivx_;
              ivy := LOCAL_TO_LOCAL DA_Y ivy_;
              ivz := LOCAL_TO_LOCAL DA_Z ivz_;
              ip := LOCAL_TO_LOCAL DA_CEN ip_ |}
  end.

(** *** FDSTAGGetAspectRatio, FDSTAGView *)

(** the three ratios of one cell, each taken against the running maximum *)
Definition aspect_body (f : FDSTAG) (k j i : Z) (lrt : R) : R :=
  let sx := snd (GET_CELL_RANGE (dsx f)) in
  let sy := snd (GET_CELL_RANGE (dsy f)) in
  let sz := snd (GET_CELL_RANGE (dsz f)) in
  (* get mesh steps *)
  let dx := SIZE_CELL i sx (dsx f) in
  let dy := SIZE_CELL j sy (dsy f) in
  let dz := SIZE_CELL k sz (dsz f) in
  let rt := if Rgt_dec dx dy then dx / dy else dy / dx in
  let lrt := if Rgt_dec rt lrt then rt else lrt in
  let rt := if Rgt_dec dx dz then dx / dz else dz / dx in
  let lrt := if Rgt_dec rt lrt then rt else lrt in
  let rt := if Rgt_dec dy dz then dy / dz else dz / dy in
  if Rgt_dec rt lrt then rt else lrt.

(** [others]: the local ratios of the other processes of PETSC_COMM_WORLD
    (empty when the run is sequential). *)
Definition FDSTAGGetAspectRatio (others : list R) (f : FDSTAG) : R :=
  let lrt := std_loop_on (cen_range f) (aspect_body f) 0 in
  (* get global aspect ratio *)
  match others with
  | [] => lrt
  | _ => Allreduce_MAX others lrt
  end.

(** the lines that [FDSTAGView] prints *)
Inductive ViewLine :=
| ProcessorGrid (px py pz : Z)
| FineGridCells (cx cy cz : Z)
| NumberOfCells (n : Z)
| NumberOfVelocityDOF (n : Z)
| MaximumAspectRatio (r : R)
| AspectRatioWarning.

(** the printed lines and the return code *)
Definition FDSTAGView (others : list R) (f : FDSTAG)
  : list ViewLine * Res unit :=
  let px := nproc (dsx f) in let cx := tcels (dsx f) in let nx := tnods (dsx f) in
  let py := nproc (dsy f) in let cy := tcels (dsy f) in let ny := tnods (dsy f) in
  let pz := nproc (dsz f) in let cz := tcels (dsz f) in let nz := tnods (dsz f) in
  let nCells_ := (cx * cy * cz)%Z in
  let nVelDOF := (nx * cy * cz + cx * ny * cz + cx * cy * nz)%Z in
  let maxAspRat := FDSTAGGetAspectRatio others f in
  let out := [ProcessorGrid px py pz; FineGridCells cx cy cz;
              NumberOfCells nCells_; NumberOfVelocityDOF nVelDOF;
              MaximumAspectRatio maxAspRat] in
  if Rgt_dec maxAspRat 5 then (out, Err PETSC_ERR_USER)
  else if Rgt_dec maxAspRat 2 then (out ++ [AspectRatioWarning], Ok tt)
  else (out, Ok tt).

(** *** JacResGetPressShift *)

(** [MPI_Allreduce] with [MPI_SUM] over PETSC_COMM_WORLD: [others] holds
    what the other processes contribute. *)
Definition Allreduce_SUM (others : list R) (l : R) : R := fold_right Rplus l others.

Definition set_pShift (jr : JacRes) (v : R) : JacRes :=
  {| fs := fs jr; bc := bc jr; ts := ts jr;
     numPhases := numPhases jr; phases := phases jr; matLim := matLim jr;
     FSSA := FSSA jr; grav := grav jr;
     pShift := v; pShiftAct := pShiftAct jr;
     svCell := svCell jr; svXYEdge := svXYEdge jr;
     svXZEdge := svXZEdge jr; svYZEdge := svYZEdge jr;
     gvx := gvx jr; gvy := gvy jr; gvz := gvz jr; gp := gp jr;
     lvx := lvx jr; lvy := lvy jr; lvz := lvz jr; lp := lp jr;
     lT := lT jr;
     ldxx := ldxx jr; ldyy := ldyy jr; ldzz := ldzz jr;
     ldxy := ldxy jr; ldxz := ldxz jr; ldyz := ldyz jr;
     gc := gc jr;
     lfx := lfx jr; lfy := lfy jr; lfz := lfz jr;
     gfx := gfx jr; gfy := gfy jr; gfz := gfz jr |}.

(** [others]: the local sums of the other processes of PETSC_COMM_WORLD
    (empty when the run is sequential). *)
Definition JacResGetPressShift (others : list R) (jr : JacRes) : JacRes :=
  (* check if requested *)
  if negb (pShiftAct jr) then jr
  else
    let f := fs jr in
    let mcz := (tcels (dsz f) - 1)%Z in
    let lpShift :=
      std_loop_on (DMDAGetCorners (DA_CEN f))
        (fun k j i lpShift =>
           if Z.eqb k mcz then lpShift + (gp jr)@[k, j, i] else lpShift) 0 in
    (* synchronize *)
    let gpShift :=
      match others with
      | [] => lpShift
      | _ => Allreduce_SUM others lpShift
      end in
    (* store pressure shift *)
    set_pShift jr (gpShift / IZR (tcels (dsx f) * tcels (dsy f))).

(** *** JacResGetVorticity *)

Definition set_ld (jr : JacRes) (dxy dxz dyz : arr3) : JacRes :=
  {| fs := fs jr; bc := bc jr; ts := ts jr;
     numPhases := numPhases jr; phases := phases jr; matLim := matLim jr;
     FSSA := FSSA jr; grav := grav jr;
     pShift := pShift jr; pShiftAct := pShiftAct jr;
     svCell := svCell jr; svXYEdge := svXYEdge jr;
     svXZEdge := svXZEdge jr; svYZEdge := svYZEdge jr;
     gvx := gvx jr; gvy := gvy jr; gvz := gvz jr; gp := gp jr;
     lvx := lvx jr; lvy := lvy jr; lvz := lvz jr; lp := lp jr;
     lT := lT jr;
     ldxx := ldxx jr; ldyy := ldyy jr; ldzz := ldzz jr;
     ldxy := dxy; ldxz := dxz; ldyz := dyz;
     gc := gc jr;
     lfx := lfx jr; lfy := lfy jr; lfz := lfz jr;
     gfx := gfx jr; gfy := gfy jr; gfz := gfz jr |}.

(** The three components are written into the vectors of the shear strain
    rates, [ldxy] (wz), [ldxz] (wy) and [ldyz] (wx). *)
Definition JacResGetVorticity `{PetscLib} (jr : JacRes) : JacRes :=
  let f := fs jr in
  let lvx_ := lvx jr in let lvy_ := lvy jr in let lvz_ := lvz jr in
  let sx := snd (GET_NODE_RANGE (dsx f)) in
  let sy := snd (GET_NODE_RANGE (dsy f)) in
  let sz := snd (GET_NODE_RANGE (dsz f)) in
  (* xy edge points (wz) *)
  let gwz :=
    std_loop_on (xy_range f)
      (fun k j i gwz =>
         let dvxdy := (lvx_@[k, j, i] - lvx_@[k, j-1, i]) / SIZE_NODE j sy (dsy f) in
         let dvydx := (lvy_@[k, j, i] - lvy_@[k, j, i-1]) / SIZE_NODE i sx (dsx f) in
         (* positive (counter-clockwise) rotation around Z axis X -> Y *)
         set3 gwz k j i (dvydx - dvxdy))
      (ldxy jr) in
  (* xz edge points (wy) *)
  let gwy :=
    std_loop_on (xz_range f)
      (fun k j i gwy =>
         let dvxdz := (lvx_@[k, j, i] - lvx_@[k-1, j, i]) / SIZE_NODE k sz (dsz f) in
         let dvzdx := (lvz_@[k, j, i] - lvz_@[k, j, i-1]) / SIZE_NODE i sx (dsx f) in
         (* positive (counter-clockwise) rotation around Y axis Z -> X *)
         set3 gwy k j i (dvxdz - dvzdx))
      (ldxz jr) in
  (* yz edge points (wx) *)
  let gwx :=
    std_loop_on (yz_range f)
      (fun k j i gwx =>
         let dvydz := (lvy_@[k, j, i] - lvy_@[k-1, j, i]) / SIZE_NODE k sz (dsz f) in
         let dvzdy := (lvz_@[k, j, i] - lvz_@[k, j-1, i]) / SIZE_NODE j sy (dsy f) in
         (* positive (counter-clockwise) rotation around X axis Y -> Z *)
         set3 gwx k j i (dvzdy - dvydz))
      (ldyz jr) in
  (* communicate boundary values *)
  set_ld jr (LOCAL_TO_LOCAL (DA_XY f) gwz) (LOCAL_TO_LOCAL (DA_XZ f) gwy)
            (LOCAL_TO_LOCAL (DA_YZ f) gwx).

(** *** JacResCopyMomentumRes, JacResCopyContinuityRes *)

Definition set_res (jr : JacRes) (fx fy fz c : arr3) : JacRes :=
  {| fs := fs jr; bc := bc jr; ts := ts jr;
     numPhases := numPhases jr; phases := phases jr; matLim := matLim jr;
     FSSA := FSSA jr; grav := grav jr;
     pShift := pShift jr; pShiftAct := pShiftAct jr;
     svCell := svCell jr; svXYEdge := svXYEdge jr;
     svXZEdge := svXZEdge jr; svYZEdge := svYZEdge jr;
     gvx := gvx jr; gvy := gvy jr; gvz := gvz jr; gp := gp jr;
     lvx := lvx jr; lvy := lvy jr; lvz := lvz jr; lp := lp jr;
     lT := lT jr;
     ldxx := ldxx jr; ldyy := ldyy jr; ldzz := ldzz jr;
     ldxy := ldxy jr; ldxz := ldxz jr; ldyz := ldyz jr;
     gc := c;
     lfx := lfx jr; lfy := lfy jr; lfz := lfz jr;
     gfx := fx; gfy := fy; gfz := fz |}.

(** The vector [f] is only read; the momentum residuals of the object are
    overwritten. *)
Definition JacResCopyMomentumRes (jr : JacRes) (f : Z -> R) : JacRes :=
  let g := fs jr in
  (* copy vectors component-wise *)
  let iter := 0%Z in
  let fx := PetscMemcpy (VecGetArray (DA_X g) (gfx jr)) 0 f iter (nXFace g) in
  let iter := (iter + nXFace g)%Z in
  let fy := PetscMemcpy (VecGetArray (DA_Y g) (gfy jr)) 0 f iter (nYFace g) in
  let iter := (iter + nYFace g)%Z in
  let fz := PetscMemcpy (VecGetArray (DA_Z g) (gfz jr)) 0 f iter (nZFace g) in
  set_res jr (VecPlaceArray (DA_X g) fx) (VecPlaceArray (DA_Y g) fy)
          (VecPlaceArray (DA_Z g) fz) (gc jr).

Definition JacResCopyContinuityRes (jr : JacRes) (f : Z -> R) : JacRes :=
  let g := fs jr in
  (* copy vectors component-wise *)
  let iter := lnv (dof g) in
  let c := PetscMemcpy (VecGetArray (DA_CEN g) (gc jr)) 0 f iter (nCells g) in
  set_res jr (gfx jr) (gfy jr) (gfz jr) (VecPlaceArray (DA_CEN g) c).

(** *** JacResCreate: the buffer of the phase ratios *)

(** one pointer loop:
    [for(i = 0; i < n; i++) { sv[i].phRat = svBuff; svBuff += numPhases; }];
    a pointer into the buffer is its offset from the start of the buffer *)
Definition set_phRat (n numPhases_ : Z) (svBuff : Z) : Z * (Z -> Z) :=
  for_loop 0 n
    (fun i '(svBuff, phRat) => ((svBuff + numPhases_)%Z, upd phRat i svBuff))
    (svBuff, zeroInt).

(** what [JacResCreate] sets up for the phase ratios: the size of the
    buffer and the pointers of the cells and of the three kinds of edges *)
Record PhRatBuffer := {
  svBuffSz : Z;
  cell_phRat : Z -> Z;
  xy_phRat : Z -> Z;
  xz_phRat : Z -> Z;
  yz_phRat : Z -> Z
}.

(** The part of [JacResCreate] between the allocation of the solution
    variables and the default tolerances. *)
Definition JacResCreate_svBuff (numPhases_ : Z) (f : FDSTAG) : PhRatBuffer :=
  (* compute total size per processor of the solution variables storage buffer *)
  let svBuffSz_ :=
    (numPhases_ * (nCells f + nXYEdg f + nXZEdg f + nYZEdg f))%Z in
  (* setup pointers *)
  let svBuff := 0%Z in
  let '(svBuff, pc) := set_phRat (nCells f) numPhases_ svBuff in
  let '(svBuff, pxy) := set_phRat (nXYEdg f) numPhases_ svBuff in
  let '(svBuff, pxz) := set_phRat (nXZEdg f) numPhases_ svBuff in
  let '(svBuff, pyz) := set_phRat (nYZEdg f) numPhases_ svBuff in
  {| svBuffSz := svBuffSz_; cell_phRat := pc;
     xy_phRat := pxy; xz_phRat := pxz; yz_phRat := pyz |}.

(** *** The arithmetic of the machine

    Two pieces of the program once more, over the binary64 numbers of the
    kernel ([PetscScalar] is a C [double] in a default build of PETSc):
    [MeshSeg1DGenCoord], and the lines of the cell loop of
    [JacResGetEffStrainRate] that take the trace off the velocity
    gradients.  The operations are those of IEEE 754: they round to
    nearest, [x/0] is an infinity and [0*inf] is a NaN. *)
Module Binary64.
Import PrimFloat.
Local Open Scope float_scope.

(** the cast [(PetscScalar)n] of an integer *)
Definition of_int (z : Z) : float :=
  if Z.ltb z 0 then - of_uint63 (Uint63.of_Z (- z))
  else of_uint63 (Uint63.of_Z z).

Record MeshSeg1D := {
  nsegs  : Z;
  istart : Z -> Z;
  xstart : Z -> float;
  biases : Z -> float
}.

Definition MeshSeg1DGenCoord (ms : MeshSeg1D) (iseg nl istart_ : Z)
    (crd : Z) (mem : Z -> float) : Z -> float :=
  (* total number of nodes in segment (including both ends) *)
  let N := (istart ms (iseg + 1) - istart ms iseg + 1)%Z in
  (* total number of cells *)
  let M := (N - 1)%Z in
  let xbeg := xstart ms iseg in
  let xclose := xstart ms (iseg + 1) in
  let bias := biases ms iseg in
  let avgSz := (xclose - xbeg) / of_int M in
  let mem1 :=
    if eqb bias 1 then
      for_loop 0 nl
        (fun i m => upd m (crd + i)%Z (xbeg + of_int (istart_ + i) * avgSz)) mem
    else
      let begSz := 2 * avgSz / (1 + bias) in
      let endSz := bias * begSz in
      let dx := (endSz - begSz) / of_int (M - 1) in
      let sum0 := for_loop 0 istart_ (fun i sum => (sum + i)%Z) 0%Z in
      snd (for_loop 0 nl
             (fun i '(sum, m) =>
                ((sum + (istart_ + i))%Z,
                 upd m (crd + i)%Z
                   (xbeg + of_int (istart_ + i) * begSz + of_int sum * dx)))
             (sum0, mem))
  in
  (* override last node coordinate *)
  if Z.eqb (istart_ + nl) N then upd mem1 (crd + (nl - 1))%Z xclose else mem1.

(** One cell of the loop over the central points: the velocities on the
    six faces of the cell and its three widths give the stored
    [svCell->dxx], [dyy], [dzz]. *)
Definition eff_cell_d (vx_hi vx_lo vy_hi vy_lo vz_hi vz_lo dx dy dz : float)
  : float * float * float :=
  (* compute velocity gradients *)
  let xx := (vx_hi - vx_lo) / dx in
  let yy := (vy_hi - vy_lo) / dy in
  let zz := (vz_hi - vz_lo) / dz in
  (* compute & store volumetric strain rate *)
  let theta := xx + yy + zz in
  (* compute & store total deviatoric strain rates *)
  let tr := theta / 3 in
  let xx := xx - tr in
  let yy := yy - tr in
  let zz := zz - tr in
  (xx, yy, zz).

(** [dxx + dyy + dzz], summed from the left as C does *)
Definition trace (d : float * float * float) : float :=
  let '(xx, yy, zz) := d in xx + yy + zz.

End Binary64.

(** ** Part II: the vocabulary of the properties *)

(** *** MeshSeg1D: the coordinates of a segment *)

(** [0 + 1 + ... + (n-1)] *)
Definition tri (n : Z) : Z := (n * (n - 1) / 2)%Z.

Section SegmentNodes.
Variable ms : MeshSeg1D.
Variable iseg : Z.

Let M := (istart ms (iseg + 1) - istart ms iseg)%Z.
Let xbeg := xstart ms iseg.
Let xclose := xstart ms (iseg + 1).
Let bias := biases ms iseg.
Let avgSz := (xclose - xbeg) / IZR M.
Let begSz := 2 * avgSz / (1 + bias).
Let endSz := bias * begSz.
Let dx := (endSz - begSz) / IZR (M - 1).

(** the coordinate of node [n] of the segment by the progression *)
Definition seg_formula (n : Z) : R :=
  if Req_dec_T bias 1 then xbeg + IZR n * avgSz
  else xbeg + IZR n * begSz + IZR (tri n) * dx.

(** the coordinate of node [n] of the segment: the declared end
    coordinate at the last node, the progression before *)
Definition seg_node (n : Z) : R :=
  if Z.eqb n M then xclose else seg_formula n.

End SegmentNodes.

(** *** The standard triple loop *)

(** the box of a triple loop and the running number of its points *)
Definition in_box (r : Z * Z * Z * Z * Z * Z) (k j i : Z) : Prop :=
  let '(sx, sy, sz, nx, ny, nz) := r in
  (sz <= k < sz + nz /\ sy <= j < sy + ny /\ sx <= i < sx + nx)%Z.

Definition lin (r : Z * Z * Z * Z * Z * Z) (k j i : Z) : Z :=
  let '(sx, sy, sz, nx, ny, nz) := r in
  (((k - sz) * ny + (j - sy)) * nx + (i - sx))%Z.

(** *** C7: the stored deviatoric strain rates are trace free *)

(** the index of a cell in [svCell]: the running number in the cell loop *)
Definition cell_index (f : FDSTAG) (k j i : Z) : Z := lin (cen_range f) k j i.

(** a cell of the local grid *)
Definition is_cell (f : FDSTAG) (k j i : Z) : Prop := in_box (cen_range f) k j i.

(** the velocity gradients of [JacResGetEffStrainRate] at a cell *)
Definition grad_xx (jr : JacRes) (k j i : Z) : R :=
  ((lvx jr)@[k, j, i+1] - (lvx jr)@[k, j, i])
  / SIZE_CELL i (pstart (dsx (fs jr))) (dsx (fs jr)).
Definition grad_yy (jr : JacRes) (k j i : Z) : R :=
  ((lvy jr)@[k, j+1, i] - (lvy jr)@[k, j, i])
  / SIZE_CELL j (pstart (dsy (fs jr))) (dsy (fs jr)).
Definition grad_zz (jr : JacRes) (k j i : Z) : R :=
  ((lvz jr)@[k+1, j, i] - (lvz jr)@[k, j, i])
  / SIZE_CELL k (pstart (dsz (fs jr))) (dsz (fs jr)).

(** *** C3: single-point constraints in JacResCopySol and JacResCopyRes *)

(** a constraint is the last word on its position when every later
    constraint of the list on the same position prescribes the same value *)
Definition last_word (num : Z) (list_ : Z -> Z) (vals : Z -> R) (n : Z) : Prop :=
  forall n', (n < n' < num)%Z -> list_ n' = list_ n -> vals n' = vals n.

(** the entry [d] of the coupled vector, read from the arrays it was split
    into (X faces, Y faces, Z faces, centers) *)
Definition coupled_entry (g : FDSTAG) (vx vy vz p : Z -> R) (d : Z) : R :=
  if Z.ltb d (nXFace g) then vx d
  else if Z.ltb d (nXFace g + nYFace g) then vy (d - nXFace g)%Z
  else if Z.ltb d (nXFace g + nYFace g + nZFace g)
       then vz (d - nXFace g - nYFace g)%Z
       else p (d - nXFace g - nYFace g - nZFace g)%Z.

Definition coupled_size (g : FDSTAG) : Z :=
  (nXFace g + nYFace g + nZFace g + nCells g)%Z.

(** the global solution arrays after [JacResCopySol], read at entry [d] *)
Definition solution_entry (jr : JacRes) (d : Z) : R :=
  let g := fs jr in
  coupled_entry g (VecGetArray (DA_X g) (gvx jr)) (VecGetArray (DA_Y g) (gvy jr))
    (VecGetArray (DA_Z g) (gvz jr)) (VecGetArray (DA_CEN g) (gp jr)) d.

(** *** C8: stretching the grid *)

(** the three mesh steps of an axis *)
Definition steps (ds : Discret1D) : R * R * R := (h_uni ds, h_min ds, h_max ds).

(** the local extreme cell sizes, as the loop of
    [Discret1DGetMinMaxCellSize] finds them *)
Definition local_minmax (ds : Discret1D) : R * R :=
  for_loop 1 (ncels ds)
    (fun i '(mn, mx) =>
       let sz := SIZE_CELL i 0 ds in
       let mn := if Rlt_dec sz mn then sz else mn in
       let mx := if Rgt_dec sz mx then sz else mx in
       (mn, mx))
    (SIZE_CELL 0 0 ds, SIZE_CELL 0 0 ds).

Definition global_minmax (peers : list (R * R)) (ds : Discret1D) : R * R :=
  if Z.eqb (nproc ds) 1 then local_minmax ds
  else (Allreduce_MIN (map fst peers) (fst (local_minmax ds)),
        Allreduce_MAX (map snd peers) (snd (local_minmax ds))).

(** the extreme sizes that the other processes of the column report after
    they stretched their part of the axis by the same factor *)
Definition scale_peers (s : R) (peers : list (R * R)) : list (R * R) :=
  map (fun p => (fst p * s, snd p * s)) peers.

(** what [Discret1DStretch] does to one axis *)
Definition axis_stretched (ds : Discret1D) (ms : MeshSeg1D) (eps : R)
    (ds' : Discret1D) (ms' : MeshSeg1D) : Prop :=
  (* every segment breakpoint is scaled *)
  (forall i, (0 <= i <= nsegs ms)%Z -> xstart ms' i = xstart ms i * (1 - eps)) /\
  (* every node coordinate of the buffer, ghosts included, is scaled *)
  (forall i, (0 <= i < bufsz ds)%Z -> nbuff ds' i = nbuff ds i * (1 - eps)) /\
  (* every cell center, ghosts included, is the midpoint of its nodes *)
  (forall i, (-1 <= i <= ncels ds)%Z ->
     ccoor ds' i = (ncoor ds' i + ncoor ds' (i + 1)) / 2) /\
  (* the layout of the axis is kept *)
  (nsegs ms' = nsegs ms /\ istart ms' = istart ms /\ biases ms' = biases ms /\
   nproc ds' = nproc ds /\ pstart ds' = pstart ds /\
   nnods ds' = nnods ds /\ ncels ds' = ncels ds /\ bufsz ds' = bufsz ds) /\
  (* the mesh steps are the cell-size statistics of the scaled mesh *)
  (forall peers,
     0 < 1 - eps -> (0 <= nsegs ms)%Z ->
     (1 <= ncels ds)%Z -> (ncels ds + 2 <= bufsz ds)%Z ->
     steps ds = steps (Discret1DGetMinMaxCellSize peers ds ms) ->
     steps ds' =
     steps (Discret1DGetMinMaxCellSize (scale_peers (1 - eps) peers) ds' ms')).

(** an axis after [FDSTAGStretch]: untouched at rate zero, stretched by
    [E*dt] otherwise *)
Definition axis_after (ds : Discret1D) (ms : MeshSeg1D) (E dt : R)
    (ds' : Discret1D) (ms' : MeshSeg1D) : Prop :=
  (E = 0 -> ds' = ds /\ ms' = ms) /\
  (E <> 0 -> axis_stretched ds ms (E * dt) ds' ms').

(** *** C4: the Courant step *)

(** Two readings of the claim's upwind cell at a velocity point with the
    local index [l] along the axis: the cell the flow comes from, and the
    cell the flow enters (the one the code selects). *)
Definition cell_behind (v : R) (l : Z) : Z :=
  if Rge_dec v 0 then (l - 1)%Z else l.
Definition cell_ahead (v : R) (l : Z) : Z :=
  if Rge_dec v 0 then l else (l - 1)%Z.

(** The claim's words for the largest inverse step of one axis: over every
    owned velocity point [|v|/h], with [h] the width of the cell that [pick]
    selects along this axis ([axis] is 0, 1, 2 for x, y, z) when the spacing
    varies, and the uniform step otherwise. *)
Definition claimed_axis_max (pick : R -> Z -> Z) (ds : Discret1D) (da : DM)
    (gv : arr3) (axis : Z) (m0 : R) : R :=
  if Rlt_dec (h_uni ds) 0 then
    std_loop (da_sx da) (da_sy da) (da_sz da) (da_nx da) (da_ny da) (da_nz da)
      (fun k j i m =>
         let v := gv@[k, j, i] in
         let l := if Z.eqb axis 0 then (i - da_sx da)%Z
                  else if Z.eqb axis 1 then (j - da_sy da)%Z
                  else (k - da_sz da)%Z in
         let idx := pick v l in
         let h := ncoor ds (idx + 1) - ncoor ds idx in
         Rmax m (Rabs v / h))
      m0
  else
    Rmax m0
      (for_loop 0 (VecGetLocalSize da)
         (fun jj m => Rmax m (Rabs (VecGetArray da gv jj))) 0 / h_uni ds).

(** the claim's words for the new time step *)
Definition claimed_courant_dt (pick : R -> Z -> Z) (jr : JacRes) : R :=
  let f := fs jr in
  let idtmax :=
    claimed_axis_max pick (dsz f) (DA_Z f) (gvz jr) 2
      (claimed_axis_max pick (dsy f) (DA_Y f) (gvy jr) 1
         (claimed_axis_max pick (dsx f) (DA_X f) (gvx jr) 0 0)) in
  Rmin (1.1 * ts_dt (ts jr)) (Rmin (Cmax (ts jr) / idtmax) (dtmax (ts jr))).

(** *** C6: the coordinates of a distributed axis *)

(** the coordinate of the global node [g]: it belongs to the first segment
    that reaches it *)
Fixpoint node_from (left : nat) (ms : MeshSeg1D) (i g : Z) : R :=
  match left with
  | O => 0
  | S left' =>
      if Z.leb g (istart ms (i + 1))
      then seg_node ms i (g - istart ms i)
      else node_from left' ms (i + 1) g
  end.

Definition node_coord (ms : MeshSeg1D) (g : Z) : R :=
  node_from (Z.to_nat (nsegs ms)) ms 0 g.

(** every segment holds at least one cell *)
Definition segments_ok (ms : MeshSeg1D) : Prop :=
  (1 <= nsegs ms)%Z /\ istart ms 0 = 0%Z /\
  forall i, (0 <= i < nsegs ms)%Z -> (istart ms i < istart ms (i + 1))%Z.

(** the range of local node indices that [Discret1DGenCoord] generates:
    the own nodes, one ghost before them when there is a previous process
    and two ghosts after them when there is a next one *)
Definition gen_lo (ds : Discret1D) : Z :=
  if Z.eqb (grprev ds) (-1) then 0%Z else (-1)%Z.
Definition gen_hi (ds : Discret1D) : Z :=
  if Z.eqb (grnext ds) (-1) then nnods ds else (nnods ds + 2)%Z.

(** the divisions of [MeshSeg1DGenCoord] are defined on every segment: a
    segment with a bias other than 1 holds two cells or more, and its bias
    is not -1 *)
Definition biases_ok (ms : MeshSeg1D) : Prop :=
  forall i, (0 <= i < nsegs ms)%Z ->
    biases ms i = 1 \/
    ((2 <= istart ms (i + 1) - istart ms i)%Z /\ 1 + biases ms i <> 0).

(** the first node that the process generates, own or ghost, does not
    directly follow the last node of a segment *)
Definition starts_clear (ds : Discret1D) (ms : MeshSeg1D) : Prop :=
  forall i, (0 <= i < nsegs ms)%Z ->
    (pstart ds + gen_lo ds)%Z <> (istart ms (i + 1) + 1)%Z.

(** what [Discret1DGenCoord] needs to have a result: the node buffer holds
    the nodes it touches, generated ones included, no division is by zero,
    and the segment loop makes no empty call *)
Definition generation_defined (ds : Discret1D) (ms : MeshSeg1D) : Prop :=
  nodes_inside ds = true /\ (gen_hi ds <= bufsz ds - 1)%Z /\
  biases_ok ms /\ starts_clear ds ms.

(** *** C1: the continuity residual *)



(** *** Further properties: the Courant step *)

(** the largest absolute value among the owned entries of a vector *)
Definition max_abs (da : DM) (gv : arr3) : R :=
  for_loop 0 (VecGetLocalSize da)
    (fun jj m => Rmax m (Rabs (VecGetArray da gv jj))) 0.

(** What a scan by [getMaxInvStep1DLocal] needs so that it divides by a
    cell that is there.  On an axis of variable spacing the cell looked up
    for a point is the cell of the local x index of the point (the scan is
    called with the direction 0 for the three axes) or the cell before it:
    these cells have to lie in the node buffer and to have a positive
    width.  On a uniform axis the step has to be positive. *)
Definition scan_defined (ds : Discret1D) (da : DM) : Prop :=
  (h_uni ds < 0 ->
   forall idx, (-1 <= idx < da_nx da)%Z ->
     (idx + 1 <= bufsz ds - 2)%Z /\ 0 < ncoor ds (idx + 1) - ncoor ds idx) /\
  (~ h_uni ds < 0 -> 0 < h_uni ds).

(** the largest inverse step of a grid that is uniform along its three axes *)
Definition uniform_idtmax (jr : JacRes) : R :=
  let f := fs jr in
  Rmax (Rmax (Rmax 0 (max_abs (DA_X f) (gvx jr) / h_uni (dsx f)))
             (max_abs (DA_Y f) (gvy jr) / h_uni (dsy f)))
       (max_abs (DA_Z f) (gvz jr) / h_uni (dsz f)).

(** *** Further properties: segments and the decomposition of an axis *)

Fixpoint sum_n (f : Z -> Z) (n : nat) : Z :=
  match n with
  | O => 0%Z
  | S n' => (sum_n f n' + f (Z.of_nat n'))%Z
  end.

(** [f 0 + f 1 + ... + f (i-1)] *)
Definition sum_below (f : Z -> Z) (i : Z) : Z := sum_n f (Z.to_nat i).

(** *** Further properties: the box of the grid *)

(** the volume of a box whose six values are all there *)
Definition box_volume (b : Box) : option R :=
  match box_bx b, box_by b, box_bz b, box_ex b, box_ey b, box_ez b with
  | Some x0, Some y0, Some z0, Some x1, Some y1, Some z1 =>
      Some ((x1 - x0) * (y1 - y0) * (z1 - z0))
  | _, _, _, _, _, _ => None
  end.

(** a value behind a pointer, multiplied by [s] *)
Definition scaled (s : R) (v : option R) : option R :=
  option_map (fun x => x * s) v.

(** an axis that [Discret1DGenCoord] can fill: every segment holds a cell,
    the generation is defined, the own and the ghost nodes of the process
    lie inside the axis, and the node that closes the last local cell is
    among them *)
Definition axis_fits (ds : Discret1D) (ms : MeshSeg1D) : Prop :=
  segments_ok ms /\ generation_defined ds ms /\
  (0 <= pstart ds + gen_lo ds)%Z /\
  (pstart ds + gen_hi ds <= istart ms (nsegs ms) + 1)%Z /\
  (0 <= ncels ds < gen_hi ds)%Z.

(** *** Further properties: the numbering of the unknowns *)

(** a point that the process owns in a distributed array *)
Definition owned (da : DM) (k j i : Z) : Prop :=
  in_box (DMDAGetCorners da) k j i.

(** What is asked of the exchange of ghost values: it leaves the owned
    entries as they are. *)
Definition keeps_owned `{PetscLib} : Prop :=
  forall da a k j i, owned da k j i ->
    (LOCAL_TO_LOCAL da a)@[k, j, i] = a@[k, j, i].

(** the owned widths of a distributed array are not negative *)
Definition sized (da : DM) : Prop :=
  (0 <= da_nx da)%Z /\ (0 <= da_ny da)%Z /\ (0 <= da_nz da)%Z.

(** *** Further properties: the aspect ratio of the cells *)

(** the three widths of a local cell *)
Definition cell_dx (f : FDSTAG) (i : Z) : R := SIZE_CELL i (pstart (dsx f)) (dsx f).
Definition cell_dy (f : FDSTAG) (j : Z) : R := SIZE_CELL j (pstart (dsy f)) (dsy f).
Definition cell_dz (f : FDSTAG) (k : Z) : R := SIZE_CELL k (pstart (dsz f)) (dsz f).

(** no width of the cell is more than [a] times another one *)
Definition within_ratio (a : R) (f : FDSTAG) (k j i : Z) : Prop :=
  let dx := cell_dx f i in
  let dy := cell_dy f j in
  let dz := cell_dz f k in
  dx <= a * dy /\ dy <= a * dx /\ dx <= a * dz /\ dz <= a * dx /\
  dy <= a * dz /\ dz <= a * dy.

Definition positive_cell (f : FDSTAG) (k j i : Z) : Prop :=
  0 < cell_dx f i /\ 0 < cell_dy f j /\ 0 < cell_dz f k.

(** *** Further properties: the pressure shift *)

(** [v lo + v (lo+1) + ... + v (lo+n-1)], summed from the left *)
Fixpoint sum_R (v : Z -> R) (lo : Z) (n : nat) : R :=
  match n with
  | O => 0
  | S n' => sum_R v lo n' + v (lo + Z.of_nat n')%Z
  end.

(** the sum of an array over the cells that the process owns in the layer
    [k] *)
Definition layer_sum (da : DM) (p : arr3) (k : Z) : R :=
  sum_R (fun j => sum_R (fun i => p@[k, j, i]) (da_sx da) (Z.to_nat (da_nx da)))
        (da_sy da) (Z.to_nat (da_ny da)).

(** what the process adds to the pressure of the top layer: the sum over
    its cells of that layer, when it owns some *)
Definition own_top_sum (jr : JacRes) : R :=
  let da := DA_CEN (fs jr) in
  let mcz := (tcels (dsz (fs jr)) - 1)%Z in
  if (Z.leb (da_sz da) mcz && Z.ltb mcz (da_sz da + da_nz da))%bool
  then layer_sum da (gp jr) mcz else 0.

(** *** Further properties: a velocity field that is linear in space *)

(** the coordinates of the staggered points with the global indices
    [i], [j], [k]: nodes and cell centers along the three axes *)
Definition xn (f : FDSTAG) (i : Z) : R := ncoor (dsx f) (i - pstart (dsx f)).
Definition yn (f : FDSTAG) (j : Z) : R := ncoor (dsy f) (j - pstart (dsy f)).
Definition zn (f : FDSTAG) (k : Z) : R := ncoor (dsz f) (k - pstart (dsz f)).
Definition xc (f : FDSTAG) (i : Z) : R := ccoor (dsx f) (i - pstart (dsx f)).
Definition yc (f : FDSTAG) (j : Z) : R := ccoor (dsy f) (j - pstart (dsy f)).
Definition zc (f : FDSTAG) (k : Z) : R := ccoor (dsz f) (k - pstart (dsz f)).

(** a constant velocity gradient and the velocity at the origin *)
Record Gradient := {
  Gxx : R; Gxy : R; Gxz : R;
  Gyx : R; Gyy : R; Gyz : R;
  Gzx : R; Gzy : R; Gzz : R;
  v0x : R; v0y : R; v0z : R
}.

(** the local velocity arrays hold [v0 + G x] at the points they live on:
    vx on the x faces, vy on the y faces, vz on the z faces *)
Definition linear_velocity (G : Gradient) (jr : JacRes) : Prop :=
  let f := fs jr in
  (forall k j i, (lvx jr)@[k, j, i] =
     v0x G + Gxx G * xn f i + Gxy G * yc f j + Gxz G * zc f k) /\
  (forall k j i, (lvy jr)@[k, j, i] =
     v0y G + Gyx G * xc f i + Gyy G * yn f j + Gyz G * zc f k) /\
  (forall k j i, (lvz jr)@[k, j, i] =
     v0z G + Gzx G * xc f i + Gzy G * yc f j + Gzz G * zn f k).

(** the distance of two neighbouring cell centers, behind the node with the
    global index [i] *)
Definition node_dx (f : FDSTAG) (i : Z) : R := SIZE_NODE i (pstart (dsx f)) (dsx f).
Definition node_dy (f : FDSTAG) (j : Z) : R := SIZE_NODE j (pstart (dsy f)) (dsy f).
Definition node_dz (f : FDSTAG) (k : Z) : R := SIZE_NODE k (pstart (dsz f)) (dsz f).

(** *** Further properties: the residual vector read back *)

(** the global residual arrays of the object, read at the entry [d] of the
    coupled vector *)
Definition residual_entry (jr : JacRes) (d : Z) : R :=
  let g := fs jr in
  coupled_entry g (VecGetArray (DA_X g) (gfx jr)) (VecGetArray (DA_Y g) (gfy jr))
    (VecGetArray (DA_Z g) (gfz jr)) (VecGetArray (DA_CEN g) (gc jr)) d.

(** no single-point constraint names the entry [d] *)
Definition unconstrained (b : BCCtx) (d : Z) : Prop :=
  (forall n, (0 <= n < vNumSPC b)%Z -> vSPCList b n <> d) /\
  (forall m, (0 <= m < pNumSPC b)%Z -> pSPCList b m <> d).

(** ** Part III: example inputs *)

(** a biased segment of four cells on [0, 1] *)
Definition ms_biased : MeshSeg1D :=
  {| nsegs := 1;
     istart := upd zeroInt 1 4%Z;
     xstart := upd zeroScal 1 1;
     biases := upd zeroScal 0 3 |}.

(** A sequential grid for the examples: along x three nodes at 0, 1, 3
    (cells of width 1 and 2, spacing not uniform), along y and z one cell
    of width 1. *)
Definition ds_line : Discret1D :=
  {| nproc := 1; rank := 0; starts := upd zeroInt 1 2%Z;
     pstart := 0; tnods := 3; tcels := 2; nnods := 3; ncels := 2; bufsz := 5;
     ncoor := upd (upd (upd (upd zeroScal (-1) (-1)) 1 1) 2 3) 3 5;
     ccoor := upd (upd (upd (upd zeroScal (-1) (-0.5)) 0 0.5) 1 2) 2 4;
     color := 0; grprev := (-1); grnext := (-1);
     h_uni := -1; h_min := 1; h_max := 2 |}.

Definition ds_unit : Discret1D :=
  {| nproc := 1; rank := 0; starts := upd zeroInt 1 1%Z;
     pstart := 0; tnods := 2; tcels := 1; nnods := 2; ncels := 1; bufsz := 4;
     ncoor := upd (upd (upd zeroScal (-1) (-1)) 1 1) 2 2;
     ccoor := upd (upd (upd zeroScal (-1) (-0.5)) 0 0.5) 1 1.5;
     color := 0; grprev := (-1); grnext := (-1);
     h_uni := 1; h_min := 1; h_max := 1 |}.

Definition ms_line : MeshSeg1D :=
  {| nsegs := 2;
     istart := upd (upd zeroInt 1 1%Z) 2 2%Z;
     xstart := upd (upd zeroScal 1 1) 2 3;
     biases := upd (upd zeroScal 0 1) 1 1 |}.

Definition ms_unit : MeshSeg1D :=
  {| nsegs := 1; istart := upd zeroInt 1 1%Z;
     xstart := upd zeroScal 1 1; biases := upd zeroScal 0 1 |}.

Definition da_box (nx ny nz : Z) : DM :=
  {| da_m := 1; da_n := 1; da_p := 1;
     da_lx := upd zeroInt 0 nx; da_ly := upd zeroInt 0 ny;
     da_lz := upd zeroInt 0 nz;
     da_rx := 0; da_ry := 0; da_rz := 0;
     da_sx := 0; da_sy := 0; da_sz := 0;
     da_nx := nx; da_ny := ny; da_nz := nz |}.

Definition dof_none : DOFIndex :=
  {| idxmod := IDXNONE; lnv := 17; lnp := 2; ln := 19;
     stv := 0; stp := 0; st := 0;
     ivx := zero3; ivy := zero3; ivz := zero3; ip := zero3 |}.

Definition fs_line : FDSTAG :=
  {| DA_CEN := da_box 2 1 1; DA_COR := da_box 3 2 2;
     DA_XY := da_box 3 2 1; DA_XZ := da_box 3 1 2; DA_YZ := da_box 2 2 2;
     DA_X := da_box 3 1 1; DA_Y := da_box 2 2 1; DA_Z := da_box 2 1 2;
     dsx := ds_line; dsy := ds_unit; dsz := ds_unit;
     msx := ms_line; msy := ms_unit; msz := ms_unit;
     nCells := 2; nCorns := 12;
     nXYEdg := 6; nXZEdg := 6; nYZEdg := 8;
     nXFace := 3; nYFace := 4; nZFace := 4;
     dof := dof_none; neighb := zeroInt |}.

Definition dev_zero : Dev.t := {| Dev.DII := 0; Dev.I2Gdt := 0; Dev.more := [] |}.

Definition bulk_zero : Bulk.t :=
  {| Bulk.theta := 0; Bulk.rho := 0; Bulk.IKdt := 0; Bulk.alpha := 0;
     Bulk.pn := 0; Bulk.Tn := 0; Bulk.more := [] |}.

Definition cell_zero : Cell.t :=
  {| Cell.svDev := dev_zero; Cell.svBulk := bulk_zero;
     Cell.sxx := 0; Cell.syy := 0; Cell.szz := 0;
     Cell.hxx := 0; Cell.hyy := 0; Cell.hzz := 0;
     Cell.dxx := 0; Cell.dyy := 0; Cell.dzz := 0;
     Cell.eta_creep := 0; Cell.phRat := zeroScal; Cell.more := [] |}.

Definition edge_zero : Edge.t :=
  {| Edge.svDev := dev_zero; Edge.s := 0; Edge.h := 0; Edge.d := 0;
     Edge.phRat := zeroScal; Edge.more := [] |}.

Definition lim_demo : MatParLim :=
  {| eta_min := 0; eta_max := 1; eta_ref := 1; TRef := 0; Rugc := 8.3144621;
     eta_atol := 0; eta_rtol := 1e-8; DII_atol := 0; DII_rtol := 1e-8;
     DII_ref := 1; minCh := 0; minFr := 0; tauUlt := 1; shearHeatEff := 1;
     quasiHarmAvg := false; initGuessFlg := true |}.

(** an object on [fs_line] with the given constraints, x velocity (global
    and local), pressure and temperature; previous step 10, Courant number
    1, ceiling 100, everything else cleared *)
Definition jr_line (b : BCCtx) (vx p T : arr3) : JacRes :=
  {| fs := fs_line; bc := b;
     ts := {| ts_dt := 10; ts_pdt := 10; Cmax := 1; dtmax := 100;
              ts_time := 0; istep := 0 |};
     numPhases := 1; phases := fun _ => []; matLim := lim_demo;
     FSSA := 0; grav := zeroScal; pShift := 0; pShiftAct := false;
     svCell := fun _ => cell_zero;
     svXYEdge := fun _ => edge_zero; svXZEdge := fun _ => edge_zero;
     svYZEdge := fun _ => edge_zero;
     gvx := vx; gvy := zero3; gvz := zero3; gp := p;
     lvx := vx; lvy := zero3; lvz := zero3; lp := p; lT := T;
     ldxx := zero3; ldyy := zero3; ldzz := zero3;
     ldxy := zero3; ldxz := zero3; ldyz := zero3;
     gc := zero3;
     lfx := zero3; lfy := zero3; lfz := zero3;
     gfx := zero3; gfy := zero3; gfz := zero3 |}.

Definition bc_none : BCCtx :=
  {| vNumSPC := 0; vSPCList := zeroInt; vSPCVals := zeroScal;
     pNumSPC := 0; pSPCList := zeroInt; pSPCVals := zeroScal;
     bcvx := zero3; bcvy := zero3; bcvz := zero3; bcp := zero3 |}.

(** x velocity -4 at node 0 (the flow leaves through the first node, with
    a cell of width 1 on either side of it) and 1 at node 1, 0 at node 2 *)
Definition vx_backward : arr3 :=
  set3 (set3 zero3 0 0 0 (-4)) 0 0 1 1.

Definition jr_backward : JacRes := jr_line bc_none vx_backward zero3 zero3.

(** a sequential run: PETSc gives the whole box to the one process and the
    exchanges of ghost values have nothing to bring *)
Definition petsc_sequential : PetscLib :=
  {| DMDACreate3d := fun _ _ _ M N P _ _ _ _ _ _ _ _ => Ok (da_box M N P);
     MPI_Scan_SUM := fun x => x;
     getGlobalRank := fun i j k m n p =>
       if (Z.leb 0 i && Z.ltb i m && Z.leb 0 j && Z.ltb j n
           && Z.leb 0 k && Z.ltb k p)%bool
       then (i + j * m + k * m * n)%Z else (-1)%Z;
     LOCAL_TO_LOCAL := fun _ a => a;
     GLOBAL_TO_LOCAL := fun _ g _ => g;
     LOCAL_TO_GLOBAL := fun _ l _ => l |}.

(** a linear material: unit creep viscosity, stresses left as they are,
    constant density 1, compressibility 2 and expansion 3 *)
Definition linear_material : ConstEq :=
  {| DevConstEq := fun dev _ _ _ _ _ _ _ => Ok (dev, 1);
     VolConstEq := fun b _ _ _ _ _ _ _ =>
       Ok {| Bulk.theta := Bulk.theta b; Bulk.rho := 1; Bulk.IKdt := 2;
             Bulk.alpha := 3; Bulk.pn := Bulk.pn b; Bulk.Tn := Bulk.Tn b;
             Bulk.more := Bulk.more b |};
     GetStressCell := fun c _ _ _ _ => Ok c;
     GetStressEdge := fun e _ _ => Ok e |}.

(** ghost ranges equal to the own ranges and constraints that write the
    primary value: enough for a run without boundary conditions *)
Definition plain_macros : BCMacros :=
  {| GET_NODE_RANGE_GHOST_INT := GET_NODE_RANGE;
     GET_CELL_RANGE_GHOST_INT := GET_CELL_RANGE;
     SET_TPC := fun _ a k j i pmdof => set3 a k j i pmdof;
     SET_EDGE_CORNER := fun a K_ J_ I_ _ _ _ pmdof => set3 a K_ J_ I_ pmdof |}.

Definition p_five : arr3 := fun _ _ _ => 5.
Definition T_seven : arr3 := fun _ _ _ => 7.

Definition jr_flow : JacRes := jr_line bc_none vx_backward p_five T_seven.

(** two velocity constraints on the entry 1 (the later one has the last
    word) and a pressure constraint on the entry 11, the first center *)
Definition bc_pins : BCCtx :=
  {| vNumSPC := 2; vSPCList := fun _ => 1%Z; vSPCVals := upd (upd zeroScal 0 8) 1 9;
     pNumSPC := 1; pSPCList := fun _ => 11%Z; pSPCVals := fun _ => 6;
     bcvx := zero3; bcvy := zero3; bcvz := zero3; bcp := zero3 |}.

Definition jr_pins : JacRes := jr_line bc_pins zero3 zero3 zero3.

Definition dir_x : list Byte.byte := [Byte.x78].

(** two segments of two cells on [0, 1], the second one biased, cut into
    two processes of two and three nodes; the second process *)
Definition msi_two : MeshSegInp :=
  {| msi_nsegs := 2; msi_delims := fun _ => 1 / 2;
     msi_ncells := fun _ => 2%Z; msi_biases := upd (fun _ => 1) 1 2 |}.

Definition nodes_two : Z -> Z := upd (fun _ => 2%Z) 1 3%Z.

(** *** Further examples *)

(** the unknowns of one cell: six faces and one center *)
Definition dof_cube : DOFIndex :=
  {| idxmod := IDXNONE; lnv := 6; lnp := 1; ln := 7;
     stv := 0; stp := 0; st := 0;
     ivx := zero3; ivy := zero3; ivz := zero3; ip := zero3 |}.

(** one cubic cell of width 1 on one process *)
Definition fs_cube : FDSTAG :=
  {| DA_CEN := da_box 1 1 1; DA_COR := da_box 2 2 2;
     DA_XY := da_box 2 2 1; DA_XZ := da_box 2 1 2; DA_YZ := da_box 1 2 2;
     DA_X := da_box 2 1 1; DA_Y := da_box 1 2 1; DA_Z := da_box 1 1 2;
     dsx := ds_unit; dsy := ds_unit; dsz := ds_unit;
     msx := ms_unit; msy := ms_unit; msz := ms_unit;
     nCells := 1; nCorns := 8;
     nXYEdg := 4; nXZEdg := 4; nYZEdg := 4;
     nXFace := 2; nYFace := 2; nZFace := 2;
     dof := dof_cube; neighb := zeroInt |}.

(** x velocity -3 at the first face of the cube, nothing else moves;
    previous step 10, Courant number 1/2, ceiling 100 *)
Definition jr_cube : JacRes :=
  {| fs := fs_cube; bc := bc_none;
     ts := {| ts_dt := 10; ts_pdt := 10; Cmax := 1 / 2; dtmax := 100;
              ts_time := 0; istep := 0 |};
     numPhases := 1; phases := fun _ => []; matLim := lim_demo;
     FSSA := 0; grav := zeroScal; pShift := 0; pShiftAct := true;
     svCell := fun _ => cell_zero;
     svXYEdge := fun _ => edge_zero; svXZEdge := fun _ => edge_zero;
     svYZEdge := fun _ => edge_zero;
     gvx := set3 zero3 0 0 0 (-3); gvy := zero3; gvz := zero3;
     gp := fun _ _ _ => 4;
     lvx := set3 zero3 0 0 0 (-3); lvy := zero3; lvz := zero3;
     lp := fun _ _ _ => 4; lT := zero3;
     ldxx := zero3; ldyy := zero3; ldzz := zero3;
     ldxy := zero3; ldxz := zero3; ldyz := zero3;
     gc := zero3;
     lfx := zero3; lfy := zero3; lfz := zero3;
     gfx := zero3; gfy := zero3; gfz := zero3 |}.

(** rank zero of a column of two processes with 2 and 3 nodes, holding the
    coordinates 0 and 1 of its own nodes *)
Definition ds_root : Discret1D :=
  set_coor (Discret1DCreate ds_unit 2 0 nodes_two 0 (-1) 1) IZR zeroScal.

(** what the other rank passes: the coordinates 2, 3, 4 of its nodes *)
Definition column_two : Z -> Z -> R := fun _ l => IZR (2 + l).

(** no segments given: the default axis *)
Definition msi_default : MeshSegInp :=
  {| msi_nsegs := 0; msi_delims := zeroScal; msi_ncells := zeroInt;
     msi_biases := zeroScal |}.

(** a caller that asks for the six values of a box *)
Definition box_all : Box :=
  {| box_bx := Some 0; box_by := Some 0; box_bz := Some 0;
     box_ex := Some 0; box_ey := Some 0; box_ez := Some 0 |}.

(** a domain of one cell, 2 wide, 3 long and 4 high, with its corner at the
    origin and the default axes *)
Definition usr_cell : Usr.t :=
  {| Usr.x_left := 0; Usr.y_front := 0; Usr.z_bot := 0;
     Usr.W := 2; Usr.L := 3; Usr.H := 4;
     Usr.nel_x := 1; Usr.nel_y := 1; Usr.nel_z := 1;
     Usr.mseg_x := msi_default; Usr.mseg_y := msi_default;
     Usr.mseg_z := msi_default |}.

(** a rigid rotation of the cube about the z axis at the rate 1:
    vx = -y on the x faces, vy = x on the y faces *)
Definition G_spin : Gradient :=
  {| Gxx := 0; Gxy := -1; Gxz := 0;
     Gyx := 1; Gyy := 0; Gyz := 0;
     Gzx := 0; Gzy := 0; Gzz := 0;
     v0x := 0; v0y := 0; v0z := 0 |}.

Definition jr_spin : JacRes :=
  {| fs := fs_cube; bc := bc_none;
     ts := {| ts_dt := 10; ts_pdt := 10; Cmax := 1 / 2; dtmax := 100;
              ts_time := 0; istep := 0 |};
     numPhases := 1; phases := fun _ => []; matLim := lim_demo;
     FSSA := 0; grav := zeroScal; pShift := 0; pShiftAct := false;
     svCell := fun _ => cell_zero;
     svXYEdge := fun _ => edge_zero; svXZEdge := fun _ => edge_zero;
     svYZEdge := fun _ => edge_zero;
     gvx := zero3; gvy := zero3; gvz := zero3; gp := zero3;
     lvx := fun _ j _ => - yc fs_cube j; lvy := fun _ _ i => xc fs_cube i;
     lvz := zero3;
     lp := zero3; lT := zero3;
     ldxx := zero3; ldyy := zero3; ldzz := zero3;
     ldxy := zero3; ldxz := zero3; ldyz := zero3;
     gc := zero3;
     lfx := zero3; lfy := zero3; lfz := zero3;
     gfx := zero3; gfy := zero3; gfz := zero3 |}.

(** the cube with the momentum residual 5 on every face and the continuity
    residual 7 in the cell, no constraints *)
Definition jr_res : JacRes := set_res jr_cube p_five p_five p_five T_seven.

(** *** Inputs at the edge of the arithmetic *)




(** an axis of four cells on [0, 4] in two segments: one cell with the
    bias 2, then three cells without bias; the input, and the segment table
    over the binary64 numbers *)
Definition msi_short : MeshSegInp :=
  {| msi_nsegs := 2; msi_delims := fun _ => 1;
     msi_ncells := upd (fun _ => 3%Z) 0 1%Z;
     msi_biases := upd (fun _ => 1) 0 2 |}.

Definition ms_short64 : Binary64.MeshSeg1D :=
  {| Binary64.nsegs := 2;
     Binary64.istart := upd (upd zeroInt 1 1%Z) 2 4%Z;
     Binary64.xstart :=
       fun i => Binary64.of_int (upd (upd zeroInt 1 1%Z) 2 4%Z i);
     Binary64.biases := fun i => Binary64.of_int (if Z.eqb i 0 then 2 else 1) |}.

(** an axis of six cells on [0, 6] in two segments of one and five cells,
    cut into two processes of three and four nodes: the ghost node of the
    second process is the node 2, the one after the last node of the first
    segment *)
Definition msi_six : MeshSegInp :=
  {| msi_nsegs := 2; msi_delims := fun _ => 1;
     msi_ncells := upd (fun _ => 5%Z) 0 1%Z;
     msi_biases := fun _ => 1 |}.

Definition nodes_six : Z -> Z := upd (fun _ => 3%Z) 1 4%Z.

(** ** Part IV: properties *)

(** *** Loops *)

Lemma upd_same {A} (p : Z -> A) i v : upd p i v i = v.
Proof. unfold upd. now rewrite Z.eqb_refl. Qed.

Lemma upd_other {A} (p : Z -> A) i j v : j <> i -> upd p i v j = p j.
Proof. intros Hn. unfold upd. destruct (Z.eqb_spec j i); [contradiction | reflexivity]. Qed.

Lemma for_count_last {St} (body : Z -> St -> St) n : forall i s,
  for_count (S n) i body s = body (i + Z.of_nat n)%Z (for_count n i body s).
Proof.
  induction n as [|n IH]; intros i s.
  - simpl. now rewrite Z.add_0_r.
  - change (for_count (S (S n)) i body s)
      with (for_count (S n) (i + 1)%Z body (body i s)).
    rewrite IH. simpl for_count at 2. f_equal. lia.
Qed.

Lemma for_loop_empty {St} (body : Z -> St -> St) lo hi s :
  (hi <= lo)%Z -> for_loop lo hi body s = s.
Proof.
  intros Hle. unfold for_loop.
  replace (Z.to_nat (hi - lo)) with O by lia. reflexivity.
Qed.

Lemma for_loop_last {St} (body : Z -> St -> St) lo hi s :
  (lo <= hi)%Z ->
  for_loop lo (hi + 1) body s = body hi (for_loop lo hi body s).
Proof.
  intros Hle. unfold for_loop.
  replace (Z.to_nat (hi + 1 - lo)) with (S (Z.to_nat (hi - lo))) by lia.
  rewrite for_count_last. f_equal. lia.
Qed.

Lemma for_loop_ext {St} (f g : Z -> St -> St) lo hi s :
  (forall i t, f i t = g i t) -> for_loop lo hi f s = for_loop lo hi g s.
Proof.
  intros Hfg. unfold for_loop. generalize (Z.to_nat (hi - lo)) as n.
  intros n. revert lo s. induction n as [|n IH]; intros lo s; [reflexivity|].
  simpl. rewrite Hfg. apply IH.
Qed.

(** the invariant rule of a counted loop *)
Lemma for_loop_inv {St} (P : Z -> St -> Prop) (body : Z -> St -> St) lo hi s :
  (lo <= hi)%Z ->
  P lo s ->
  (forall i t, (lo <= i < hi)%Z -> P i t -> P (i + 1)%Z (body i t)) ->
  P hi (for_loop lo hi body s).
Proof.
  intros Hle H0 Hstep.
  assert (Hgen : forall n, (lo + Z.of_nat n <= hi)%Z ->
             P (lo + Z.of_nat n)%Z (for_loop lo (lo + Z.of_nat n) body s)).
  { induction n as [|n IH]; intros Hn.
    - rewrite Z.add_0_r, for_loop_empty by lia. exact H0.
    - replace (lo + Z.of_nat (S n))%Z with (lo + Z.of_nat n + 1)%Z by lia.
      rewrite for_loop_last by lia. apply Hstep; [lia | apply IH; lia]. }
  specialize (Hgen (Z.to_nat (hi - lo))).
  replace (lo + Z.of_nat (Z.to_nat (hi - lo)))%Z with hi in Hgen by lia.
  apply Hgen. lia.
Qed.

(** a loop that stores [f i] at [c + i] fills the block and nothing else *)
Lemma for_loop_fill (f : Z -> R) (c n : Z) (mem : Z -> R) :
  forall x,
    for_loop 0 n (fun i m => upd m (c + i) (f i)) mem x =
    if (Z.leb c x && Z.ltb x (c + n))%bool then f (x - c)%Z else mem x.
Proof.
  intros x. destruct (Z_le_gt_dec 0 n) as [Hn|Hn].
  - apply (for_loop_inv
      (fun hi m => m x = if (Z.leb c x && Z.ltb x (c + hi))%bool
                         then f (x - c)%Z else mem x)); [exact Hn | |].
    + destruct (Z.leb_spec c x), (Z.ltb_spec x (c + 0)); simpl; try reflexivity; lia.
    + intros i t Hi Ht.
      destruct (Z.eq_dec x (c + i)) as [->|Hne].
      * rewrite upd_same.
        destruct (Z.leb_spec c (c + i)), (Z.ltb_spec (c + i) (c + (i + 1)));
          simpl; try lia. f_equal. lia.
      * rewrite upd_other by exact Hne. rewrite Ht.
        destruct (Z.leb_spec c x), (Z.ltb_spec x (c + i)),
                 (Z.ltb_spec x (c + (i + 1))); simpl; try reflexivity; lia.
  - rewrite for_loop_empty by lia.
    destruct (Z.leb_spec c x), (Z.ltb_spec x (c + n)); simpl; try reflexivity; lia.
Qed.

(** *** MeshSeg1D: the coordinates of a segment *)

Lemma tri_succ n : tri (n + 1) = (tri n + n)%Z.
Proof.
  unfold tri.
  replace ((n + 1) * (n + 1 - 1))%Z with (n * (n - 1) + n * 2)%Z by ring.
  now rewrite Z.div_add by lia.
Qed.

Lemma tri_0 : tri 0 = 0%Z.
Proof. reflexivity. Qed.

Lemma IZR_tri n : (0 <= n)%Z -> 2 * IZR (tri n) = IZR n * (IZR n - 1).
Proof.
  intros Hn. pattern n. apply natlike_ind; [rewrite tri_0; lra | | exact Hn].
  intros x Hx IH. unfold Z.succ. rewrite tri_succ, !plus_IZR. simpl. lra.
Qed.

Lemma sum_loop_tri n :
  (0 <= n)%Z -> for_loop 0 n (fun i sum => (sum + i)%Z) 0%Z = tri n.
Proof.
  intros Hn.
  apply (for_loop_inv (fun hi s => s = tri hi)); [exact Hn | reflexivity |].
  intros i t _ ->. now rewrite tri_succ.
Qed.

(** the loop of the biased case, for any coefficients *)
Lemma biased_loop (x0 bsz dx : R) (ist nl crd : Z) (mem : Z -> R) :
  (0 <= ist)%Z ->
  forall x,
    snd (for_loop 0 nl
           (fun i '(sum, m) =>
              ((sum + (ist + i))%Z,
               upd m (crd + i) (x0 + IZR (ist + i) * bsz + IZR sum * dx)))
           (tri ist, mem)) x =
    if (Z.leb crd x && Z.ltb x (crd + nl))%bool
    then x0 + IZR (ist + (x - crd)) * bsz + IZR (tri (ist + (x - crd))) * dx
    else mem x.
Proof.
  intros Hist x.
  set (body := fun (i : Z) '(sum, m) =>
                 ((sum + (ist + i))%Z,
                  upd m (crd + i) (x0 + IZR (ist + i) * bsz + IZR sum * dx))).
  set (f := fun i => x0 + IZR (ist + i) * bsz + IZR (tri (ist + i)) * dx).
  destruct (Z_le_gt_dec 0 nl) as [Hn|Hn].
  - assert (Hinv : let r := for_loop 0 nl body (tri ist, mem) in
              fst r = tri (ist + nl) /\
              snd r = for_loop 0 nl (fun i m => upd m (crd + i) (f i)) mem).
    { apply (for_loop_inv
        (fun hi (r : Z * (Z -> R)) =>
           fst r = tri (ist + hi) /\
           snd r = for_loop 0 hi (fun i m => upd m (crd + i) (f i)) mem));
        [exact Hn | | ].
      - split; [simpl; f_equal; lia | now rewrite for_loop_empty by lia].
      - intros i [sum m] Hi [Hs Hm]. simpl in Hs, Hm. subst sum m. simpl. split.
        + replace (ist + (i + 1))%Z with (ist + i + 1)%Z by lia.
          now rewrite tri_succ.
        + rewrite for_loop_last by lia. reflexivity. }
    destruct Hinv as [_ Hm]. rewrite Hm, for_loop_fill. reflexivity.
  - rewrite for_loop_empty by lia. simpl.
    destruct (Z.leb_spec crd x), (Z.ltb_spec x (crd + nl)); simpl;
      try reflexivity; lia.
Qed.

Section SegmentCoordinates.
Variable ms : MeshSeg1D.
Variable iseg : Z.

Let M := (istart ms (iseg + 1) - istart ms iseg)%Z.
Let xbeg := xstart ms iseg.
Let xclose := xstart ms (iseg + 1).
Let bias := biases ms iseg.
Let avgSz := (xclose - xbeg) / IZR M.
Let begSz := 2 * avgSz / (1 + bias).
Let endSz := bias * begSz.
Let dx := (endSz - begSz) / IZR (M - 1).

(** What [MeshSeg1DGenCoord] leaves in the buffer: inside a segment every
    generated entry holds the coordinate of its node. *)
Lemma MeshSeg1DGenCoord_at (nl ist crd : Z) (mem : Z -> R) (i : Z) :
  (0 <= ist)%Z -> (ist + nl <= M + 1)%Z -> (0 <= i < nl)%Z ->
  MeshSeg1DGenCoord ms iseg nl ist crd mem (crd + i) = seg_node ms iseg (ist + i).
Proof.
  intros Hist Hfit Hi. unfold MeshSeg1DGenCoord, seg_node, seg_formula.
  fold M. replace (M + 1 - 1)%Z with M by lia.
  fold xbeg xclose bias avgSz begSz endSz dx.
  assert (Hin : (Z.leb crd (crd + i) && Z.ltb (crd + i) (crd + nl))%bool = true).
  { destruct (Z.leb_spec crd (crd + i)), (Z.ltb_spec (crd + i) (crd + nl));
      simpl; try reflexivity; lia. }
  destruct (Z.eqb_spec (ist + nl) (M + 1)) as [Hend|Hend].
  - destruct (Z.eqb_spec (ist + i) M) as [Hlast|Hlast].
    + replace (crd + i)%Z with (crd + (nl - 1))%Z by lia. apply upd_same.
    + rewrite upd_other by lia.
      destruct (Req_dec_T bias 1).
      * rewrite for_loop_fill, Hin.
        replace (crd + i - crd)%Z with i by lia. reflexivity.
      * rewrite sum_loop_tri by exact Hist.
        rewrite biased_loop by exact Hist. rewrite Hin.
        replace (crd + i - crd)%Z with i by lia. reflexivity.
  - destruct (Z.eqb_spec (ist + i) M) as [Hlast|Hlast]; [lia|].
    destruct (Req_dec_T bias 1).
    * rewrite for_loop_fill, Hin.
        replace (crd + i - crd)%Z with i by lia. reflexivity.
    * rewrite sum_loop_tri by exact Hist.
      rewrite biased_loop by exact Hist. rewrite Hin.
      replace (crd + i - crd)%Z with i by lia. reflexivity.
Qed.

(** outside the generated block the buffer keeps its content, but for
    the entry just before the block, which an empty call at the end of the
    segment overrides *)
Lemma MeshSeg1DGenCoord_frame (nl ist crd : Z) (mem : Z -> R) (x : Z) :
  (0 <= ist)%Z -> (0 <= nl)%Z ->
  (x < crd - 1 \/ (x < crd /\ 1 <= nl) \/ crd + nl <= x)%Z ->
  MeshSeg1DGenCoord ms iseg nl ist crd mem x = mem x.
Proof.
  intros Hist Hnl Hx. unfold MeshSeg1DGenCoord.
  assert (Hout : (Z.leb crd x && Z.ltb x (crd + nl))%bool = false).
  { destruct (Z.leb_spec crd x), (Z.ltb_spec x (crd + nl)); simpl;
      try reflexivity; lia. }
  cbv zeta.
  destruct (Z.eqb (ist + nl) (istart ms (iseg + 1) - istart ms iseg + 1));
    [rewrite upd_other by lia|];
    (destruct (Req_dec_T (biases ms iseg) 1);
     [ rewrite for_loop_fill, Hout; reflexivity
     | rewrite sum_loop_tri by exact Hist;
       rewrite biased_loop by exact Hist; rewrite Hout; reflexivity ]).
Qed.
End SegmentCoordinates.



(** *** The standard triple loop *)






Lemma lin_bounds r k j i :
  in_box r k j i ->
  let '(_, _, _, nx, ny, nz) := r in (0 <= lin r k j i < nx * ny * nz)%Z.
Proof.
  destruct r as [[[[[sx sy] sz] nx] ny] nz]. simpl. intros (Hk & Hj & Hi).
  assert (Ha : (0 <= k - sz <= nz - 1)%Z) by lia.
  assert (Hb : (0 <= j - sy <= ny - 1)%Z) by lia.
  assert (Hc : (0 <= i - sx <= nx - 1)%Z) by lia.
  remember (k - sz)%Z as a. remember (j - sy)%Z as b. remember (i - sx)%Z as c.
  clear - Ha Hb Hc.
  assert (0 <= a * ny + b <= (nz - 1) * ny + (ny - 1))%Z by nia.
  split; nia.
Qed.

Lemma lin_inj r k j i k' j' i' :
  in_box r k j i -> in_box r k' j' i' ->
  lin r k j i = lin r k' j' i' -> k = k' /\ j = j' /\ i = i'.
Proof.
  destruct r as [[[[[sx sy] sz] nx] ny] nz]. simpl.
  intros (Hk & Hj & Hi) (Hk' & Hj' & Hi') Heq.
  assert (Hc : (i - sx = i' - sx /\
                (k - sz) * ny + (j - sy) = (k' - sz) * ny + (j' - sy))%Z).
  { assert (H1 : ((k - sz) * ny + (j - sy) = (k' - sz) * ny + (j' - sy))%Z).
    { apply (Z.div_mod_unique nx _ _ (i - sx) (i' - sx)); [lia | lia | lia]. }
    split; [nia | exact H1]. }
  destruct Hc as [Hi0 Hr].
  assert (Hb : (k - sz = k' - sz)%Z).
  { apply (Z.div_mod_unique ny _ _ (j - sy) (j' - sy)); [lia | lia | lia]. }
  repeat split; nia.
Qed.

(** Invariant rule of the triple loop: [P n] speaks of the state before the
    point with running number [n] is visited. *)
Lemma std_loop_inv {St} (P : Z -> St -> Prop) (body : Z -> Z -> Z -> St -> St)
    (r : Z * Z * Z * Z * Z * Z) (s : St) :
  let '(_, _, _, nx, ny, nz) := r in
  (0 <= nx)%Z -> (0 <= ny)%Z -> (0 <= nz)%Z ->
  P 0%Z s ->
  (forall k j i t, in_box r k j i ->
     P (lin r k j i) t -> P (lin r k j i + 1)%Z (body k j i t)) ->
  P (nx * ny * nz)%Z (std_loop_on r body s).
Proof.
  destruct r as [[[[[sx sy] sz] nx] ny] nz]. intros Hx Hy Hz H0 Hstep.
  unfold std_loop_on, std_loop.
  replace (nx * ny * nz)%Z with ((sz + nz - sz) * ny * nx)%Z by ring.
  apply (for_loop_inv (fun k t => P ((k - sz) * ny * nx)%Z t)); [lia | |].
  { now replace ((sz - sz) * ny * nx)%Z with 0%Z by ring. }
  intros k t Hk Pk.
  replace ((k + 1 - sz) * ny * nx)%Z
    with (((k - sz) * ny + (sy + ny - sy)) * nx)%Z by ring.
  apply (for_loop_inv (fun j t => P (((k - sz) * ny + (j - sy)) * nx)%Z t));
    [lia | |].
  { now replace (((k - sz) * ny + (sy - sy)) * nx)%Z
      with ((k - sz) * ny * nx)%Z by ring. }
  intros j t' Hj Pj.
  replace (((k - sz) * ny + (j + 1 - sy)) * nx)%Z
    with (((k - sz) * ny + (j - sy)) * nx + (sx + nx - sx))%Z by ring.
  apply (for_loop_inv
           (fun i t => P (((k - sz) * ny + (j - sy)) * nx + (i - sx))%Z t));
    [lia | |].
  { now replace (((k - sz) * ny + (j - sy)) * nx + (sx - sx))%Z
      with (((k - sz) * ny + (j - sy)) * nx)%Z by ring. }
  intros i t'' Hi Pi.
  replace (((k - sz) * ny + (j - sy)) * nx + (i + 1 - sx))%Z
    with (lin (sx, sy, sz, nx, ny, nz) k j i + 1)%Z by (simpl; ring).
  apply Hstep; [simpl; lia | exact Pi].
Qed.


(** Point-wise rule: the body counts the points in [iter], establishes
    [Good] at the point it visits and keeps it at the points visited
    before; then [Good] holds at every point of the box in the end. *)
Lemma std_loop_points {St} (iter : St -> Z) (Good : Z -> Z -> Z -> St -> Prop)
    (body : Z -> Z -> Z -> St -> St) (r : Z * Z * Z * Z * Z * Z) (s : St) :
  iter s = 0%Z ->
  (forall k j i t, in_box r k j i -> iter t = lin r k j i ->
     iter (body k j i t) = (lin r k j i + 1)%Z /\ Good k j i (body k j i t)) ->
  (forall k j i k' j' i' t, in_box r k j i -> in_box r k' j' i' ->
     (lin r k' j' i' < lin r k j i)%Z -> iter t = lin r k j i ->
     Good k' j' i' t -> Good k' j' i' (body k j i t)) ->
  forall k j i, in_box r k j i -> Good k j i (std_loop_on r body s).
Proof.
  intros H0 Hvisit Hkeep k j i Hin.
  pose proof (lin_bounds r k j i Hin) as Hb.
  pose proof (std_loop_inv
    (fun n t => iter t = n /\
       forall k' j' i', in_box r k' j' i' -> (lin r k' j' i' < n)%Z ->
                        Good k' j' i' t) body r s) as Hinv.
  destruct r as [[[[[sx sy] sz] nx] ny] nz].
  assert (Hpos : (0 <= nx /\ 0 <= ny /\ 0 <= nz)%Z) by (simpl in Hin; lia).
  destruct Hpos as (Hx & Hy & Hz).
  destruct (Hinv Hx Hy Hz) as [_ Hall].
  - split; [exact H0|]. intros k' j' i' Hin' Hlt.
    pose proof (lin_bounds _ k' j' i' Hin'). simpl in *. lia.
  - intros k0 j0 i0 t Hin0 [Hit Hprev].
    destruct (Hvisit k0 j0 i0 t Hin0 Hit) as [Hit' Hgood].
    split; [exact Hit'|]. intros k' j' i' Hin' Hlt.
    destruct (Z.eq_dec (lin (sx, sy, sz, nx, ny, nz) k' j' i')
                       (lin (sx, sy, sz, nx, ny, nz) k0 j0 i0)) as [He|Hne].
    + destruct (lin_inj _ _ _ _ _ _ _ Hin' Hin0 He) as (-> & -> & ->).
      exact Hgood.
    + apply Hkeep; try assumption; [lia | apply Hprev; [assumption | lia]].
  - apply Hall; [exact Hin | lia].
Qed.


Lemma get3_set3_same (a : arr3) k j i v : (set3 a k j i v)@[k, j, i] = v.
Proof. unfold get3, set3. now rewrite !Z.eqb_refl. Qed.

Lemma get3_set3_other (a : arr3) k j i k' j' i' v :
  (k', j', i') <> (k, j, i) -> (set3 a k j i v)@[k', j', i'] = a@[k', j', i'].
Proof.
  intros Hne. unfold get3, set3.
  destruct (Z.eqb_spec k' k), (Z.eqb_spec j' j), (Z.eqb_spec i' i);
    simpl; try reflexivity. subst. contradiction.
Qed.

(** *** C7: the stored deviatoric strain rates are trace free *)

(** what the cell loop of [JacResGetEffStrainRate] stores at a cell *)
Lemma eff_cell_loop_at (jr : JacRes) (k j i : Z) :
  is_cell (fs jr) k j i ->
  let t := std_loop_on (cen_range (fs jr)) (eff_cell_body jr)
             (0%Z, svCell jr, ldxx jr, ldyy jr, ldzz jr) in
  let c := snd (fst (fst (fst t))) (cell_index (fs jr) k j i) in
  let th := grad_xx jr k j i + grad_yy jr k j i + grad_zz jr k j i in
  Bulk.theta (Cell.svBulk c) = th /\
  Cell.dxx c = grad_xx jr k j i - th / 3 /\
  Cell.dyy c = grad_yy jr k j i - th / 3 /\
  Cell.dzz c = grad_zz jr k j i - th / 3.
Proof.
  intros Hin. cbv zeta.
  apply (std_loop_points
    (fun t : Z * (Z -> Cell.t) * arr3 * arr3 * arr3 => fst (fst (fst (fst t))))
    (fun k j i t =>
       let c := snd (fst (fst (fst t))) (cell_index (fs jr) k j i) in
       let th := grad_xx jr k j i + grad_yy jr k j i + grad_zz jr k j i in
       Bulk.theta (Cell.svBulk c) = th /\
       Cell.dxx c = grad_xx jr k j i - th / 3 /\
       Cell.dyy c = grad_yy jr k j i - th / 3 /\
       Cell.dzz c = grad_zz jr k j i - th / 3)); [reflexivity | | | exact Hin].
  - intros k0 j0 i0 [[[[it sv] a] b] c] _ Hit. simpl in Hit. subst it.
    unfold eff_cell_body, cell_index. simpl. rewrite upd_same. simpl.
    unfold grad_xx, grad_yy, grad_zz. repeat split; reflexivity.
  - intros k0 j0 i0 k' j' i' [[[[it sv] a] b] c] _ _ Hlt Hit Hg.
    simpl in Hit. subst it. unfold eff_cell_body, cell_index in *. simpl in *.
    rewrite upd_other by lia. exact Hg.
Qed.

Lemma GetEffStrainRate_svCell `{PetscLib} (jr : JacRes) :
  svCell (JacResGetEffStrainRate jr) =
  snd (fst (fst (fst (std_loop_on (cen_range (fs jr)) (eff_cell_body jr)
                        (0%Z, svCell jr, ldxx jr, ldyy jr, ldzz jr))))).
Proof.
  unfold JacResGetEffStrainRate.
  destruct (std_loop_on (cen_range (fs jr)) (eff_cell_body jr) _)
    as [[[[it sv] a] b] c].
  destruct (std_loop_on (xy_range (fs jr)) _ _) as [[? ?] ?].
  destruct (std_loop_on (xz_range (fs jr)) _ _) as [[? ?] ?].
  destruct (std_loop_on (yz_range (fs jr)) _ _) as [[? ?] ?].
  reflexivity.
Qed.


(** C7. After [JacResGetEffStrainRate], at the center of every cell of
    non-zero widths the stored deviatoric strain rates [svCell->dxx],
    [dyy], [dzz] (velocity gradients minus a third of the volumetric strain
    rate, before the elastic correction) add up to zero, whatever the
    velocity field, in the arithmetic of the real numbers.  In the
    arithmetic of the machine the three subtractions round, and the sum is
    what the rounding leaves. *)
Theorem C7_deviatoric_trace_free `{PetscLib} (jr : JacRes) (k j i : Z) :
  is_cell (fs jr) k j i ->
  cell_dx (fs jr) i <> 0 -> cell_dy (fs jr) j <> 0 -> cell_dz (fs jr) k <> 0 ->
  let c := svCell (JacResGetEffStrainRate jr) (cell_index (fs jr) k j i) in
  Cell.dxx c = grad_xx jr k j i - Bulk.theta (Cell.svBulk c) / 3 /\
  Cell.dyy c = grad_yy jr k j i - Bulk.theta (Cell.svBulk c) / 3 /\
  Cell.dzz c = grad_zz jr k j i - Bulk.theta (Cell.svBulk c) / 3 /\
  Cell.dxx c + Cell.dyy c + Cell.dzz c = 0.
Proof.
  intros Hin _ _ _ c. unfold c. rewrite GetEffStrainRate_svCell.
  destruct (eff_cell_loop_at jr k j i Hin) as (Hth & Hx & Hy & Hz).
  rewrite Hth, Hx, Hy, Hz. repeat split; try reflexivity. field.
Qed.

(** *** C2: the second invariant is a weighted sum of squares *)

Lemma sum4_sq_nonneg (a b c d : R) : 0 <= a*a + b*b + c*c + d*d.
Proof. nra. Qed.

Lemma sum3_sq_nonneg (a b c : R) : 0 <= a*a + b*b + c*c.
Proof. nra. Qed.

Lemma J2Inv_cell_nonneg dxx dyy dzz dxy dxz dyz k j i :
  0 <= J2Inv_cell dxx dyy dzz dxy dxz dyz k j i.
Proof.
  unfold J2Inv_cell. cbv zeta.
  pose proof (sum3_sq_nonneg dxx@[k, j, i] dyy@[k, j, i] dzz@[k, j, i]).
  pose proof (sum4_sq_nonneg dxy@[k, j, i] dxy@[k, j+1, i]
                dxy@[k, j, i+1] dxy@[k, j+1, i+1]).
  pose proof (sum4_sq_nonneg dxz@[k, j, i] dxz@[k+1, j, i]
                dxz@[k, j, i+1] dxz@[k+1, j, i+1]).
  pose proof (sum4_sq_nonneg dyz@[k, j, i] dyz@[k+1, j, i]
                dyz@[k, j+1, i] dyz@[k+1, j+1, i]).
  lra.
Qed.

(** an edge invariant: the own component squared, three blocks of weight
    1/8 and two of weight 1/4 *)
Lemma edge_invariant_nonneg (e a b c p q : R) :
  0 <= a -> 0 <= b -> 0 <= c -> 0 <= p -> 0 <= q ->
  0 <= e*e + 0.125 * a + 0.125 * b + 0.125 * c + 0.25 * p + 0.25 * q.
Proof. intros. pose proof (Rle_0_sqr e) as He. unfold Rsqr in He. lra. Qed.

Lemma J2Inv_xy_nonneg dxx dyy dzz dxy dxz dyz mx my k j i :
  0 <= J2Inv_xy dxx dyy dzz dxy dxz dyz mx my k j i.
Proof. unfold J2Inv_xy. cbv zeta. apply edge_invariant_nonneg; apply sum4_sq_nonneg. Qed.

Lemma J2Inv_xz_nonneg dxx dyy dzz dxy dxz dyz mx mz k j i :
  0 <= J2Inv_xz dxx dyy dzz dxy dxz dyz mx mz k j i.
Proof. unfold J2Inv_xz. cbv zeta. apply edge_invariant_nonneg; apply sum4_sq_nonneg. Qed.

Lemma J2Inv_yz_nonneg dxx dyy dzz dxy dxz dyz my mz k j i :
  0 <= J2Inv_yz dxx dyy dzz dxy dxz dyz my mz k j i.
Proof. unfold J2Inv_yz. cbv zeta. apply edge_invariant_nonneg; apply sum4_sq_nonneg. Qed.

(** C2. For any strain-rate arrays and any point, the second invariant that
    [JacResGetResidual] forms at a cell center and at an xy, xz or yz edge
    is not negative, so the square root it stores is taken of a
    non-negative number (and squares back to the invariant). *)
Theorem C2_second_invariant_nonneg
    (dxx dyy dzz dxy dxz dyz : arr3) (mx my mz k j i : Z) :
  let Jc := J2Inv_cell dxx dyy dzz dxy dxz dyz k j i in
  let Jxy := J2Inv_xy dxx dyy dzz dxy dxz dyz mx my k j i in
  let Jxz := J2Inv_xz dxx dyy dzz dxy dxz dyz mx mz k j i in
  let Jyz := J2Inv_yz dxx dyy dzz dxy dxz dyz my mz k j i in
  (0 <= Jc /\ sqrt Jc * sqrt Jc = Jc) /\
  (0 <= Jxy /\ sqrt Jxy * sqrt Jxy = Jxy) /\
  (0 <= Jxz /\ sqrt Jxz * sqrt Jxz = Jxz) /\
  (0 <= Jyz /\ sqrt Jyz * sqrt Jyz = Jyz).
Proof.
  cbv zeta.
  pose proof (J2Inv_cell_nonneg dxx dyy dzz dxy dxz dyz k j i).
  pose proof (J2Inv_xy_nonneg dxx dyy dzz dxy dxz dyz mx my k j i).
  pose proof (J2Inv_xz_nonneg dxx dyy dzz dxy dxz dyz mx mz k j i).
  pose proof (J2Inv_yz_nonneg dxx dyy dzz dxy dxz dyz my mz k j i).
  repeat split; try assumption; apply sqrt_sqrt; assumption.
Qed.

(** *** C10: the processor-grid hints of FDSTAGCreate *)

(** C10. [FDSTAGCreate] replaces its hints [Px], [Py], [Pz] by
    [PETSC_DECIDE] before it uses them: two calls that differ in the hints
    alone give the same result, grid object or error. *)
Theorem C10_FDSTAGCreate_ignores_hints `{PetscLib}
    (fs0 : FDSTAG) (Nx Ny Nz : Z) (Px Py Pz Px' Py' Pz' : Z) :
  FDSTAGCreate fs0 Nx Ny Nz Px Py Pz = FDSTAGCreate fs0 Nx Ny Nz Px' Py' Pz'.
Proof. unfold FDSTAGCreate. reflexivity. Qed.

(** *** C9: Discret1DCheckMG *)

Lemma halvings_spec : forall fuel sz c,
  sz <> 0%Z -> (Z.abs sz < 2 ^ Z.of_nat fuel)%Z ->
  exists k, (0 <= k)%Z /\ halvings fuel sz c = Some (c + k)%Z /\
            (2 ^ k | sz)%Z /\ ~ (2 ^ (k + 1) | sz)%Z.
Proof.
  induction fuel as [|fuel IH]; intros sz c Hnz Hlt.
  - simpl in Hlt. lia.
  - simpl halvings. destruct (Z.eqb_spec (Z.rem sz 2) 0) as [He|Hodd].
    + pose proof (Z.quot_rem' sz 2) as Hqr. rewrite He, Z.add_0_r in Hqr.
      set (q := Z.quot sz 2) in *.
      assert (Hq : q <> 0%Z) by lia.
      assert (Hql : (Z.abs q < 2 ^ Z.of_nat fuel)%Z).
      { rewrite Nat2Z.inj_succ, Z.pow_succ_r in Hlt by lia. lia. }
      destruct (IH q (c + 1)%Z Hq Hql) as (k & Hk & Hrun & Hdiv & Hnd).
      exists (k + 1)%Z. split; [lia|]. split.
      * rewrite Hrun. f_equal. lia.
      * split.
        -- destruct Hdiv as [w Hw]. exists w.
           rewrite Z.pow_add_r by lia. change (2 ^ 1)%Z with 2%Z.
           rewrite Hqr at 1. rewrite Hw. ring.
        -- intros [w Hw]. apply Hnd. exists w.
           rewrite Z.pow_add_r in Hw by lia. change (2 ^ 1)%Z with 2%Z in Hw.
           rewrite Hqr in Hw. lia.
    + exists 0%Z. split; [lia|]. split; [f_equal; lia|]. split.
      * simpl. apply Z.divide_1_l.
      * change (2 ^ (0 + 1))%Z with 2%Z. intros Hd.
        apply Hodd. apply Z.rem_divide; [lia | exact Hd].
Qed.

(** at size zero the halving loop never leaves *)
Lemma halvings_zero : forall fuel c, halvings fuel 0 c = None.
Proof. induction fuel as [|fuel IH]; intros c; simpl; [reflexivity | apply IH]. Qed.

(** with no cell at all the three checks pass and the halving loop is
    never left *)
Lemma Discret1DCheckMG_no_cells (ds : Discret1D) (dir : list Byte.byte) :
  ncels ds = 0%Z -> tcels ds = 0%Z -> nproc ds <> 0%Z ->
  forall fuel, Discret1DCheckMG fuel ds dir = MGRunning.
Proof.
  intros Hn Ht Hp fuel. unfold Discret1DCheckMG. rewrite Hn, Ht.
  rewrite (Z.rem_0_l (nproc ds)) by exact Hp.
  rewrite (Z.quot_0_l (nproc ds)) by exact Hp.
  simpl. now rewrite halvings_zero.
Qed.

Lemma log2_fuel (n : Z) (fuel : nat) :
  n <> 0%Z -> (Z.log2 (Z.abs n) < Z.of_nat fuel)%Z ->
  (Z.abs n < 2 ^ Z.of_nat fuel)%Z.
Proof.
  intros Hn Hf.
  apply Z.lt_le_trans with (2 ^ (Z.succ (Z.log2 (Z.abs n))))%Z.
  - apply Z.log2_spec. lia.
  - apply Z.pow_le_mono_r; lia.
Qed.

(** C9. [Discret1DCheckMG] stops with an error that names the axis exactly
    when the local cell count is odd, or the total cell count is not a
    multiple of the process count, or the local count differs from
    [tcels/nproc]; otherwise, for a local count other than zero, it returns
    [ncors], the largest [k] with [2^k] dividing [ncels] (the number of
    halvings until an odd size is left). *)
Theorem C9_Discret1DCheckMG (ds : Discret1D) (dir : list Byte.byte) :
  nproc ds <> 0%Z ->
  (forall fuel,
     (exists e, Discret1DCheckMG fuel ds dir = MGFail e dir) <->
     (Z.odd (ncels ds) = true \/ ~ (nproc ds | tcels ds)%Z \/
      Z.quot (tcels ds) (nproc ds) <> ncels ds)) /\
  (forall fuel r, Discret1DCheckMG fuel ds dir = r ->
     forall e d, r = MGFail e d -> d = dir) /\
  (ncels ds <> 0%Z ->
   Z.odd (ncels ds) = false -> (nproc ds | tcels ds)%Z ->
   Z.quot (tcels ds) (nproc ds) = ncels ds ->
   exists k, (0 <= k)%Z /\
     (2 ^ k | ncels ds)%Z /\ ~ (2 ^ (k + 1) | ncels ds)%Z /\
     forall fuel, (Z.log2 (Z.abs (ncels ds)) < Z.of_nat fuel)%Z ->
       Discret1DCheckMG fuel ds dir = MGOk k).
Proof.
  intros Hp.
  assert (Hodd : negb (Z.eqb (Z.rem (ncels ds) 2) 0) = Z.odd (ncels ds))
    by (symmetry; apply Zodd_rem).
  assert (Hdivd : Z.eqb (Z.rem (tcels ds) (nproc ds)) 0 = true <->
                  (nproc ds | tcels ds)%Z).
  { rewrite Z.eqb_eq. apply Z.rem_divide. exact Hp. }
  split; [|split].
  - intros fuel. unfold Discret1DCheckMG. rewrite Hodd.
    destruct (Z.odd (ncels ds)) eqn:Eo; simpl.
    { split; [intros _; now left | intros _; eexists; reflexivity]. }
    destruct (Z.eqb (Z.rem (tcels ds) (nproc ds)) 0) eqn:Ed; simpl.
    2:{ split; [intros _ | intros _; eexists; reflexivity].
        right; left. intros Hd. apply Hdivd in Hd. congruence. }
    destruct (Z.eqb_spec (Z.quot (tcels ds) (nproc ds)) (ncels ds)) as [Eq|Eq];
      simpl.
    2:{ split; [intros _; right; right; exact Eq
               | intros _; eexists; reflexivity]. }
    split.
    + intros [e He]. destruct (halvings fuel (ncels ds) 0); discriminate He.
    + intros [Ho | [Hd | Hq]]; [discriminate Ho | | contradiction].
      exfalso. apply Hd. apply Hdivd. reflexivity.
  - intros fuel r Hr e d ->. unfold Discret1DCheckMG in Hr.
    destruct (negb (Z.eqb (Z.rem (ncels ds) 2) 0)); [now inversion Hr|].
    destruct (negb (Z.eqb (Z.rem (tcels ds) (nproc ds)) 0)); [now inversion Hr|].
    destruct (negb (Z.eqb (Z.quot (tcels ds) (nproc ds)) (ncels ds)));
      [now inversion Hr|].
    destruct (halvings fuel (ncels ds) 0); discriminate Hr.
  - intros Hn Ho Hd Hq.
    assert (Hbig : (Z.abs (ncels ds) < 2 ^ Z.of_nat (S (Z.to_nat (Z.log2 (Z.abs (ncels ds))))))%Z).
    { apply log2_fuel; [exact Hn|]. pose proof (Z.log2_nonneg (Z.abs (ncels ds))). lia. }
    destruct (halvings_spec _ (ncels ds) 0%Z Hn Hbig) as (k & Hk & _ & Hdk & Hndk).
    exists k. repeat split; try assumption.
    intros fuel Hf. unfold Discret1DCheckMG. rewrite Hodd, Ho. simpl.
    apply Hdivd in Hd. rewrite Hd. simpl.
    rewrite Hq, Z.eqb_refl. simpl.
    destruct (halvings_spec fuel (ncels ds) 0%Z Hn (log2_fuel _ _ Hn Hf))
      as (k' & Hk' & Hrun & Hdk' & Hndk').
    rewrite Hrun. f_equal.
    (* the largest power of two dividing [ncels] is unique *)
    destruct (Z.lt_trichotomy k k') as [Hlt | [Heq | Hgt]]; [| lia |].
    + exfalso. apply Hndk. apply Z.divide_trans with (2 ^ k')%Z; [|exact Hdk'].
      exists (2 ^ (k' - (k + 1)))%Z. rewrite <- Z.pow_add_r by lia. f_equal. lia.
    + exfalso. apply Hndk'. apply Z.divide_trans with (2 ^ k)%Z; [|exact Hdk].
      exists (2 ^ (k - (k' + 1)))%Z. rewrite <- Z.pow_add_r by lia. f_equal. lia.
Qed.

(** *** C3: single-point constraints in JacResCopySol and JacResCopyRes *)

Lemma spc_set_at num list_ vals sol n :
  (0 <= n < num)%Z -> last_word num list_ vals n ->
  spc_set num list_ vals sol (list_ n) = vals n.
Proof.
  intros Hn Hlast. unfold spc_set.
  assert (Hinv : (n < num)%Z ->
            for_loop 0 num (fun i s => upd s (list_ i) (vals i)) sol (list_ n)
            = vals n).
  { apply (for_loop_inv
      (fun hi (s : Z -> R) => (n < hi)%Z -> s (list_ n) = vals n)); [lia | lia |].
    intros i t Hi Ht Hlt.
    destruct (Z.eq_dec (list_ n) (list_ i)) as [He|Hne].
    - rewrite He, upd_same.
      destruct (Z.eq_dec i n) as [->|Hin]; [reflexivity|].
      apply Hlast; [lia | now symmetry].
    - rewrite upd_other by exact Hne. apply Ht.
      destruct (Z.eq_dec i n) as [->|Hin]; [contradiction | lia]. }
  apply Hinv. lia.
Qed.

Lemma spc_set_keep num list_ vals sol d v :
  (forall n, (0 <= n < num)%Z -> list_ n = d -> vals n = v) ->
  sol d = v -> spc_set num list_ vals sol d = v.
Proof.
  intros Hsame Hd. unfold spc_set.
  destruct (Z_le_gt_dec 0 num) as [Hle|Hgt].
  - apply (for_loop_inv (fun _ (s : Z -> R) => s d = v)); [exact Hle | exact Hd |].
    intros i t Hi Ht. destruct (Z.eq_dec d (list_ i)) as [->|Hne].
    + rewrite upd_same. now apply Hsame.
    + now rewrite upd_other.
  - now rewrite for_loop_empty by lia.
Qed.

Lemma spc_zero_at num list_ res n :
  (0 <= n < num)%Z -> spc_zero num list_ res (list_ n) = 0.
Proof.
  intros Hn. unfold spc_zero.
  assert (Hinv : (n < num)%Z ->
            for_loop 0 num (fun i s => upd s (list_ i) 0) res (list_ n) = 0).
  { apply (for_loop_inv
      (fun hi (s : Z -> R) => (n < hi)%Z -> s (list_ n) = 0)); [lia | lia |].
    intros i t Hi Ht Hlt.
    destruct (Z.eq_dec (list_ n) (list_ i)) as [He|Hne].
    - now rewrite He, upd_same.
    - rewrite upd_other by exact Hne. apply Ht.
      destruct (Z.eq_dec i n) as [->|Hin]; [contradiction | lia]. }
  apply Hinv. lia.
Qed.

Lemma spc_zero_keep num list_ res d :
  res d = 0 -> spc_zero num list_ res d = 0.
Proof.
  intros Hd. unfold spc_zero.
  destruct (Z_le_gt_dec 0 num) as [Hle|Hgt].
  - apply (for_loop_inv (fun _ (s : Z -> R) => s d = 0)); [exact Hle | exact Hd |].
    intros i t Hi Ht. destruct (Z.eq_dec d (list_ i)) as [->|Hne].
    + apply upd_same.
    + now rewrite upd_other.
  - now rewrite for_loop_empty by lia.
Qed.

(** reading back the array that was placed in a vector *)
Lemma VecGetArray_Place (da : DM) (f : Z -> R) (n : Z) :
  VecGetArray da (VecPlaceArray da f) n = f n.
Proof.
  unfold VecGetArray, VecPlaceArray, dmda_index. f_equal.
  pose proof (Z_div_mod_eq_full n (da_nx da)) as H1.
  pose proof (Z_div_mod_eq_full (n / da_nx da) (da_ny da)) as H2.
  set (q := (n / da_nx da)%Z) in *.
  replace (da_sz da + q / da_ny da - da_sz da)%Z with (q / da_ny da)%Z by lia.
  replace (da_sy da + q mod da_ny da - da_sy da)%Z with (q mod da_ny da)%Z by lia.
  replace (da_sx da + n mod da_nx da - da_sx da)%Z with (n mod da_nx da)%Z by lia.
  replace (q / da_ny da * da_ny da + q mod da_ny da)%Z with q by lia.
  lia.
Qed.

Lemma PetscMemcpy_in dst doff src soff n i :
  (doff <= i < doff + n)%Z ->
  PetscMemcpy dst doff src soff n i = src (soff + (i - doff))%Z.
Proof.
  intros Hi. unfold PetscMemcpy.
  destruct (Z.leb_spec doff i), (Z.ltb_spec i (doff + n)); simpl;
    try reflexivity; lia.
Qed.

Lemma CopySol_entry `{PetscLib} `{BCMacros} (jr : JacRes) (x : Z -> R) (d : Z) :
  (0 <= d < coupled_size (fs jr))%Z ->
  solution_entry (fst (JacResCopySol jr x)) d = snd (JacResCopySol jr x) d.
Proof.
  intros Hd. unfold coupled_size in Hd.
  unfold solution_entry, JacResCopySol, coupled_entry. cbv zeta. simpl.
  rewrite !VecGetArray_Place.
  destruct (Z.ltb_spec d (nXFace (fs jr))).
  { rewrite PetscMemcpy_in by lia. f_equal. lia. }
  destruct (Z.ltb_spec d (nXFace (fs jr) + nYFace (fs jr))).
  { rewrite PetscMemcpy_in by lia. f_equal. lia. }
  destruct (Z.ltb_spec d (nXFace (fs jr) + nYFace (fs jr) + nZFace (fs jr))).
  { rewrite PetscMemcpy_in by lia. f_equal. lia. }
  rewrite PetscMemcpy_in by lia. f_equal. lia.
Qed.

(** C3. For any constraint lists and any input vector.  [JacResCopySol]:
    a velocity or pressure constraint that lies inside the vector and is the
    last word on its position is reproduced exactly by the velocity and
    pressure arrays the vector is split into (the pressure list is applied
    after the velocity list).  [JacResCopyRes]: the residual entry at every
    constrained position is exactly zero. *)
Theorem C3_single_point_constraints `{PetscLib} `{BCMacros}
    (jr : JacRes) (x f : Z -> R) :
  let b := bc jr in
  let jr' := fst (JacResCopySol jr x) in
  (forall n, (0 <= n < vNumSPC b)%Z ->
     (0 <= vSPCList b n < coupled_size (fs jr))%Z ->
     last_word (vNumSPC b) (vSPCList b) (vSPCVals b) n ->
     (forall m, (0 <= m < pNumSPC b)%Z -> pSPCList b m = vSPCList b n ->
                pSPCVals b m = vSPCVals b n) ->
     solution_entry jr' (vSPCList b n) = vSPCVals b n) /\
  (forall m, (0 <= m < pNumSPC b)%Z ->
     (0 <= pSPCList b m < coupled_size (fs jr))%Z ->
     last_word (pNumSPC b) (pSPCList b) (pSPCVals b) m ->
     solution_entry jr' (pSPCList b m) = pSPCVals b m) /\
  (forall n, (0 <= n < vNumSPC b)%Z -> JacResCopyRes jr f (vSPCList b n) = 0) /\
  (forall m, (0 <= m < pNumSPC b)%Z -> JacResCopyRes jr f (pSPCList b m) = 0).
Proof.
  intros b jr'. repeat split.
  - intros n Hn Hin Hlast Hp. unfold jr'.
    rewrite CopySol_entry by exact Hin. unfold JacResCopySol. simpl. fold b.
    apply spc_set_keep; [exact Hp|]. now apply spc_set_at.
  - intros m Hm Hin Hlast. unfold jr'.
    rewrite CopySol_entry by exact Hin. unfold JacResCopySol. simpl. fold b.
    now apply spc_set_at.
  - intros n Hn. unfold JacResCopyRes. cbv zeta. fold b.
    apply spc_zero_keep. now apply spc_zero_at.
  - intros m Hm. unfold JacResCopyRes. cbv zeta. fold b.
    now apply spc_zero_at.
Qed.

(** *** C8: stretching the grid *)

Lemma for_loop_store (f : Z -> R) (lo hi : Z) (mem : Z -> R) (x : Z) :
  for_loop lo hi (fun i m => upd m i (f i)) mem x =
  if (Z.leb lo x && Z.ltb x hi)%bool then f x else mem x.
Proof.
  destruct (Z_le_gt_dec lo hi) as [Hn|Hn].
  - apply (for_loop_inv
      (fun h m => m x = if (Z.leb lo x && Z.ltb x h)%bool then f x else mem x));
      [exact Hn | |].
    + destruct (Z.leb_spec lo x), (Z.ltb_spec x lo); simpl; try reflexivity; lia.
    + intros i t Hi Ht. destruct (Z.eq_dec x i) as [->|Hne].
      * rewrite upd_same.
        destruct (Z.leb_spec lo i), (Z.ltb_spec i (i + 1)); simpl;
          try reflexivity; lia.
      * rewrite upd_other by exact Hne. rewrite Ht.
        destruct (Z.leb_spec lo x), (Z.ltb_spec x i), (Z.ltb_spec x (i + 1));
          simpl; try reflexivity; lia.
  - rewrite for_loop_empty by lia.
    destruct (Z.leb_spec lo x), (Z.ltb_spec x hi); simpl; try reflexivity; lia.
Qed.

(** a loop that multiplies the entries [i + c], one after the other *)
Lemma for_loop_scale (s : R) (c lo hi : Z) (mem : Z -> R) (x : Z) :
  for_loop lo hi (fun i m => upd m (i + c) (m (i + c)%Z * s)) mem x =
  if (Z.leb (lo + c) x && Z.ltb x (hi + c))%bool then mem x * s else mem x.
Proof.
  destruct (Z_le_gt_dec lo hi) as [Hn|Hn].
  - apply (for_loop_inv
      (fun h m => forall y, m y =
         if (Z.leb (lo + c) y && Z.ltb y (h + c))%bool then mem y * s else mem y));
      [exact Hn | |].
    + intros y.
      destruct (Z.leb_spec (lo + c) y), (Z.ltb_spec y (lo + c)); simpl;
        try reflexivity; lia.
    + intros i t Hi Ht y. destruct (Z.eq_dec y (i + c)) as [->|Hne].
      * rewrite upd_same, Ht.
        destruct (Z.leb_spec (lo + c) (i + c)), (Z.ltb_spec (i + c) (i + c)),
                 (Z.ltb_spec (i + c) (i + 1 + c)); simpl; try reflexivity; lia.
      * rewrite upd_other by exact Hne. rewrite Ht.
        destruct (Z.leb_spec (lo + c) y), (Z.ltb_spec y (i + c)),
                 (Z.ltb_spec y (i + 1 + c)); simpl; try reflexivity; lia.
  - rewrite for_loop_empty by lia.
    destruct (Z.leb_spec (lo + c) x), (Z.ltb_spec x (hi + c)); simpl;
      try reflexivity; lia.
Qed.

Lemma MeshSeg1DStretch_xstart ms eps i :
  (0 <= i <= nsegs ms)%Z ->
  xstart (MeshSeg1DStretch ms eps) i = xstart ms i * (1 - eps).
Proof.
  intros Hi. unfold MeshSeg1DStretch. simpl.
  assert (Heq : for_loop 0 (nsegs ms + 1)
                  (fun i xs => upd xs i (xs i * (1 - eps))) (xstart ms) =
                for_loop 0 (nsegs ms + 1)
                  (fun i xs => upd xs (i + 0) (xs (i + 0)%Z * (1 - eps))) (xstart ms)).
  { apply for_loop_ext. intros j xs. now rewrite Z.add_0_r. }
  rewrite Heq, for_loop_scale.
  destruct (Z.leb_spec (0 + 0) i), (Z.ltb_spec i (nsegs ms + 1 + 0)); simpl;
    try reflexivity; lia.
Qed.

Lemma stretch_nodes (nc : Z -> R) (n : Z) (eps : R) (x : Z) :
  for_loop 0 n (fun i m => upd m (i - 1) (m (i - 1)%Z * (1 - eps))) nc x =
  if (Z.leb (-1) x && Z.ltb x (n - 1))%bool then nc x * (1 - eps) else nc x.
Proof.
  change (for_loop 0 n (fun i m => upd m (i + -1) (m (i + -1)%Z * (1 - eps))) nc x =
          if (Z.leb (0 + -1) x && Z.ltb x (n + -1))%bool
          then nc x * (1 - eps) else nc x).
  apply for_loop_scale.
Qed.

Lemma cell_centers_at ds nc i :
  (-1 <= i <= ncels ds)%Z ->
  cell_centers ds nc i = (nc i + nc (i + 1)%Z) / 2.
Proof.
  intros Hi. unfold cell_centers.
  rewrite (for_loop_store (fun i => (nc i + nc (i + 1)%Z) / 2)).
  destruct (Z.leb_spec (-1) i), (Z.ltb_spec i (ncels ds + 1)); simpl;
    try reflexivity; lia.
Qed.

Lemma local_minmax_scale (ds ds' : Discret1D) (s : R) :
  0 < s -> ncels ds' = ncels ds ->
  (forall i, (0 <= i <= ncels ds)%Z \/ (0 <= i <= 1)%Z ->
             ncoor ds' i = ncoor ds i * s) ->
  local_minmax ds' = (fst (local_minmax ds) * s, snd (local_minmax ds) * s).
Proof.
  intros Hs Hn Hc. unfold local_minmax. rewrite Hn.
  assert (Hsz : forall i, (0 <= i < ncels ds)%Z \/ i = 0%Z ->
            SIZE_CELL i 0 ds' = SIZE_CELL i 0 ds * s).
  { intros i Hi. unfold SIZE_CELL. rewrite !Hc by lia. ring. }
  rewrite (Hsz 0%Z) by lia.
  set (body := fun (d : Discret1D) (i : Z) '(mn, mx) =>
                 let sz := SIZE_CELL i 0 d in
                 ((if Rlt_dec sz mn then sz else mn),
                  (if Rgt_dec sz mx then sz else mx))).
  change (for_loop 1 (ncels ds) (body ds')
            (SIZE_CELL 0 0 ds * s, SIZE_CELL 0 0 ds * s) =
          (fst (for_loop 1 (ncels ds) (body ds) (SIZE_CELL 0 0 ds, SIZE_CELL 0 0 ds)) * s,
           snd (for_loop 1 (ncels ds) (body ds) (SIZE_CELL 0 0 ds, SIZE_CELL 0 0 ds)) * s)).
  destruct (Z_le_gt_dec 1 (ncels ds)) as [Hle|Hgt].
  - apply (for_loop_inv
      (fun hi (t : R * R) =>
         t = (fst (for_loop 1 hi (body ds) (SIZE_CELL 0 0 ds, SIZE_CELL 0 0 ds)) * s,
              snd (for_loop 1 hi (body ds) (SIZE_CELL 0 0 ds, SIZE_CELL 0 0 ds)) * s)));
      [exact Hle | now rewrite for_loop_empty by lia |].
    intros i t Hi ->. rewrite for_loop_last by lia.
    destruct (for_loop 1 i (body ds) _) as [mn mx]. simpl.
    rewrite Hsz by lia.
    destruct (Rlt_dec (SIZE_CELL i 0 ds * s) (mn * s)),
             (Rlt_dec (SIZE_CELL i 0 ds) mn),
             (Rgt_dec (SIZE_CELL i 0 ds * s) (mx * s)),
             (Rgt_dec (SIZE_CELL i 0 ds) mx);
      try reflexivity; exfalso; nra.
  - rewrite !for_loop_empty by lia. reflexivity.
Qed.

Lemma Rmin_scale a b s : 0 < s -> Rmin (a * s) (b * s) = Rmin a b * s.
Proof.
  intros Hs. unfold Rmin.
  destruct (Rle_dec (a * s) (b * s)), (Rle_dec a b); try reflexivity;
    exfalso; nra.
Qed.

Lemma Rmax_scale a b s : 0 < s -> Rmax (a * s) (b * s) = Rmax a b * s.
Proof.
  intros Hs. unfold Rmax.
  destruct (Rle_dec (a * s) (b * s)), (Rle_dec a b); try reflexivity;
    exfalso; nra.
Qed.

Lemma Allreduce_MIN_scale peers l s :
  0 < s ->
  Allreduce_MIN (map (fun a => a * s) peers) (l * s) = Allreduce_MIN peers l * s.
Proof.
  intros Hs. unfold Allreduce_MIN.
  induction peers as [|a peers IH]; simpl; [reflexivity|].
  rewrite IH. now apply Rmin_scale.
Qed.

Lemma Allreduce_MAX_scale peers l s :
  0 < s ->
  Allreduce_MAX (map (fun a => a * s) peers) (l * s) = Allreduce_MAX peers l * s.
Proof.
  intros Hs. unfold Allreduce_MAX.
  induction peers as [|a peers IH]; simpl; [reflexivity|].
  rewrite IH. now apply Rmax_scale.
Qed.

Lemma rtol_pos : 0 < rtol.
Proof. unfold rtol. lra. Qed.

Lemma GetMinMax_steps peers ds ms :
  steps (Discret1DGetMinMaxCellSize peers ds ms) =
  let g := global_minmax peers ds in
  let h := MeshSeg1DGetUniStep ms in
  if Rlt_dec (Rabs (snd g - fst g)) (rtol * h) then (h, h, h)
  else (-1, fst g, snd g).
Proof.
  unfold Discret1DGetMinMaxCellSize, global_minmax.
  fold (local_minmax ds). destruct (local_minmax ds) as [lmin lmax].
  destruct (Z.eqb (nproc ds) 1); simpl;
    match goal with |- context [Rlt_dec ?a ?b] => destruct (Rlt_dec a b) end;
    reflexivity.
Qed.

Lemma global_minmax_scale peers (ds ds' : Discret1D) (s : R) :
  0 < s -> nproc ds' = nproc ds ->
  local_minmax ds' = (fst (local_minmax ds) * s, snd (local_minmax ds) * s) ->
  global_minmax (scale_peers s peers) ds' =
  (fst (global_minmax peers ds) * s, snd (global_minmax peers ds) * s).
Proof.
  intros Hs Hp Hl. unfold global_minmax. rewrite Hp, Hl.
  destruct (Z.eqb (nproc ds) 1); [reflexivity|]. simpl.
  unfold scale_peers. rewrite !map_map. simpl.
  rewrite <- (map_map fst (fun a => a * s)), <- (map_map snd (fun a => a * s)).
  now rewrite Allreduce_MIN_scale, Allreduce_MAX_scale.
Qed.

Lemma GetUniStep_stretch ms eps :
  (0 <= nsegs ms)%Z ->
  MeshSeg1DGetUniStep (MeshSeg1DStretch ms eps) =
  MeshSeg1DGetUniStep ms * (1 - eps).
Proof.
  intros Hn. unfold MeshSeg1DGetUniStep.
  change (nsegs (MeshSeg1DStretch ms eps)) with (nsegs ms).
  change (istart (MeshSeg1DStretch ms eps)) with (istart ms).
  rewrite !MeshSeg1DStretch_xstart by lia.
  unfold Rdiv. ring.
Qed.

Lemma Discret1DStretch_spec (ds : Discret1D) (ms : MeshSeg1D) (eps : R) :
  axis_stretched ds ms eps (fst (Discret1DStretch ds ms eps))
                 (snd (Discret1DStretch ds ms eps)).
Proof.
  set (nc := for_loop 0 (bufsz ds)
               (fun i m => upd m (i - 1) (m (i - 1)%Z * (1 - eps))) (ncoor ds)).
  set (dc := set_coor ds nc (cell_centers ds nc)).
  assert (Hnc : forall i, (-1 <= i < bufsz ds - 1)%Z ->
                          nc i = ncoor ds i * (1 - eps)).
  { intros i Hi. unfold nc. rewrite stretch_nodes.
    destruct (Z.leb_spec (-1) i), (Z.ltb_spec i (bufsz ds - 1)); simpl;
      try reflexivity; lia. }
  assert (Hres : Discret1DStretch ds ms eps =
            (if Rlt_dec (h_uni ds) 0
             then set_steps dc (h_uni ds) (h_min ds * (1 - eps))
                            (h_max ds * (1 - eps))
             else set_steps dc (MeshSeg1DGetUniStep (MeshSeg1DStretch ms eps))
                            (MeshSeg1DGetUniStep (MeshSeg1DStretch ms eps))
                            (MeshSeg1DGetUniStep (MeshSeg1DStretch ms eps)),
             MeshSeg1DStretch ms eps)) by reflexivity.
  rewrite Hres. clear Hres. simpl fst. simpl snd.
  split; [|split; [|split; [|split]]].
  - intros i Hi. now apply MeshSeg1DStretch_xstart.
  - intros i Hi. unfold nbuff.
    destruct (Rlt_dec (h_uni ds) 0); simpl; apply Hnc; lia.
  - intros i Hi.
    destruct (Rlt_dec (h_uni ds) 0); simpl; now apply cell_centers_at.
  - destruct (Rlt_dec (h_uni ds) 0); simpl; repeat split; reflexivity.
  - intros peers Hs Hseg Hc Hb Hst.
    set (s := 1 - eps) in *.
    rewrite GetMinMax_steps in Hst. rewrite GetMinMax_steps.
    rewrite GetUniStep_stretch by exact Hseg. fold s.
    set (h := MeshSeg1DGetUniStep ms) in *.
    set (g := global_minmax peers ds) in *.
    assert (Hg : forall hu a b,
              global_minmax (scale_peers s peers) (set_steps dc hu a b) =
              (fst g * s, snd g * s)).
    { intros hu a b. apply global_minmax_scale; [exact Hs | reflexivity |].
      apply local_minmax_scale; [exact Hs | reflexivity |].
      intros i Hi. simpl. apply Hnc. lia. }
    pose proof rtol_pos as Hr.
    cbv zeta in Hst. cbv zeta.
    assert (Htest : forall hu a b,
      (if Rlt_dec (Rabs (snd (global_minmax (scale_peers s peers) (set_steps dc hu a b))
                         - fst (global_minmax (scale_peers s peers) (set_steps dc hu a b))))
                  (rtol * (h * s))
       then (h * s, h * s, h * s)
       else (-1, fst (global_minmax (scale_peers s peers) (set_steps dc hu a b)),
                 snd (global_minmax (scale_peers s peers) (set_steps dc hu a b)))) =
      (if Rlt_dec (Rabs (snd g - fst g)) (rtol * h)
       then (h * s, h * s, h * s)
       else (-1, fst g * s, snd g * s))).
    { intros hu a b. rewrite Hg. simpl.
      replace (snd g * s - fst g * s) with ((snd g - fst g) * s) by ring.
      rewrite Rabs_mult, (Rabs_pos_eq s) by lra.
      destruct (Rlt_dec (Rabs (snd g - fst g) * s) (rtol * (h * s))),
               (Rlt_dec (Rabs (snd g - fst g)) (rtol * h)); try reflexivity;
        exfalso; nra. }
    unfold steps in Hst.
    destruct (Rlt_dec (Rabs (snd g - fst g)) (rtol * h)) as [Hu|Hu].
    + (* uniform axis: the step is positive, the steps are re-derived *)
      injection Hst as Hhu Hhmin Hhmax.
      pose proof (Rabs_pos (snd g - fst g)) as Hp.
      destruct (Rlt_dec (h_uni ds) 0) as [Hneg|Hpos]; [exfalso; nra|].
      rewrite (Htest (h * s) (h * s) (h * s)). reflexivity.
    + (* variable spacing: the extreme sizes are scaled *)
      injection Hst as Hhu Hhmin Hhmax.
      destruct (Rlt_dec (h_uni ds) 0) as [Hneg|Hpos]; [|exfalso; lra].
      rewrite (Htest (h_uni ds) (h_min ds * s) (h_max ds * s)).
      unfold steps. simpl. now rewrite Hhu, Hhmin, Hhmax.
Qed.

Lemma axis_after_intro ds ms E dt :
  let r := if Req_dec_T E 0 then (ds, ms) else Discret1DStretch ds ms (E * dt) in
  axis_after ds ms E dt (fst r) (snd r).
Proof.
  cbv zeta. destruct (Req_dec_T E 0) as [He|He]; split; simpl.
  - intros _. split; reflexivity.
  - intros Hn. contradiction.
  - intros Hz. contradiction.
  - intros _. apply Discret1DStretch_spec.
Qed.

(** C8. [FDSTAGStretch(Exx, Eyy, dt)] takes [Ezz = -(Exx+Eyy)]; an axis
    with rate zero is left as it is; an axis with another rate [E] is
    stretched with [eps = E*dt]: every segment breakpoint and every node
    coordinate of the buffer (ghosts included) is multiplied by [1-eps],
    every cell center is the midpoint of its two nodes, and, for
    [1-eps > 0], the mesh steps [h_uni], [h_min], [h_max] are the cell-size
    statistics of the scaled mesh. *)
Theorem C8_FDSTAGStretch (f : FDSTAG) (Exx Eyy dt : R) :
  let Ezz := - (Exx + Eyy) in
  let f' := FDSTAGStretch f Exx Eyy dt in
  axis_after (dsx f) (msx f) Exx dt (dsx f') (msx f') /\
  axis_after (dsy f) (msy f) Eyy dt (dsy f') (msy f') /\
  axis_after (dsz f) (msz f) Ezz dt (dsz f') (msz f').
Proof.
  cbv zeta. unfold FDSTAGStretch.
  pose proof (axis_after_intro (dsx f) (msx f) Exx dt) as Hx.
  pose proof (axis_after_intro (dsy f) (msy f) Eyy dt) as Hy.
  pose proof (axis_after_intro (dsz f) (msz f) (- (Exx + Eyy)) dt) as Hz.
  cbv zeta in Hx, Hy, Hz.
  destruct (if Req_dec_T Exx 0 then _ else _) as [dx_ mx_].
  destruct (if Req_dec_T Eyy 0 then _ else _) as [dy_ my_].
  destruct (if Req_dec_T (- (Exx + Eyy)) 0 then _ else _) as [dz_ mz_].
  simpl. auto.
Qed.

(** *** C4: the Courant step *)

(** the three-way minimum of [courant_dt], away from the infinite bound *)
Lemma courant_dt_min (dt_prev g dtmax_ : R) :
  g <> 0 ->
  courant_dt dt_prev g dtmax_ = Rmin (Rmin (dt_prev * 1.1) (1 / g)) dtmax_.
Proof.
  intros Hg. unfold courant_dt. destruct (Req_dec_T g 0); [contradiction|].
  unfold Rmin.
  destruct (Rgt_dec (dt_prev * 1.1) (1 / g)), (Rle_dec (dt_prev * 1.1) (1 / g));
    try lra;
    match goal with
    | |- context [Rgt_dec ?a ?b] =>
        destruct (Rgt_dec a b), (Rle_dec a b); try lra
    end.
Qed.

(** the new step never exceeds 1.1 times the old one, nor the ceiling *)
Lemma courant_dt_bounds (dt_prev g dtmax_ : R) :
  courant_dt dt_prev g dtmax_ <= dt_prev * 1.1 /\
  courant_dt dt_prev g dtmax_ <= dtmax_.
Proof.
  unfold courant_dt.
  destruct (Req_dec_T g 0).
  - destruct (Rgt_dec (dt_prev * 1.1) dtmax_); lra.
  - destruct (Rgt_dec (dt_prev * 1.1) (1 / g));
      match goal with
      | |- context [Rgt_dec ?a ?b] => destruct (Rgt_dec a b); lra
      end.
Qed.

(** decide the comparisons between numerals that a computation meets *)
Ltac rdec1 :=
  match goal with
  | |- context [Rlt_dec ?a ?b] =>
      first [destruct (Rlt_dec a b); [exfalso; lra|]
            | destruct (Rlt_dec a b); [|exfalso; lra]]
  | |- context [Rgt_dec ?a ?b] =>
      first [destruct (Rgt_dec a b); [exfalso; lra|]
            | destruct (Rgt_dec a b); [|exfalso; lra]]
  | |- context [Rge_dec ?a ?b] =>
      first [destruct (Rge_dec a b); [exfalso; lra|]
            | destruct (Rge_dec a b); [|exfalso; lra]]
  | |- context [Rle_dec ?a ?b] =>
      first [destruct (Rle_dec a b); [exfalso; lra|]
            | destruct (Rle_dec a b); [|exfalso; lra]]
  | |- context [Req_dec_T ?a ?b] =>
      first [destruct (Req_dec_T a b); [exfalso; lra|]
            | destruct (Req_dec_T a b); [|exfalso; lra]]
  end.
Ltac rdec := repeat (rdec1; simpl).

(** the x axis of the example, as the code scans it: the point with the
    velocity -4 contributes -4, which never raises the maximum *)
Lemma backward_x_axis :
  getMaxInvStep1DLocal ds_line (da_box 3 1 1) vx_backward 0 0 = 1 / 2.
Proof.
  unfold getMaxInvStep1DLocal.
  cbv [std_loop for_loop da_box da_sx da_sy da_sz da_nx da_ny da_nz].
  simpl Z.to_nat. cbv [for_count].
  cbv [vx_backward get3 set3 zero3 ds_line ncoor h_uni upd zeroInt zeroScal].
  simpl. rdec. lra.
Qed.

(** a uniform axis without velocity leaves the maximum as it is *)
Lemma still_axis ds da dir m :
  ~ h_uni ds < 0 -> 0 <= m -> getMaxInvStep1DLocal ds da zero3 dir m = m.
Proof.
  intros Hu Hm. unfold getMaxInvStep1DLocal.
  destruct (Rlt_dec (h_uni ds) 0); [contradiction|].
  assert (Hv : for_loop 0 (VecGetLocalSize da)
                 (fun jj vmax => let v := Rabs (VecGetArray da zero3 jj) in
                                 if Rgt_dec v vmax then v else vmax) 0 = 0).
  { destruct (Z_le_gt_dec 0 (VecGetLocalSize da)).
    - apply (for_loop_inv (fun _ v => v = 0)); [assumption | reflexivity |].
      intros i t _ ->. unfold VecGetArray, zero3. cbv zeta. rewrite Rabs_R0.
      destruct (Rgt_dec 0 0); reflexivity.
    - apply for_loop_empty. lia. }
  cbv zeta in Hv |- *. rewrite Hv. unfold Rdiv. rewrite Rmult_0_l.
  destruct (Rgt_dec 0 m); [lra | reflexivity].
Qed.

(** the x axis of the example in the claim's words, for either reading of
    the upwind cell: the point with the velocity -4 has a cell of width 1
    on both sides and contributes 4 *)
Lemma claimed_x_axis_behind :
  claimed_axis_max cell_behind ds_line (da_box 3 1 1) vx_backward 0 0 = 4.
Proof.
  unfold claimed_axis_max.
  cbv [std_loop for_loop da_box da_sx da_sy da_sz da_nx da_ny da_nz].
  simpl Z.to_nat. cbv [for_count].
  cbv [vx_backward get3 set3 zero3 ds_line ncoor h_uni upd zeroInt zeroScal
       cell_behind].
  remember Rabs as ab eqn:Hab. simpl. subst ab.
  rewrite Rabs_R0, (Rabs_pos_eq 1), (Rabs_left (-4)) by lra.
  remember Rmax as mx eqn:Hmx. rdec. subst mx.
  unfold Rmax. rdec. lra.
Qed.

Lemma claimed_x_axis_ahead :
  claimed_axis_max cell_ahead ds_line (da_box 3 1 1) vx_backward 0 0 = 4.
Proof.
  unfold claimed_axis_max.
  cbv [std_loop for_loop da_box da_sx da_sy da_sz da_nx da_ny da_nz].
  simpl Z.to_nat. cbv [for_count].
  cbv [vx_backward get3 set3 zero3 ds_line ncoor h_uni upd zeroInt zeroScal
       cell_ahead].
  remember Rabs as ab eqn:Hab. simpl. subst ab.
  rewrite Rabs_R0, (Rabs_pos_eq 1), (Rabs_left (-4)) by lra.
  remember Rmax as mx eqn:Hmx. rdec. subst mx.
  unfold Rmax. rdec. lra.
Qed.

Lemma claimed_still_axis pick ds da axis m :
  ~ h_uni ds < 0 -> 0 <= m -> claimed_axis_max pick ds da zero3 axis m = m.
Proof.
  intros Hu Hm. unfold claimed_axis_max.
  destruct (Rlt_dec (h_uni ds) 0); [contradiction|].
  assert (Hv : for_loop 0 (VecGetLocalSize da)
                 (fun jj m => Rmax m (Rabs (VecGetArray da zero3 jj))) 0 = 0).
  { destruct (Z_le_gt_dec 0 (VecGetLocalSize da)).
    - apply (for_loop_inv (fun _ v => v = 0)); [assumption | reflexivity |].
      intros i t _ ->. unfold VecGetArray, zero3. rewrite Rabs_R0.
      apply Rmax_left. lra.
    - apply for_loop_empty. lia. }
  rewrite Hv. unfold Rdiv. rewrite Rmult_0_l. apply Rmax_left. exact Hm.
Qed.

(** the step of the claim in the example, from the largest inverse step
    of its x axis *)
Lemma claimed_backward_dt pick :
  claimed_axis_max pick ds_line (da_box 3 1 1) vx_backward 0 0 = 4 ->
  claimed_courant_dt pick jr_backward = 1 / 4.
Proof.
  intros Hx. unfold claimed_courant_dt.
  change (fs jr_backward) with fs_line.
  change (dsx fs_line) with ds_line. change (dsy fs_line) with ds_unit.
  change (dsz fs_line) with ds_unit.
  change (DA_X fs_line) with (da_box 3 1 1).
  change (gvx jr_backward) with vx_backward.
  change (gvy jr_backward) with zero3. change (gvz jr_backward) with zero3.
  rewrite Hx.
  rewrite (claimed_still_axis pick ds_unit (DA_Y fs_line)) by (cbv [h_uni ds_unit]; lra).
  rewrite (claimed_still_axis pick ds_unit (DA_Z fs_line)) by (cbv [h_uni ds_unit]; lra).
  cbv [ts ts_dt jr_backward jr_line Cmax dtmax].
  unfold Rmin. rdec. lra.
Qed.

(** on a uniform axis the code and the claim agree *)
Lemma uniform_axis_agrees pick ds da gv dir axis m :
  ~ h_uni ds < 0 ->
  getMaxInvStep1DLocal ds da gv dir m = claimed_axis_max pick ds da gv axis m.
Proof.
  intros Hu. unfold getMaxInvStep1DLocal, claimed_axis_max.
  destruct (Rlt_dec (h_uni ds) 0); [contradiction|]. cbv zeta.
  assert (Hmax : forall a b, (if Rgt_dec b a then b else a) = Rmax a b).
  { intros a b. unfold Rmax.
    destruct (Rgt_dec b a), (Rle_dec a b); try reflexivity; lra. }
  rewrite (for_loop_ext
             (fun jj vmax => if Rgt_dec (Rabs (VecGetArray da gv jj)) vmax
                             then Rabs (VecGetArray da gv jj) else vmax)
             (fun jj vmax => Rmax vmax (Rabs (VecGetArray da gv jj))))
    by (intros; apply Hmax).
  apply Hmax.
Qed.

(** whatever the velocity, the new step exceeds neither 1.1 times the old
    one nor the ceiling, and the old step is kept as the previous one *)
Lemma JacResGetCourantStep_bounds (others : list R) (jr : JacRes) :
  let t' := ts (JacResGetCourantStep others jr) in
  ts_dt t' <= ts_dt (ts jr) * 1.1 /\ ts_dt t' <= dtmax (ts jr) /\
  ts_pdt t' = ts_dt (ts jr).
Proof.
  cbv zeta. unfold JacResGetCourantStep. cbv [set_ts ts ts_dt ts_pdt].
  split; [|split]; try reflexivity; apply courant_dt_bounds.
Qed.

(** C4 (the code departs from the claim).  On an axis of variable spacing
    the code takes [v/h] with its sign, so a point where the flow runs
    backwards never raises the maximum.  In the example (x velocities -4, 1
    and 0 at the nodes 0, 1, 3 of the x axis; previous step 10, Courant
    number 1, ceiling 100) the code finds the largest inverse step 1/2 and
    returns the new step 2, whereas the step of the claim, with [|v|/h] at
    every point, is 1/4 for either reading of the upwind cell. *)
Theorem C4_courant_step_backward_flow :
  ts_dt (ts (JacResGetCourantStep [] jr_backward)) = 2 /\
  claimed_courant_dt cell_behind jr_backward = 1 / 4 /\
  claimed_courant_dt cell_ahead jr_backward = 1 / 4.
Proof.
  split; [|split].
  - unfold JacResGetCourantStep.
    change (fs jr_backward) with fs_line.
    change (dsx fs_line) with ds_line. change (dsy fs_line) with ds_unit.
    change (dsz fs_line) with ds_unit.
    change (DA_X fs_line) with (da_box 3 1 1).
    change (gvx jr_backward) with vx_backward.
    change (gvy jr_backward) with zero3. change (gvz jr_backward) with zero3.
    rewrite backward_x_axis.
    rewrite (still_axis ds_unit (DA_Y fs_line)) by (cbv [h_uni ds_unit]; lra).
    rewrite (still_axis ds_unit (DA_Z fs_line)) by (cbv [h_uni ds_unit]; lra).
    cbv [set_ts ts ts_dt jr_backward jr_line Cmax dtmax].
    unfold courant_dt. rdec. lra.
  - apply claimed_backward_dt. exact claimed_x_axis_behind.
  - apply claimed_backward_dt. exact claimed_x_axis_ahead.
Qed.

(** *** C6: the coordinates of a distributed axis *)

Lemma istart_mono ms :
  segments_ok ms ->
  forall i j, (0 <= i <= j)%Z -> (j <= nsegs ms)%Z -> (istart ms i <= istart ms j)%Z.
Proof.
  intros (_ & _ & Hstep) i j Hij Hj.
  replace j with (i + Z.of_nat (Z.to_nat (j - i)))%Z by lia.
  assert (Hgen : forall n, (i + Z.of_nat n <= nsegs ms)%Z ->
                           (istart ms i <= istart ms (i + Z.of_nat n))%Z).
  { induction n as [|n IH]; intros Hn.
    - rewrite Z.add_0_r. lia.
    - specialize (Hstep (i + Z.of_nat n)%Z).
      replace (i + Z.of_nat (S n))%Z with (i + Z.of_nat n + 1)%Z by lia. lia. }
  apply Hgen. lia.
Qed.

Lemma node_from_at ms : segments_ok ms ->
  forall left i0 i g,
    (0 <= i0 <= i)%Z -> (i < i0 + Z.of_nat left)%Z -> (i < nsegs ms)%Z ->
    (i0 < i -> istart ms i < g)%Z -> (g <= istart ms (i + 1))%Z ->
    node_from left ms i0 g = seg_node ms i (g - istart ms i).
Proof.
  intros Hok left. induction left as [|left IH]; intros i0 i g Hi Hl Hn Hlow Hup.
  - lia.
  - simpl. destruct (Z.leb_spec g (istart ms (i0 + 1))) as [Hle|Hgt].
    + destruct (Z.eq_dec i0 i) as [->|Hne]; [reflexivity|].
      pose proof (istart_mono ms Hok (i0 + 1) i). lia.
    + destruct (Z.eq_dec i0 i) as [->|Hne]; [lia|].
      apply IH; lia.
Qed.

Lemma node_coord_in_segment ms i g :
  segments_ok ms -> (0 <= i < nsegs ms)%Z ->
  (0 < i -> istart ms i < g)%Z -> (g <= istart ms (i + 1))%Z ->
  node_coord ms g = seg_node ms i (g - istart ms i).
Proof.
  intros Hok Hi Hlow Hup. unfold node_coord.
  apply node_from_at; try assumption; lia.
Qed.

(** where no divisor is zero and the block lies in the buffer, the checked
    call is the call *)
Lemma divides_by_zero_no ms i :
  (1 <= istart ms (i + 1) - istart ms i)%Z ->
  biases ms i = 1 \/
  ((2 <= istart ms (i + 1) - istart ms i)%Z /\ 1 + biases ms i <> 0) ->
  divides_by_zero ms i = false.
Proof.
  intros HM Hb. unfold divides_by_zero. cbv zeta.
  destruct (Req_dec_T (biases ms i) 1) as [Hone|Hne].
  - apply Z.eqb_neq. lia.
  - destruct Hb as [Hb|[HM2 Hb]]; [contradiction|].
    destruct (Req_dec_T (1 + biases ms i) 0) as [Hz|_]; [contradiction|].
    apply orb_false_iff. split; apply Z.eqb_neq; lia.
Qed.

Lemma MeshSeg1DGenCoord_checked_some lo hi ms i nl ist crd mem :
  divides_by_zero ms i = false ->
  (1 <= nl)%Z -> (lo <= crd)%Z -> (crd + nl - 1 <= hi)%Z ->
  MeshSeg1DGenCoord_checked lo hi ms i nl ist crd mem =
  Some (MeshSeg1DGenCoord ms i nl ist crd mem).
Proof.
  intros Hdiv Hnl Hlo Hhi. unfold MeshSeg1DGenCoord_checked. cbv zeta.
  rewrite Hdiv. unfold in_buffer.
  replace (lo <=? crd)%Z with true by (symmetry; apply Z.leb_le; lia).
  replace (crd <=? hi)%Z with true by (symmetry; apply Z.leb_le; lia).
  replace (lo <=? crd + nl - 1)%Z with true by (symmetry; apply Z.leb_le; lia).
  replace (crd + nl - 1 <=? hi)%Z with true by (symmetry; apply Z.leb_le; lia).
  simpl. rewrite orb_true_r, orb_true_r. reflexivity.
Qed.

(** the segment loop fills the block [crd .. crd+n) with the coordinates of
    the nodes [ps .. ps+n) and leaves the entries before the block alone *)
Lemma gen_segments_spec lo hi ms : segments_ok ms -> biases_ok ms ->
  forall left i ps crd n mem,
    Z.of_nat left = (nsegs ms - i)%Z -> (0 <= i)%Z -> (0 <= n)%Z ->
    (ps + n <= istart ms (nsegs ms) + 1)%Z ->
    ((0 < n)%Z -> (istart ms i < ps \/ (i = 0 /\ ps = 0))%Z) ->
    ((0 < n)%Z -> (lo <= crd /\ crd + n - 1 <= hi)%Z) ->
    ((0 < n)%Z ->
     forall j, (i <= j < nsegs ms)%Z -> ps <> (istart ms (j + 1) + 1)%Z) ->
    exists mem',
      gen_segments left lo hi ms i ps crd n mem = Some mem' /\
      (forall l, (0 <= l < n)%Z -> mem' (crd + l)%Z = node_coord ms (ps + l)) /\
      (forall x, (x < crd)%Z -> mem' x = mem x).
Proof.
  intros Hok Hbias left.
  pose proof Hok as (Hseg & Hist0 & Hstep).
  induction left as [|left IH];
    intros i ps crd n mem Hleft Hi Hn Hfit Hpos0 Hbuf0 Hclear0.
  - (* no segment is left: nothing may remain to be generated *)
    assert (i = nsegs ms) by lia. subst i.
    assert (n = 0)%Z by lia. subst n.
    exists mem. simpl. split; [reflexivity|]. split; [intros; lia | reflexivity].
  - simpl. destruct (Z.eqb_spec n 0) as [->|Hn0].
    { exists mem. split; [reflexivity|]. split; [intros; lia | reflexivity]. }
    assert (Hpos : (istart ms i < ps \/ (i = 0 /\ ps = 0))%Z) by (apply Hpos0; lia).
    assert (Hbuf : (lo <= crd /\ crd + n - 1 <= hi)%Z) by (apply Hbuf0; lia).
    assert (Hclear : forall j, (i <= j < nsegs ms)%Z ->
                               ps <> (istart ms (j + 1) + 1)%Z)
      by (apply Hclear0; lia).
    assert (Hin : (0 <= i < nsegs ms)%Z) by lia.
    assert (Hps : (istart ms i <= ps)%Z).
    { destruct Hpos as [?|[-> ->]]; lia. }
    destruct (Z.ltb_spec (istart ms (i + 1) - ps + 1) 0) as [Hskip|Hhere].
    + (* the segment ends before the block *)
      destruct (IH (i + 1)%Z ps crd n mem) as (mem' & Hrun & Hall & Hfr);
        try lia.
      { intros _ j Hj. apply Hclear. lia. }
      exists mem'. repeat split; assumption.
    + set (nl0 := (istart ms (i + 1) - ps + 1)%Z) in *.
      assert (Hnl0 : (1 <= nl0)%Z).
      { specialize (Hclear i ltac:(lia)). unfold nl0. lia. }
      set (nl := if Z.gtb nl0 n then n else nl0).
      assert (Hnl : (1 <= nl <= n /\ nl <= nl0)%Z).
      { unfold nl. destruct (Z.gtb_spec nl0 n); lia. }
      set (ist := (ps - istart ms i)%Z).
      rewrite MeshSeg1DGenCoord_checked_some; try lia.
      2:{ apply divides_by_zero_no; [specialize (Hstep i Hin); lia|].
          now apply Hbias. }
      set (mem1 := MeshSeg1DGenCoord ms i nl ist crd mem).
      assert (Hnext : (0 < n - nl -> nl = nl0)%Z).
      { unfold nl. destruct (Z.gtb_spec nl0 n); lia. }
      destruct (IH (i + 1)%Z (ps + nl)%Z (crd + nl)%Z (n - nl)%Z mem1)
        as (mem' & Hrun & Hall & Hfr); try lia.
      { intros Hrest j Hj. specialize (Hnext Hrest).
        pose proof (istart_mono ms Hok (i + 1) j ltac:(lia) ltac:(lia)).
        specialize (Hstep j ltac:(lia)). unfold nl0 in *. lia. }
      exists mem'. split; [exact Hrun|].
      assert (Hseg_at : forall l, (0 <= l < nl)%Z ->
                mem1 (crd + l)%Z = node_coord ms (ps + l)).
      { intros l Hl. unfold mem1.
        rewrite MeshSeg1DGenCoord_at by (unfold ist, nl0 in *; lia).
        rewrite (node_coord_in_segment ms i); try assumption.
        - f_equal. unfold ist. lia.
        - intros Hi0. destruct Hpos as [?|[? ?]]; lia.
        - unfold nl0 in *. lia. }
      split.
      * intros l Hl. destruct (Z_lt_le_dec l nl) as [Hlt|Hge].
        -- (* generated in this segment, kept by the later ones *)
           rewrite Hfr by lia. now apply Hseg_at.
        -- replace (crd + l)%Z with (crd + nl + (l - nl))%Z by lia.
           rewrite Hall by lia. f_equal. lia.
      * intros x Hx. rewrite Hfr by lia. unfold mem1.
        apply MeshSeg1DGenCoord_frame; unfold ist; lia.
Qed.

Lemma MeshSeg1DCreate_ends beg end_ tncels msi :
  (0 <= msi_nsegs msi)%Z ->
  let ms := MeshSeg1DCreate beg end_ tncels msi in
  (1 <= nsegs ms)%Z /\ istart ms 0 = 0%Z /\ istart ms (nsegs ms) = tncels /\
  xstart ms 0 = beg /\ xstart ms (nsegs ms) = end_.
Proof.
  intros Hn. unfold MeshSeg1DCreate.
  destruct (Z.eqb_spec (msi_nsegs msi) 0) as [Hz|Hz].
  - simpl. repeat split; try reflexivity; lia.
  - destruct (for_loop 0 (msi_nsegs msi - 1) _ _) as [[cnt ist] xst]. simpl.
    rewrite !upd_same.
    rewrite (upd_other _ (msi_nsegs msi) 0%Z tncels) by lia.
    rewrite (upd_other _ (msi_nsegs msi) 0%Z end_) by lia.
    rewrite !upd_same.
    repeat split; try reflexivity; lia.
Qed.

(** the first node of the axis lies at the start of the first segment, the
    last node at the end of the last one *)
Lemma node_coord_first ms :
  segments_ok ms -> node_coord ms 0 = xstart ms 0.
Proof.
  intros Hok. pose proof Hok as (Hseg & Hist0 & Hstep).
  rewrite (node_coord_in_segment ms 0) by (try assumption; try lia;
    specialize (Hstep 0%Z); lia).
  unfold seg_node, seg_formula. rewrite Hist0.
  specialize (Hstep 0%Z). simpl (0 + 1)%Z in *. rewrite Hist0 in Hstep.
  destruct (Z.eqb_spec (0 - 0) (istart ms 1 - 0)) as [He|_]; [lia|].
  simpl (0 - 0)%Z. rewrite tri_0.
  destruct (Req_dec_T (biases ms 0) 1); simpl; ring.
Qed.

Lemma node_coord_last ms :
  segments_ok ms ->
  node_coord ms (istart ms (nsegs ms)) = xstart ms (nsegs ms).
Proof.
  intros Hok. pose proof Hok as (Hseg & Hist0 & Hstep).
  assert (Hgen : forall i, (0 <= i < nsegs ms)%Z ->
            node_coord ms (istart ms (i + 1)) = xstart ms (i + 1)).
  { intros i Hi. rewrite (node_coord_in_segment ms i); try assumption; try lia.
    - unfold seg_node. now rewrite Z.eqb_refl.
    - intros _. specialize (Hstep i Hi). lia. }
  specialize (Hgen (nsegs ms - 1)%Z).
  replace (nsegs ms - 1 + 1)%Z with (nsegs ms) in Hgen by lia.
  apply Hgen. lia.
Qed.

Lemma GetMinMax_ncoor peers ds ms :
  ncoor (Discret1DGetMinMaxCellSize peers ds ms) = ncoor ds.
Proof.
  unfold Discret1DGetMinMaxCellSize.
  destruct (for_loop 1 (ncels ds) _ _) as [a b].
  destruct (Z.eqb (nproc ds) 1);
    match goal with |- context [Rlt_dec ?a ?b] => destruct (Rlt_dec a b) end;
    reflexivity.
Qed.

Lemma Discret1DGenCoord_spec peers ds ms :
  segments_ok ms -> generation_defined ds ms ->
  (0 <= pstart ds + gen_lo ds)%Z ->
  (pstart ds + gen_hi ds <= istart ms (nsegs ms) + 1)%Z ->
  (gen_lo ds <= gen_hi ds)%Z ->
  exists loc,
    Discret1DGenCoord peers ds ms = Some loc /\
    forall l, (gen_lo ds <= l < gen_hi ds)%Z ->
              ncoor loc l = node_coord ms (pstart ds + l).
Proof.
  intros Hok (Hins & Hbuf & Hbias & Hclear) Hlo Hhi Hle.
  unfold Discret1DGenCoord. rewrite Hins. simpl negb. cbv iota.
  unfold starts_clear, gen_lo, gen_hi in *.
  pose proof Hok as (Hseg & Hist0 & Hstep).
  destruct (Z.eqb_spec (grprev ds) (-1)) as [Hp|Hp];
    destruct (Z.eqb_spec (grnext ds) (-1)) as [Hq|Hq];
    match goal with
    | |- context [gen_segments ?left ?lo ?hi ms 0 ?ps ?crd ?n ?mem] =>
        destruct (gen_segments_spec lo hi ms Hok Hbias left 0%Z ps crd n mem)
          as (mem' & Hrun & Hall & _); try lia;
        try (intros _ j Hj; specialize (Hclear j ltac:(lia)); lia)
    end;
    rewrite Hrun; eexists; (split; [reflexivity|]);
    intros l Hl; rewrite GetMinMax_ncoor; simpl ncoor;
    repeat rewrite upd_other by lia.
  - replace l with (0 + l)%Z at 1 by lia. now rewrite Hall by lia.
  - replace l with (0 + l)%Z at 1 by lia. now rewrite Hall by lia.
  - replace l with (0 - 1 + (l + 1))%Z at 1 by lia. rewrite Hall by lia.
    f_equal. lia.
  - replace l with (0 - 1 + (l + 1))%Z at 1 by lia. rewrite Hall by lia.
    f_equal. lia.
Qed.

(** a process that [Discret1DCreate] gives one node or more has a buffer
    that holds every node [Discret1DGenCoord] touches *)
Lemma Discret1DCreate_buffer ds0 np r nn col gp gn :
  (1 <= nn r)%Z ->
  let ds := Discret1DCreate ds0 np r nn col gp gn in
  nodes_inside ds = true /\ (gen_hi ds <= bufsz ds - 1)%Z.
Proof.
  intros Hnn. unfold Discret1DCreate.
  destruct (for_loop 0 np _ _) as [cnt st]. cbv zeta.
  unfold nodes_inside, gen_hi. simpl.
  destruct (Z.eqb gn (-1)); simpl; split; try lia;
    repeat (apply andb_true_iff; split); try apply Z.leb_le; lia.
Qed.

(** the generation of the whole axis on one process makes no empty call *)
Lemma starts_clear_first ds ms :
  segments_ok ms -> (pstart ds + gen_lo ds = 0)%Z -> starts_clear ds ms.
Proof.
  intros Hok H0 i Hi. rewrite H0.
  pose proof (istart_mono ms Hok 0 (i + 1)) as Hm.
  destruct Hok as (_ & Hist0 & _). lia.
Qed.

Lemma Discret1DCreate_sequential ds0 tn col :
  let seq := Discret1DCreate ds0 1 0 (fun _ => tn) col (-1) (-1) in
  pstart seq = 0%Z /\ nnods seq = tn /\ gen_lo seq = 0%Z /\ gen_hi seq = tn.
Proof. cbv zeta. repeat split; reflexivity. Qed.

(** C6. On an axis made by [MeshSeg1DCreate] with any segments of one cell
    or more each and with biases that keep the divisions defined, the
    sequential generation puts the node 0 exactly at [beg] and the last
    node exactly at [end]; and for a process of any partition (a rank
    created by [Discret1DCreate] with one node or more, its block of own
    and ghost nodes inside the axis and not starting directly after the
    last node of a segment), every node that [Discret1DGenCoord] generates there has
    exactly the coordinate the sequential generation gives to the node with
    the same global index. *)
Theorem C6_distributed_coordinates
    (peers peers1 : list (R * R)) (ds0 ds1 : Discret1D)
    (beg end_ : R) (tncels : Z) (msi : MeshSegInp)
    (nproc_ rank_ : Z) (nnodProc : Z -> Z) (col col1 grprev_ grnext_ : Z) :
  let ms := MeshSeg1DCreate beg end_ tncels msi in
  let seq := Discret1DCreate ds1 1 0 (fun _ => (tncels + 1)%Z) col1 (-1) (-1) in
  let ds := Discret1DCreate ds0 nproc_ rank_ nnodProc col grprev_ grnext_ in
  (0 <= msi_nsegs msi)%Z ->
  (forall i, (0 <= i < nsegs ms)%Z -> (istart ms i < istart ms (i + 1))%Z) ->
  biases_ok ms ->
  (0 <= rank_ < nproc_)%Z -> (1 <= nnodProc rank_)%Z ->
  starts_clear ds ms ->
  (0 <= pstart ds + gen_lo ds)%Z ->
  (pstart ds + gen_hi ds <= tncels + 1)%Z ->
  (gen_lo ds <= gen_hi ds)%Z ->
  exists one loc,
    Discret1DGenCoord peers1 seq ms = Some one /\
    Discret1DGenCoord peers ds ms = Some loc /\
    ncoor one 0 = beg /\ ncoor one tncels = end_ /\
    forall l, (gen_lo ds <= l < gen_hi ds)%Z ->
              ncoor loc l = ncoor one (pstart ds + l).
Proof.
  intros ms seq ds Hn Hcells Hbias _ Hnn Hclear Hlo Hhi Hle.
  destruct (MeshSeg1DCreate_ends beg end_ tncels msi Hn)
    as (Hseg & Hi0 & Hin & Hx0 & Hxn). fold ms in Hseg, Hi0, Hin, Hx0, Hxn.
  assert (Hok : segments_ok ms) by (repeat split; assumption).
  assert (Htn : (1 <= tncels)%Z).
  { rewrite <- Hin. pose proof (istart_mono ms Hok 1 (nsegs ms)).
    specialize (Hcells 0%Z). simpl (0 + 1)%Z in Hcells. lia. }
  destruct (Discret1DCreate_sequential ds1 (tncels + 1)%Z col1)
    as (Hsp & Hsn & Hslo & Hshi). fold seq in Hsp, Hsn, Hslo, Hshi.
  assert (Hdef1 : generation_defined seq ms).
  { destruct (Discret1DCreate_buffer ds1 1 0 (fun _ => (tncels + 1)%Z) col1
                (-1) (-1) ltac:(lia)) as [Ha Hb].
    repeat split; try assumption.
    apply starts_clear_first; [exact Hok | rewrite Hsp, Hslo; reflexivity]. }
  assert (Hdef : generation_defined ds ms).
  { destruct (Discret1DCreate_buffer ds0 nproc_ rank_ nnodProc col grprev_
                grnext_ Hnn) as [Ha Hb].
    repeat split; assumption. }
  destruct (Discret1DGenCoord_spec peers1 seq ms Hok Hdef1)
    as (one & Hone & Hall1);
    [rewrite Hsp, Hslo; lia | rewrite Hsp, Hshi, Hin; lia
    | rewrite Hslo, Hshi; lia |].
  destruct (Discret1DGenCoord_spec peers ds ms Hok Hdef) as (loc & Hloc & Hall);
    [exact Hlo | rewrite Hin; exact Hhi | exact Hle |].
  rewrite Hsp, Hslo, Hshi in Hall1.
  exists one, loc. split; [exact Hone|]. split; [exact Hloc|].
  split; [|split].
  - rewrite Hall1 by lia. simpl (0 + 0)%Z.
    now rewrite node_coord_first, Hx0.
  - rewrite Hall1 by lia. simpl (0 + tncels)%Z.
    rewrite <- Hin at 1. now rewrite node_coord_last, Hxn.
  - intros l Hl. rewrite Hall by exact Hl.
    rewrite Hall1 by lia. reflexivity.
Qed.

(** *** C1: the continuity residual *)





(** **** a run with routines that never fail comes back *)








(** *** Further properties: the Courant step *)

Lemma for_loop_keeps {St} (P : St -> Prop) (body : Z -> St -> St) lo hi s :
  P s -> (forall i t, P t -> P (body i t)) -> P (for_loop lo hi body s).
Proof.
  intros H0 Hstep. unfold for_loop. generalize (Z.to_nat (hi - lo)) as n.
  intros n. revert lo s H0. induction n as [|n IH]; intros lo s H0; simpl.
  - exact H0.
  - apply IH. now apply Hstep.
Qed.

Lemma std_loop_keeps {St} (P : St -> Prop) (body : Z -> Z -> Z -> St -> St)
    sx sy sz nx ny nz s :
  P s -> (forall k j i t, P t -> P (body k j i t)) ->
  P (std_loop sx sy sz nx ny nz body s).
Proof.
  intros H0 Hstep. unfold std_loop.
  apply for_loop_keeps; [exact H0|]. intros k t Ht.
  apply for_loop_keeps; [exact Ht|]. intros j t' Ht'.
  apply for_loop_keeps; [exact Ht'|]. intros i t'' Ht''. now apply Hstep.
Qed.

(** the scan of an axis never lowers the running maximum *)
Lemma getMaxInvStep1DLocal_ge ds da gv dir m :
  m <= getMaxInvStep1DLocal ds da gv dir m.
Proof.
  unfold getMaxInvStep1DLocal. destruct (Rlt_dec (h_uni ds) 0).
  - apply (std_loop_keeps (fun t => m <= t)); [lra|].
    intros k j i t Ht. cbv zeta.
    match goal with |- context [Rgt_dec ?a ?b] => destruct (Rgt_dec a b) end; lra.
  - cbv zeta.
    match goal with |- context [Rgt_dec ?a ?b] => destruct (Rgt_dec a b) end; lra.
Qed.

Lemma Allreduce_MAX_ge peers l : l <= Allreduce_MAX peers l.
Proof.
  unfold Allreduce_MAX. induction peers as [|a peers IH]; simpl; [lra|].
  eapply Rle_trans; [exact IH | apply Rmax_r].
Qed.

Lemma Allreduce_MIN_le peers l : Allreduce_MIN peers l <= l.
Proof.
  unfold Allreduce_MIN. induction peers as [|a peers IH]; simpl; [lra|].
  eapply Rle_trans; [apply Rmin_r | exact IH].
Qed.

(** X1. With a positive previous step, Courant number and
    ceiling, on a grid whose three scans are defined (the cells looked up
    on an axis of variable spacing lie in its buffer and have a positive
    width, the step of a uniform axis is positive), the step that
    [JacResGetCourantStep] stores is positive and exceeds neither 1.1 times
    the previous step nor the ceiling, for any velocity and any
    contributions of the other processes; the previous step is kept in
    [pdt]. *)
Theorem JacResGetCourantStep_range (others : list R) (jr : JacRes) :
  0 < ts_dt (ts jr) -> 0 < Cmax (ts jr) -> 0 < dtmax (ts jr) ->
  scan_defined (dsx (fs jr)) (DA_X (fs jr)) ->
  scan_defined (dsy (fs jr)) (DA_Y (fs jr)) ->
  scan_defined (dsz (fs jr)) (DA_Z (fs jr)) ->
  let t' := ts (JacResGetCourantStep others jr) in
  0 < ts_dt t' /\ ts_dt t' <= 1.1 * ts_dt (ts jr) /\
  ts_dt t' <= dtmax (ts jr) /\ ts_pdt t' = ts_dt (ts jr).
Proof.
  intros Hdt HC Hmax _ _ _. cbv zeta. unfold JacResGetCourantStep.
  cbv [set_ts ts ts_dt ts_pdt]. fold (ts jr). fold (ts_dt (ts jr)).
  set (l := getMaxInvStep1DLocal _ _ _ 0 (getMaxInvStep1DLocal _ _ _ 0
              (getMaxInvStep1DLocal _ _ _ 0 0))).
  assert (Hl : 0 <= l).
  { unfold l. eapply Rle_trans; [|apply getMaxInvStep1DLocal_ge].
    eapply Rle_trans; [|apply getMaxInvStep1DLocal_ge].
    apply getMaxInvStep1DLocal_ge. }
  set (g := match others with [] => l | _ :: _ => Allreduce_MAX others l end).
  assert (Hg : 0 <= g).
  { unfold g. destruct others; [exact Hl|].
    eapply Rle_trans; [exact Hl | apply Allreduce_MAX_ge]. }
  assert (Hq : 0 <= g / Cmax (ts jr)).
  { apply Rmult_le_pos; [exact Hg|]. left. now apply Rinv_0_lt_compat. }
  pose proof (courant_dt_bounds (ts_dt (ts jr)) (g / Cmax (ts jr)) (dtmax (ts jr)))
    as [Hb1 Hb2].
  split; [|split; [lra | split; [exact Hb2 | reflexivity]]].
  unfold courant_dt. destruct (Req_dec_T (g / Cmax (ts jr)) 0) as [Hz|Hz].
  - destruct (Rgt_dec (ts_dt (ts jr) * 1.1) (dtmax (ts jr))); lra.
  - assert (Hinv : 0 < 1 / (g / Cmax (ts jr))).
    { apply Rdiv_lt_0_compat; lra. }
    destruct (Rgt_dec (ts_dt (ts jr) * 1.1) (1 / (g / Cmax (ts jr))));
      match goal with |- context [Rgt_dec ?a ?b] => destruct (Rgt_dec a b) end;
      lra.
Qed.

Lemma claimed_axis_uniform pick ds da gv axis m :
  ~ h_uni ds < 0 ->
  claimed_axis_max pick ds da gv axis m = Rmax m (max_abs da gv / h_uni ds).
Proof.
  intros Hu. unfold claimed_axis_max, max_abs.
  destruct (Rlt_dec (h_uni ds) 0); [contradiction | reflexivity].
Qed.

(** X2. On a grid that is uniform along its three axes,
    on one process, with some velocity and a Courant number other than
    zero, the step that [JacResGetCourantStep] stores is
    [min(1.1*dt, Cmax/idtmax, dtmax)], where [idtmax] is the largest
    [|v|/h_uni] over the owned velocity points of the three axes. *)
Theorem JacResGetCourantStep_uniform_grid (jr : JacRes) :
  ~ h_uni (dsx (fs jr)) < 0 -> ~ h_uni (dsy (fs jr)) < 0 ->
  ~ h_uni (dsz (fs jr)) < 0 ->
  uniform_idtmax jr <> 0 -> Cmax (ts jr) <> 0 ->
  ts_dt (ts (JacResGetCourantStep [] jr)) =
  Rmin (Rmin (1.1 * ts_dt (ts jr)) (Cmax (ts jr) / uniform_idtmax jr))
       (dtmax (ts jr)).
Proof.
  intros Hx Hy Hz Hi HC. unfold JacResGetCourantStep.
  cbv [set_ts ts ts_dt]. fold (ts jr). fold (ts_dt (ts jr)).
  rewrite (uniform_axis_agrees cell_ahead (dsx (fs jr)) _ _ 0 0 0 Hx).
  rewrite (uniform_axis_agrees cell_ahead (dsy (fs jr)) _ _ 0 1 _ Hy).
  rewrite (uniform_axis_agrees cell_ahead (dsz (fs jr)) _ _ 0 2 _ Hz).
  rewrite !claimed_axis_uniform by assumption.
  fold (uniform_idtmax jr).
  rewrite courant_dt_min.
  - f_equal. f_equal; [ring|]. field. split; assumption.
  - intros Hq. apply Hi.
    apply (Rmult_eq_compat_r (Cmax (ts jr))) in Hq.
    unfold Rdiv in Hq. rewrite Rmult_assoc, Rinv_l, Rmult_1_r, Rmult_0_l in Hq
      by exact HC. exact Hq.
Qed.

(** *** Further properties: segments and the decomposition of an axis *)

Lemma sum_below_0 f : sum_below f 0 = 0%Z.
Proof. reflexivity. Qed.

Lemma sum_below_succ f i :
  (0 <= i)%Z -> sum_below f (i + 1) = (sum_below f i + f i)%Z.
Proof.
  intros Hi. unfold sum_below.
  replace (Z.to_nat (i + 1)) with (S (Z.to_nat i)) by lia.
  simpl. now rewrite Z2Nat.id by exact Hi.
Qed.

(** the delimiter loop of [MeshSeg1DCreate] *)
Lemma delimiter_loop (msi : MeshSegInp) (m : Z) :
  (0 <= m)%Z ->
  let r := for_loop 0 m
             (fun i '(cnt, ist, xst) =>
                let cnt := (cnt + msi_ncells msi i)%Z in
                (cnt, upd ist (i + 1) cnt, upd xst (i + 1) (msi_delims msi i)))
             (0%Z, zeroInt, zeroScal) in
  forall i, (1 <= i <= m)%Z ->
    snd (fst r) i = sum_below (msi_ncells msi) i /\
    snd r i = msi_delims msi (i - 1).
Proof.
  intros Hm.
  apply (for_loop_inv
    (fun hi (r : Z * (Z -> Z) * (Z -> R)) =>
       fst (fst r) = sum_below (msi_ncells msi) hi /\
       forall i, (1 <= i <= hi)%Z ->
         snd (fst r) i = sum_below (msi_ncells msi) i /\
         snd r i = msi_delims msi (i - 1))); [exact Hm | |].
  - split; [reflexivity | intros i Hi; lia].
  - intros i [[cnt ist] xst] Hi [Hc Hall]. simpl in Hc, Hall. subst cnt. simpl.
    split; [now rewrite sum_below_succ by lia|].
    intros i' Hi'. destruct (Z.eq_dec i' (i + 1)) as [->|Hne].
    + rewrite !upd_same, sum_below_succ by lia.
      split; [reflexivity | f_equal; lia].
    + rewrite !upd_other by exact Hne. apply Hall. lia.
Qed.

(** X3. [MeshSeg1DCreate] with [n >= 1] input segments: segment [i]
    starts at the node whose index is the number of cells of the
    segments before it and, but for the first, at the delimiter [i-1];
    its bias is the one given; the table is closed by [tncels] and [end].
    So every segment but the last has the cell count of the input, and the
    last one takes what is left of [tncels]: [ncells[n-1]] is not read. *)
Theorem MeshSeg1DCreate_layout (beg end_ : R) (tncels : Z) (msi : MeshSegInp) :
  (1 <= msi_nsegs msi)%Z ->
  let n := msi_nsegs msi in
  let ms := MeshSeg1DCreate beg end_ tncels msi in
  nsegs ms = n /\
  (forall i, (0 <= i < n)%Z ->
     istart ms i = sum_below (msi_ncells msi) i /\
     xstart ms i = (if Z.eqb i 0 then beg else msi_delims msi (i - 1)) /\
     biases ms i = msi_biases msi i) /\
  istart ms n = tncels /\ xstart ms n = end_.
Proof.
  intros Hn n ms. unfold ms, MeshSeg1DCreate. fold n.
  destruct (Z.eqb_spec n 0) as [H0|_]; [lia|].
  pose proof (delimiter_loop msi (n - 1) ltac:(lia)) as Hloop. cbv zeta in Hloop.
  destruct (for_loop 0 (n - 1) _ (0%Z, zeroInt, zeroScal)) as [[cnt ist] xst].
  simpl in Hloop. simpl.
  split; [reflexivity|]. split; [|split; apply upd_same].
  intros i Hi. rewrite !(upd_other _ n) by lia.
  destruct (Z.eqb_spec i 0) as [->|Hi0].
  - rewrite !upd_same. rewrite for_loop_store.
    destruct (Z.leb_spec 0 0), (Z.ltb_spec 0 n); simpl; try lia. auto.
  - rewrite !upd_other by exact Hi0. destruct (Hloop i ltac:(lia)) as [-> ->].
    rewrite for_loop_store.
    destruct (Z.leb_spec 0 i), (Z.ltb_spec i n); simpl; try lia. auto.
Qed.

(** X4. [Discret1DCreate] on rank [r] of [np], where the last
    rank and only the last has no next process: the first node of every rank
    is the number of nodes of the ranks before it, the table ends with the
    index of the last node, which is the number of cells, and the cells of
    the rank are those from its first node up to the first node of the next
    rank. *)
Theorem Discret1DCreate_cells (ds0 : Discret1D) (np r : Z) (nnodProc : Z -> Z)
    (col gp gn : Z) :
  (0 <= r < np)%Z -> (gn = (-1)%Z <-> r = (np - 1)%Z) ->
  let ds := Discret1DCreate ds0 np r nnodProc col gp gn in
  (forall i, (0 <= i < np)%Z -> starts ds i = sum_below nnodProc i) /\
  tnods ds = sum_below nnodProc np /\
  tcels ds = (tnods ds - 1)%Z /\
  starts ds np = tcels ds /\
  pstart ds = starts ds r /\
  nnods ds = nnodProc r /\
  (pstart ds + ncels ds)%Z = starts ds (r + 1).
Proof.
  intros Hr Hlast ds. unfold ds, Discret1DCreate.
  assert (Hloop :
    let q := for_loop 0 np
               (fun i '(cnt, st) => ((cnt + nnodProc i)%Z, upd st i cnt))
               (0%Z, zeroInt) in
    fst q = sum_below nnodProc np /\
    forall i, (0 <= i < np)%Z -> snd q i = sum_below nnodProc i).
  { apply (for_loop_inv
      (fun hi (q : Z * (Z -> Z)) =>
         fst q = sum_below nnodProc hi /\
         forall i, (0 <= i < hi)%Z -> snd q i = sum_below nnodProc i)); [lia | |].
    - split; [reflexivity | intros i Hi; lia].
    - intros i [cnt st] Hi [Hc Hall]. simpl in Hc, Hall. subst cnt. simpl.
      split; [now rewrite sum_below_succ by lia|].
      intros i' Hi'. destruct (Z.eq_dec i' i) as [->|Hne].
      + now rewrite upd_same.
      + rewrite upd_other by exact Hne. apply Hall. lia. }
  cbv zeta in Hloop.
  destruct (for_loop 0 np _ (0%Z, zeroInt)) as [cnt st].
  simpl in Hloop. destruct Hloop as [Hc Hst]. subst cnt. simpl.
  assert (Hat : forall i, (0 <= i < np)%Z ->
            upd st np (sum_below nnodProc np - 1)%Z i = sum_below nnodProc i).
  { intros i Hi. rewrite upd_other by lia. now apply Hst. }
  repeat split; try reflexivity.
  - exact Hat.
  - apply upd_same.
  - rewrite (Hat r Hr).
    destruct (Z.eqb_spec gn (-1)) as [Hg|Hg].
    + assert (Hr1 : r = (np - 1)%Z) by now apply Hlast.
      replace (r + 1)%Z with np by lia. rewrite upd_same.
      replace np with (r + 1)%Z at 1 by lia.
      rewrite sum_below_succ by lia. lia.
    + assert (Hr1 : r <> (np - 1)%Z) by (intros E; apply Hg, Hlast, E).
      rewrite (Hat (r + 1)%Z) by lia. now rewrite sum_below_succ by lia.
Qed.

Lemma gather_recvcnts_at (ds : Discret1D) (r : Z) :
  (0 <= r < nproc ds)%Z ->
  gather_recvcnts ds r =
  if Z.eqb r (nproc ds - 1)
  then (starts ds (nproc ds) - starts ds (nproc ds - 1) + 1)%Z
  else (starts ds (r + 1) - starts ds r)%Z.
Proof.
  intros Hr. unfold gather_recvcnts.
  destruct (Z.eqb_spec r (nproc ds - 1)) as [->|Hne]; [apply upd_same|].
  rewrite upd_other by exact Hne.
  assert (Hgen : forall hi, (0 <= hi)%Z -> forall x,
            for_loop 0 hi
              (fun i rc => upd rc i (starts ds (i + 1) - starts ds i)%Z) zeroInt x =
            if (Z.leb 0 x && Z.ltb x hi)%bool
            then (starts ds (x + 1) - starts ds x)%Z else zeroInt x).
  { intros hi Hhi x.
    apply (for_loop_inv
      (fun h (rc : Z -> Z) =>
         rc x = if (Z.leb 0 x && Z.ltb x h)%bool
                then (starts ds (x + 1) - starts ds x)%Z else zeroInt x));
      [exact Hhi | |].
    - destruct (Z.leb_spec 0 x), (Z.ltb_spec x 0); simpl; try reflexivity; lia.
    - intros i t Hi Ht. destruct (Z.eq_dec x i) as [->|Hx].
      + rewrite upd_same.
        destruct (Z.leb_spec 0 i), (Z.ltb_spec i (i + 1)); simpl;
          try reflexivity; lia.
      + rewrite upd_other by exact Hx. rewrite Ht.
        destruct (Z.leb_spec 0 x), (Z.ltb_spec x i), (Z.ltb_spec x (i + 1));
          simpl; try reflexivity; lia. }
  rewrite Hgen by lia.
  destruct (Z.leb_spec 0 r), (Z.ltb_spec r (nproc ds - 1)); simpl;
    try reflexivity; lia.
Qed.

(** what [MPI_Gatherv] leaves below the end of the last block when the
    blocks follow one another *)
Lemma MPI_Gatherv_blocks (np : Z) (send : Z -> Z -> R) (cnt dsp : Z -> Z)
    (recv : Z -> R) (off : Z -> Z) (X : Z -> R) :
  (0 <= np)%Z -> off 0%Z = 0%Z ->
  (forall r, (0 <= r < np)%Z ->
     (0 <= cnt r)%Z /\ dsp r = off r /\ off (r + 1)%Z = (off r + cnt r)%Z) ->
  (forall r l, (0 <= r < np)%Z -> (0 <= l < cnt r)%Z -> send r l = X (off r + l)%Z) ->
  forall g, (0 <= g < off np)%Z -> MPI_Gatherv np send cnt dsp recv g = X g.
Proof.
  intros Hnp H0 Hlay Hsend. unfold MPI_Gatherv.
  apply (for_loop_inv
    (fun h (buf : Z -> R) => forall g, (0 <= g < off h)%Z -> buf g = X g));
    [exact Hnp | intros g Hg; lia |].
  intros r t Hr Ht g Hg.
  destruct (Hlay r Hr) as (Hc & Hd & Hnext). rewrite Hnext in Hg.
  rewrite for_loop_fill, Hd.
  destruct (Z.leb_spec (off r) g), (Z.ltb_spec g (off r + cnt r)); simpl;
    try lia.
  - rewrite Hsend by lia. f_equal. lia.
  - apply Ht. lia.
Qed.

(** X5. [Discret1DGatherCoord] on rank zero, for an axis laid out by
    [Discret1DCreate] from the node counts [nn]: the receive counts worked
    out from the table of first nodes are the node counts again (the [+1] of
    the last one makes up for the table ending with the index of the last
    node), and when every rank holds the coordinates of its own nodes the
    gathered array holds the coordinate of every node of the axis at its
    global index. *)
Theorem Discret1DGatherCoord_global (ds0 ds : Discret1D) (np : Z)
    (nn : Z -> Z) (col gp gn : Z) (others : Z -> Z -> R) (X : Z -> R) :
  let made := Discret1DCreate ds0 np 0 nn col gp gn in
  (1 <= np)%Z -> (forall r, (0 <= r < np)%Z -> (0 <= nn r)%Z) ->
  nproc ds = np -> rank ds = 0%Z -> tnods ds = tnods made ->
  (forall i, (0 <= i <= np)%Z -> starts ds i = starts made i) ->
  (forall l, (0 <= l < nn 0%Z)%Z -> ncoor ds l = X l) ->
  (forall r l, (1 <= r < np)%Z -> (0 <= l < nn r)%Z ->
     others r l = X (sum_below nn r + l)%Z) ->
  (forall r, (0 <= r < np)%Z -> gather_recvcnts ds r = nn r) /\
  (forall g, (0 <= g < tnods ds)%Z -> Discret1DGatherCoord others ds g = X g).
Proof.
  intros made Hnp Hnn Hp Hrk Htn Hst Hown Hoth.
  (* the table of first nodes *)
  assert (Hmade : (forall i, (0 <= i < np)%Z -> starts made i = sum_below nn i) /\
                  tnods made = sum_below nn np /\
                  starts made np = (sum_below nn np - 1)%Z).
  { unfold made, Discret1DCreate.
    assert (Hloop :
      let q := for_loop 0 np
                 (fun i '(cnt, st) => ((cnt + nn i)%Z, upd st i cnt))
                 (0%Z, zeroInt) in
      fst q = sum_below nn np /\
      forall i, (0 <= i < np)%Z -> snd q i = sum_below nn i).
    { apply (for_loop_inv
        (fun hi (q : Z * (Z -> Z)) =>
           fst q = sum_below nn hi /\
           forall i, (0 <= i < hi)%Z -> snd q i = sum_below nn i)); [lia | |].
      - split; [reflexivity | intros i Hi; lia].
      - intros i [cnt st] Hi [Hc Hall]. simpl in Hc, Hall. subst cnt. simpl.
        split; [now rewrite sum_below_succ by lia|].
        intros i' Hi'. destruct (Z.eq_dec i' i) as [->|Hne].
        + now rewrite upd_same.
        + rewrite upd_other by exact Hne. apply Hall. lia. }
    cbv zeta in Hloop.
    destruct (for_loop 0 np _ (0%Z, zeroInt)) as [cnt st].
    simpl in Hloop. destruct Hloop as [Hc Hs]. subst cnt. simpl.
    repeat split.
    - intros i Hi. rewrite upd_other by lia. now apply Hs.
    - apply upd_same. }
  destruct Hmade as (Hs & Ht & He).
  assert (Hcnt : forall r, (0 <= r < np)%Z -> gather_recvcnts ds r = nn r).
  { intros r Hr. rewrite gather_recvcnts_at by lia. rewrite Hp.
    destruct (Z.eqb_spec r (np - 1)) as [->|Hne].
    - rewrite !Hst by lia. rewrite He, Hs by lia.
      replace np with (np - 1 + 1)%Z at 1 by lia.
      rewrite sum_below_succ by lia. lia.
    - rewrite !Hst by lia. rewrite !Hs by lia.
      rewrite sum_below_succ by lia. lia. }
  split; [exact Hcnt|].
  intros g Hg. rewrite Htn, Ht in Hg. unfold Discret1DGatherCoord.
  rewrite Hp. destruct (Z.eqb_spec np 1) as [H1|H1].
  - rewrite for_loop_store, Htn, Ht.
    destruct (Z.leb_spec 0 g), (Z.ltb_spec g (sum_below nn np)); simpl; try lia.
    apply Hown. rewrite H1 in Hg.
    change (sum_below nn 1) with (0 + nn 0%Z)%Z in Hg. lia.
  - apply (MPI_Gatherv_blocks np _ _ _ _ (sum_below nn)); try assumption.
    + lia.
    + reflexivity.
    + intros r Hr. repeat split.
      * rewrite Hcnt by exact Hr. now apply Hnn.
      * rewrite Hst by lia. now apply Hs.
      * rewrite Hcnt by exact Hr. apply sum_below_succ. lia.
    + intros r l Hr Hl. rewrite Hcnt in Hl by exact Hr. rewrite Hrk.
      destruct (Z.eqb_spec r 0) as [->|Hr0].
      * rewrite sum_below_0. apply Hown. exact Hl.
      * apply Hoth; [lia | exact Hl].
Qed.

(** *** Further properties: the mesh steps of an axis *)

(** the local extremes bound the size of every local cell *)
Lemma local_minmax_bounds (ds : Discret1D) :
  fst (local_minmax ds) <= SIZE_CELL 0 0 ds <= snd (local_minmax ds) /\
  forall i, (0 <= i < ncels ds)%Z ->
    fst (local_minmax ds) <= SIZE_CELL i 0 ds <= snd (local_minmax ds).
Proof.
  unfold local_minmax.
  set (body := fun (i : Z) '(mn, mx) =>
                 let sz := SIZE_CELL i 0 ds in
                 let mn := if Rlt_dec sz mn then sz else mn in
                 let mx := if Rgt_dec sz mx then sz else mx in
                 (mn, mx)).
  set (l0 := SIZE_CELL 0 0 ds).
  destruct (Z_le_gt_dec 1 (ncels ds)) as [Hn|Hn].
  - assert (Hinv : forall i, (0 <= i < ncels ds)%Z ->
              fst (for_loop 1 (ncels ds) body (l0, l0)) <= SIZE_CELL i 0 ds
              <= snd (for_loop 1 (ncels ds) body (l0, l0))).
    { apply (for_loop_inv
        (fun hi (q : R * R) =>
           forall i, (0 <= i < hi)%Z -> fst q <= SIZE_CELL i 0 ds <= snd q));
        [exact Hn | |].
      - intros i Hi. assert (i = 0%Z) as -> by lia. simpl. fold l0. lra.
      - intros i [mn mx] Hi Hall i' Hi'. simpl in Hall. unfold body. simpl.
        destruct (Z.eq_dec i' i) as [->|Hne].
        + destruct (Rlt_dec (SIZE_CELL i 0 ds) mn),
                   (Rgt_dec (SIZE_CELL i 0 ds) mx); lra.
        + specialize (Hall i' ltac:(lia)).
          destruct (Rlt_dec (SIZE_CELL i 0 ds) mn),
                   (Rgt_dec (SIZE_CELL i 0 ds) mx); lra. }
    split; [apply (Hinv 0%Z); lia | exact Hinv].
  - rewrite for_loop_empty by lia. simpl. split; [lra | intros i Hi; lia].
Qed.

Lemma global_minmax_bounds peers (ds : Discret1D) :
  fst (global_minmax peers ds) <= fst (local_minmax ds) /\
  snd (local_minmax ds) <= snd (global_minmax peers ds).
Proof.
  unfold global_minmax. destruct (Z.eqb (nproc ds) 1); simpl.
  - lra.
  - split; [apply Allreduce_MIN_le | apply Allreduce_MAX_ge].
Qed.

(** X6. What [Discret1DGetMinMaxCellSize] stores.  Either the axis is
    flagged as not uniform, [h_uni = -1], and then [h_min] and [h_max]
    enclose the size of every local cell and lie at least [rtol*h] apart,
    [h] being the average step of the axis; or the three steps are [h],
    which is then positive, and any two local cells differ by less than
    [rtol*h].  So the stored [h_uni] is -1 or positive, never zero. *)
Theorem Discret1DGetMinMaxCellSize_flag (peers : list (R * R))
    (ds : Discret1D) (ms : MeshSeg1D) :
  let ds' := Discret1DGetMinMaxCellSize peers ds ms in
  let h := MeshSeg1DGetUniStep ms in
  (h_uni ds' = -1 /\
   rtol * h <= h_max ds' - h_min ds' /\
   forall i, (0 <= i < ncels ds)%Z ->
     h_min ds' <= SIZE_CELL i 0 ds <= h_max ds') \/
  (0 < h /\ h_uni ds' = h /\ h_min ds' = h /\ h_max ds' = h /\
   forall i j, (0 <= i < ncels ds)%Z -> (0 <= j < ncels ds)%Z ->
     Rabs (SIZE_CELL i 0 ds - SIZE_CELL j 0 ds) < rtol * h).
Proof.
  intros ds' h.
  pose proof (GetMinMax_steps peers ds ms) as Hs. fold ds' in Hs. cbv zeta in Hs.
  fold h in Hs. unfold steps in Hs.
  destruct (local_minmax_bounds ds) as [H0 Hloc].
  destruct (global_minmax_bounds peers ds) as [Hlo Hhi].
  set (g := global_minmax peers ds) in *.
  assert (Hord : fst g <= snd g) by lra.
  destruct (Rlt_dec (Rabs (snd g - fst g)) (rtol * h)) as [Hu|Hu].
  - right. injection Hs as Hu1 Hu2 Hu3.
    rewrite Rabs_pos_eq in Hu by lra.
    pose proof rtol_pos as Hr.
    assert (Hh : 0 < h).
    { destruct (Rlt_le_dec 0 h) as [Hp|Hp]; [exact Hp|]. exfalso.
      assert (rtol * h <= 0) by nra. lra. }
    repeat split; try assumption.
    intros i j Hi Hj. specialize (Hloc i Hi) as Hli. specialize (Hloc j Hj) as Hlj.
    apply Rabs_def1; lra.
  - left. injection Hs as Hu1 Hu2 Hu3.
    rewrite Rabs_pos_eq in Hu by lra.
    rewrite Hu1, Hu2, Hu3. split; [reflexivity|]. split; [lra|].
    intros i Hi. specialize (Hloc i Hi). lra.
Qed.

(** *** Further properties: the ghost nodes at the ends of an axis *)

Lemma GetMinMax_ccoor peers ds ms :
  ccoor (Discret1DGetMinMaxCellSize peers ds ms) = ccoor ds.
Proof.
  unfold Discret1DGetMinMaxCellSize.
  destruct (for_loop 1 (ncels ds) _ _) as [mn mx].
  destruct (Z.eqb (nproc ds) 1);
    match goal with |- context [Rlt_dec ?a ?b] => destruct (Rlt_dec a b) end;
    reflexivity.
Qed.

Lemma GetMinMax_ncels peers ds ms :
  ncels (Discret1DGetMinMaxCellSize peers ds ms) = ncels ds.
Proof.
  unfold Discret1DGetMinMaxCellSize.
  destruct (for_loop 1 (ncels ds) _ _) as [mn mx].
  destruct (Z.eqb (nproc ds) 1);
    match goal with |- context [Rlt_dec ?a ?b] => destruct (Rlt_dec a b) end;
    reflexivity.
Qed.

(** the shape of a result of [Discret1DGenCoord] *)
Lemma Discret1DGenCoord_shape peers ds ms loc :
  Discret1DGenCoord peers ds ms = Some loc ->
  (2 <= nnods ds)%Z ->
  (grprev ds = (-1)%Z ->
     ncoor loc 0 - ncoor loc (-1) = ncoor loc 1 - ncoor loc 0) /\
  (grnext ds = (-1)%Z ->
     ncoor loc (nnods ds) - ncoor loc (nnods ds - 1) =
     ncoor loc (nnods ds - 1) - ncoor loc (nnods ds - 2)) /\
  (forall i, (-1 <= i <= ncels ds)%Z ->
     ccoor loc i = (ncoor loc i + ncoor loc (i + 1)) / 2).
Proof.
  intros Hrun Hn. unfold Discret1DGenCoord in Hrun.
  destruct (Z.eqb (grprev ds) (-1)) eqn:Hp;
    destruct (Z.eqb (grnext ds) (-1)) eqn:Hx; cbv zeta in Hrun;
    match type of Hrun with
    | match ?g with _ => _ end = _ => destruct g as [nc|]; [|discriminate]
    end;
    (destruct (nodes_inside ds); simpl negb in Hrun; cbv iota in Hrun;
     [|discriminate]);
    injection Hrun as <-;
    rewrite GetMinMax_ncoor, GetMinMax_ccoor; simpl ncoor; simpl ccoor;
    (split; [|split]);
    try (intros i Hi; apply cell_centers_at; simpl; exact Hi);
    intros Hg;
    try (apply Z.eqb_neq in Hp; contradiction);
    try (apply Z.eqb_neq in Hx; contradiction);
    repeat first [rewrite upd_same | rewrite upd_other by lia]; lra.
Qed.

(** X7. On an axis whose segments hold at least one cell each, for a
    process with at least two nodes whose own and ghost nodes lie inside the
    axis and for which the generation is defined (the buffer holds its
    nodes, no division is by zero, the segment loop makes no empty call),
    [Discret1DGenCoord] returns, and in its result: a process without
    a previous one has the ghost node -1 as far before its first node as the
    second node is after it; a process without a next one has the ghost node
    [nnods] as far after its last node as the node before the last is before
    it; and every cell center, the two ghost centers included, is the
    midpoint of its two nodes. *)
Theorem Discret1DGenCoord_ghosts (peers : list (R * R)) (ds : Discret1D)
    (ms : MeshSeg1D) :
  segments_ok ms ->
  generation_defined ds ms ->
  (0 <= pstart ds + gen_lo ds)%Z ->
  (pstart ds + gen_hi ds <= istart ms (nsegs ms) + 1)%Z ->
  (gen_lo ds <= gen_hi ds)%Z ->
  (2 <= nnods ds)%Z ->
  exists loc,
    Discret1DGenCoord peers ds ms = Some loc /\
    (grprev ds = (-1)%Z ->
       ncoor loc 0 - ncoor loc (-1) = ncoor loc 1 - ncoor loc 0) /\
    (grnext ds = (-1)%Z ->
       ncoor loc (nnods ds) - ncoor loc (nnods ds - 1) =
       ncoor loc (nnods ds - 1) - ncoor loc (nnods ds - 2)) /\
    (forall i, (-1 <= i <= ncels ds)%Z ->
       ccoor loc i = (ncoor loc i + ncoor loc (i + 1)) / 2).
Proof.
  intros Hok Hdef Hlo Hhi Hle Hn.
  destruct (Discret1DGenCoord_spec peers ds ms Hok Hdef Hlo Hhi Hle)
    as (loc & Hrun & _).
  exists loc. split; [exact Hrun|].
  exact (Discret1DGenCoord_shape peers ds ms loc Hrun Hn).
Qed.

(** *** Further properties: the empty call of the segment loop *)

(** a segment loop that starts on the node after the last node of the
    segment [i], with its pointer on the first entry of the buffer *)
Lemma gen_segments_empty_call hi ms i ps n mem : segments_ok ms ->
  (0 <= i < nsegs ms)%Z -> ps = (istart ms (i + 1) + 1)%Z -> (0 < n)%Z ->
  forall left j,
    Z.of_nat left = (nsegs ms - j)%Z -> (0 <= j <= i)%Z ->
    gen_segments left (-1) hi ms j ps (-1) n mem = None.
Proof.
  intros Hok Hi Hps Hn left.
  pose proof Hok as (_ & _ & Hstep).
  induction left as [|left IH]; intros j Hleft Hj.
  - lia.
  - simpl. destruct (Z.eqb_spec n 0) as [Hz|_]; [lia|].
    destruct (Z.eq_dec j i) as [->|Hne].
    + (* the segment [i]: no node of the block is in it *)
      replace (istart ms (i + 1) - ps + 1)%Z with 0%Z by lia.
      simpl Z.ltb. cbv iota.
      replace (0 >? n)%Z with false
        by (destruct (Z.gtb_spec 0 n); [lia | reflexivity]).
      unfold MeshSeg1DGenCoord_checked. cbv zeta.
      replace (ps - istart ms i + 0 =? istart ms (i + 1) - istart ms i + 1)%Z
        with true by (symmetry; apply Z.eqb_eq; lia).
      reflexivity.
    + (* an earlier segment: skipped *)
      pose proof (istart_mono ms Hok (j + 1) i ltac:(lia) ltac:(lia)).
      specialize (Hstep i Hi).
      replace (istart ms (j + 1) - ps + 1 <? 0)%Z with true
        by (symmetry; apply Z.ltb_lt; lia).
      apply IH; lia.
Qed.

(** X23. A process with a previous one whose ghost node before its own
    nodes directly follows the last node of a segment: the segment loop of
    [Discret1DGenCoord] calls [MeshSeg1DGenCoord] for that segment with no
    node to generate, and the override of the last node then writes
    [crd[-1]], the entry before the node buffer.  The run touches memory
    outside of the buffer and has no result. *)
Theorem Discret1DGenCoord_empty_call (peers : list (R * R)) (ds : Discret1D)
    (ms : MeshSeg1D) (i : Z) :
  segments_ok ms -> (0 <= i < nsegs ms)%Z ->
  grprev ds <> (-1)%Z -> (0 <= nnods ds)%Z ->
  (pstart ds - 1)%Z = (istart ms (i + 1) + 1)%Z ->
  Discret1DGenCoord peers ds ms = None.
Proof.
  intros Hok Hi Hprev Hn Hps. unfold Discret1DGenCoord.
  destruct (Z.eqb_spec (grprev ds) (-1)) as [Hp|_]; [contradiction|].
  cbv iota zeta. simpl (0 - 1)%Z.
  rewrite (gen_segments_empty_call (bufsz ds - 2) ms i); try assumption;
    try reflexivity; try lia.
  destruct (Z.eqb (grnext ds) (-1)); lia.
Qed.

(** *** Further properties: the default axis *)

Lemma Discret1DGenCoord_form peers ds ms loc :
  Discret1DGenCoord peers ds ms = Some loc ->
  exists cc,
    loc = Discret1DGetMinMaxCellSize peers (set_coor ds (ncoor loc) cc) ms.
Proof.
  intros Hrun. unfold Discret1DGenCoord in Hrun.
  destruct (Z.eqb (grprev ds) (-1)); destruct (Z.eqb (grnext ds) (-1));
    cbv zeta in Hrun;
    match type of Hrun with
    | match ?g with _ => _ end = _ => destruct g as [nc|]; [|discriminate]
    end;
    (destruct (nodes_inside ds); simpl negb in Hrun; cbv iota in Hrun;
     [|discriminate]);
    injection Hrun as <-; rewrite GetMinMax_ncoor; simpl ncoor;
    eexists; reflexivity.
Qed.



(** *** Further properties: stretching twice *)

Lemma MeshSeg1DStretch_xstart_all ms eps i :
  xstart (MeshSeg1DStretch ms eps) i =
  if (Z.leb 0 i && Z.ltb i (nsegs ms + 1))%bool
  then xstart ms i * (1 - eps) else xstart ms i.
Proof.
  unfold MeshSeg1DStretch. simpl.
  rewrite (for_loop_ext _
    (fun i xs => upd xs (i + 0) (xs (i + 0)%Z * (1 - eps)))).
  - rewrite for_loop_scale. now rewrite !Z.add_0_r.
  - intros j t. now rewrite Z.add_0_r.
Qed.

Lemma Discret1DStretch_fields ds ms eps :
  let ds' := fst (Discret1DStretch ds ms eps) in
  (forall x, ncoor ds' x =
     if (Z.leb (-1) x && Z.ltb x (bufsz ds - 1))%bool
     then ncoor ds x * (1 - eps) else ncoor ds x) /\
  (forall x, ccoor ds' x =
     if (Z.leb (-1) x && Z.ltb x (ncels ds + 1))%bool
     then (ncoor ds' x + ncoor ds' (x + 1)) / 2 else ccoor ds x) /\
  ncels ds' = ncels ds /\ bufsz ds' = bufsz ds /\
  snd (Discret1DStretch ds ms eps) = MeshSeg1DStretch ms eps.
Proof.
  unfold Discret1DStretch. cbv zeta.
  match goal with |- context [Rlt_dec ?a ?b] => destruct (Rlt_dec a b) end;
    simpl; (repeat split; try reflexivity);
    intros x; try apply stretch_nodes;
    unfold cell_centers; simpl ncels; simpl ccoor;
    rewrite for_loop_store; reflexivity.
Qed.

(** X9. Two stretches in a row, by [e1] and then by [e2],
    leave every segment breakpoint, every node coordinate and every cell
    center where one stretch by [e1 + e2 - e1*e2] leaves them: the factors
    [1-e1] and [1-e2] multiply.  With [e1 <> 1] and [e2 = -e1/(1-e1)] the
    second stretch takes the nodes and the breakpoints back to where they
    were. *)
Theorem Discret1DStretch_twice (ds : Discret1D) (ms : MeshSeg1D) (e1 e2 : R) :
  let s1 := Discret1DStretch ds ms e1 in
  let s2 := Discret1DStretch (fst s1) (snd s1) e2 in
  let sc := Discret1DStretch ds ms (e1 + e2 - e1 * e2) in
  (forall i, xstart (snd s2) i = xstart (snd sc) i) /\
  (forall i, ncoor (fst s2) i = ncoor (fst sc) i) /\
  (forall i, ccoor (fst s2) i = ccoor (fst sc) i) /\
  (e1 <> 1 -> e2 = - e1 / (1 - e1) ->
   forall i, xstart (snd s2) i = xstart ms i /\ ncoor (fst s2) i = ncoor ds i).
Proof.
  intros s1 s2 sc.
  destruct (Discret1DStretch_fields ds ms e1) as (Hn1 & Hc1 & Hnc1 & Hb1 & Hm1).
  destruct (Discret1DStretch_fields (fst s1) (snd s1) e2)
    as (Hn2 & Hc2 & Hnc2 & Hb2 & Hm2).
  destruct (Discret1DStretch_fields ds ms (e1 + e2 - e1 * e2))
    as (Hnc & Hcc & Hncc & Hbc & Hmc).
  cbv zeta in *. fold s1 in Hn1, Hc1, Hnc1, Hb1, Hm1, Hn2, Hc2, Hnc2, Hb2, Hm2.
  fold s2 in Hn2, Hc2, Hnc2, Hb2, Hm2. fold sc in Hnc, Hcc, Hncc, Hbc, Hmc.
  assert (Hnodes : forall i, ncoor (fst s2) i = ncoor (fst sc) i).
  { intros i. rewrite Hn2, Hnc, Hb1, Hn1.
    destruct (Z.leb (-1) i && Z.ltb i (bufsz ds - 1))%bool; [ring | reflexivity]. }
  assert (Hbreaks : forall i, xstart (snd s2) i = xstart (snd sc) i).
  { intros i. rewrite Hm2, Hmc, Hm1, !MeshSeg1DStretch_xstart_all. simpl nsegs.
    destruct (Z.leb 0 i && Z.ltb i (nsegs ms + 1))%bool; [ring | reflexivity]. }
  split; [exact Hbreaks|]. split; [exact Hnodes|]. split.
  - intros i. rewrite Hc2, Hcc, Hnc1, Hc1, !Hnodes.
    destruct (Z.leb (-1) i && Z.ltb i (ncels ds + 1))%bool; reflexivity.
  - intros He1 He2 i.
    assert (H0 : e1 + e2 - e1 * e2 = 0) by (rewrite He2; field; lra).
    rewrite Hbreaks, Hnodes, Hmc, Hnc, MeshSeg1DStretch_xstart_all, H0.
    destruct (Z.leb 0 i && Z.ltb i (nsegs ms + 1))%bool;
      destruct (Z.leb (-1) i && Z.ltb i (bufsz ds - 1))%bool; split; ring.
Qed.

(** *** Further properties: the box of the grid *)

Lemma FDSTAGStretch_segments (f : FDSTAG) (Exx Eyy dt : R) :
  let f' := FDSTAGStretch f Exx Eyy dt in
  msx f' = (if Req_dec_T Exx 0 then msx f
            else MeshSeg1DStretch (msx f) (Exx * dt)) /\
  msy f' = (if Req_dec_T Eyy 0 then msy f
            else MeshSeg1DStretch (msy f) (Eyy * dt)) /\
  msz f' = (if Req_dec_T (- (Exx + Eyy)) 0 then msz f
            else MeshSeg1DStretch (msz f) (- (Exx + Eyy) * dt)).
Proof.
  unfold FDSTAGStretch. cbv zeta.
  destruct (Req_dec_T Exx 0), (Req_dec_T Eyy 0), (Req_dec_T (- (Exx + Eyy)) 0);
    repeat match goal with
    | |- context [Discret1DStretch ?d ?m ?e] =>
        let H := fresh "H" in
        pose proof (Discret1DStretch_fields d m e) as H; cbv zeta in H;
        destruct H as (_ & _ & _ & _ & H);
        destruct (Discret1DStretch d m e) as [? ?]; simpl in H; subst
    end; simpl; auto.
Qed.

(** the two ends of an axis after [FDSTAGStretch] at the rate [E] *)
Lemma stretched_ends (ms : MeshSeg1D) (E dt : R) :
  (0 <= nsegs ms)%Z ->
  let ms' := if Req_dec_T E 0 then ms else MeshSeg1DStretch ms (E * dt) in
  xstart ms' 0 = xstart ms 0 * (1 - E * dt) /\
  xstart ms' (nsegs ms') = xstart ms (nsegs ms) * (1 - E * dt).
Proof.
  intros Hn. cbv zeta. destruct (Req_dec_T E 0) as [->|HE].
  - split; ring.
  - simpl nsegs. rewrite !MeshSeg1DStretch_xstart by lia. split; reflexivity.
Qed.

(** X10. The global box that [FDSTAGGetGlobalBox] reports after
    [FDSTAGStretch]: both ends along x are those of before times
    [1 - Exx*dt], along y times [1 - Eyy*dt], along z times
    [1 + (Exx+Eyy)*dt], through every pointer that is not NULL.  The volume
    of the box is therefore multiplied by the product of the three factors,
    which is 1 only to first order in [dt]. *)
Theorem FDSTAGStretch_global_box (f : FDSTAG) (Exx Eyy dt : R) (q : Box) :
  (0 <= nsegs (msx f))%Z -> (0 <= nsegs (msy f))%Z -> (0 <= nsegs (msz f))%Z ->
  let b := FDSTAGGetGlobalBox f q in
  let b' := FDSTAGGetGlobalBox (FDSTAGStretch f Exx Eyy dt) q in
  let cx := 1 - Exx * dt in
  let cy := 1 - Eyy * dt in
  let cz := 1 + (Exx + Eyy) * dt in
  box_bx b' = scaled cx (box_bx b) /\ box_ex b' = scaled cx (box_ex b) /\
  box_by b' = scaled cy (box_by b) /\ box_ey b' = scaled cy (box_ey b) /\
  box_bz b' = scaled cz (box_bz b) /\ box_ez b' = scaled cz (box_ez b) /\
  box_volume b' = scaled (cx * cy * cz) (box_volume b).
Proof.
  intros Hx Hy Hz b b' cx cy cz.
  destruct (FDSTAGStretch_segments f Exx Eyy dt) as (Hmx & Hmy & Hmz).
  cbv zeta in Hmx, Hmy, Hmz.
  destruct (stretched_ends (msx f) Exx dt Hx) as [Hx0 Hx1].
  destruct (stretched_ends (msy f) Eyy dt Hy) as [Hy0 Hy1].
  destruct (stretched_ends (msz f) (- (Exx + Eyy)) dt Hz) as [Hz0 Hz1].
  cbv zeta in Hx0, Hx1, Hy0, Hy1, Hz0, Hz1.
  rewrite <- Hmx in Hx0, Hx1. rewrite <- Hmy in Hy0, Hy1.
  rewrite <- Hmz in Hz0, Hz1.
  replace (1 - - (Exx + Eyy) * dt) with cz in Hz0, Hz1 by (unfold cz; ring).
  fold cx in Hx0, Hx1. fold cy in Hy0, Hy1.
  unfold b', b, FDSTAGGetGlobalBox, box_volume, scaled. simpl.
  rewrite Hx0, Hx1, Hy0, Hy1, Hz0, Hz1.
  destruct (box_bx q), (box_by q), (box_bz q), (box_ex q), (box_ey q),
           (box_ez q); simpl; repeat split; try reflexivity; f_equal; ring.
Qed.

Lemma gen_lo_le_0 ds : (gen_lo ds <= 0)%Z.
Proof. unfold gen_lo. destruct (Z.eqb (grprev ds) (-1)); lia. Qed.

(** the two ends of the local cells of an axis after [Discret1DGenCoord] *)
Lemma axis_box peers ds ms :
  axis_fits ds ms ->
  exists loc,
    Discret1DGenCoord peers ds ms = Some loc /\
    ncels loc = ncels ds /\
    ncoor loc 0 = node_coord ms (pstart ds) /\
    ncoor loc (ncels ds) = node_coord ms (pstart ds + ncels ds).
Proof.
  intros (Hok & Hdef & Hlo & Hhi & Hn).
  pose proof (gen_lo_le_0 ds) as Hg.
  destruct (Discret1DGenCoord_spec peers ds ms Hok Hdef Hlo Hhi ltac:(lia))
    as (loc & Hrun & Hnodes).
  exists loc. split; [exact Hrun|].
  destruct (Discret1DGenCoord_form peers ds ms loc Hrun) as (cc & Hform).
  split; [rewrite Hform, GetMinMax_ncels; reflexivity|].
  split.
  - rewrite (Hnodes 0%Z) by lia. f_equal. lia.
  - apply Hnodes. lia.
Qed.

Lemma MeshSeg1DCreate_box beg end_ tncels msi :
  let ms := MeshSeg1DCreate beg end_ tncels msi in
  segments_ok ms ->
  xstart ms 0 = beg /\ xstart ms (nsegs ms) = end_ /\
  node_coord ms 0 = beg /\ node_coord ms tncels = end_.
Proof.
  intros ms Hok.
  assert (H0 : (0 <= msi_nsegs msi)%Z).
  { destruct Hok as (H1 & _). unfold ms, MeshSeg1DCreate in H1.
    destruct (Z.eqb_spec (msi_nsegs msi) 0) as [E|E]; [lia|].
    destruct (for_loop 0 (msi_nsegs msi - 1) _ _) as [[cnt ist] xst].
    simpl in H1. lia. }
  destruct (MeshSeg1DCreate_ends beg end_ tncels msi H0) as (_ & _ & Hi & Hb & He).
  fold ms in Hi, Hb, He.
  repeat split; try assumption.
  - now rewrite node_coord_first.
  - rewrite <- Hi. now rewrite node_coord_last.
Qed.

(** X11. After [FDSTAGGenCoord], on axes that fit their segments and on
    which the generation is defined (the buffers hold the nodes, no division
    is by zero, no segment loop makes an empty call):
    the global box is the one of the user context, and the local box that
    [FDSTAGGetLocalBox] reports runs, along each axis, from the coordinate
    of the first node of the process to the coordinate of the node that
    closes its last cell.  So the local box of a process that starts at node
    0 begins where the domain begins, and the one of a process whose cells
    reach the last cell ends where the domain ends; on one process the two
    boxes are the same. *)
Theorem FDSTAGGenCoord_boxes (px py pz : list (R * R)) (f : FDSTAG)
    (usr : Usr.t) (q : Box) :
  let mx := MeshSeg1DCreate (Usr.x_left usr) (Usr.x_left usr + Usr.W usr) (Usr.nel_x usr)
              (Usr.mseg_x usr) in
  let my := MeshSeg1DCreate (Usr.y_front usr) (Usr.y_front usr + Usr.L usr) (Usr.nel_y usr)
              (Usr.mseg_y usr) in
  let mz := MeshSeg1DCreate (Usr.z_bot usr) (Usr.z_bot usr + Usr.H usr) (Usr.nel_z usr)
              (Usr.mseg_z usr) in
  axis_fits (dsx f) mx -> axis_fits (dsy f) my -> axis_fits (dsz f) mz ->
  exists f',
    FDSTAGGenCoord px py pz f usr = Some f' /\
    FDSTAGGetGlobalBox f' q =
      {| box_bx := store (box_bx q) (Usr.x_left usr);
         box_by := store (box_by q) (Usr.y_front usr);
         box_bz := store (box_bz q) (Usr.z_bot usr);
         box_ex := store (box_ex q) (Usr.x_left usr + Usr.W usr);
         box_ey := store (box_ey q) (Usr.y_front usr + Usr.L usr);
         box_ez := store (box_ez q) (Usr.z_bot usr + Usr.H usr) |} /\
    FDSTAGGetLocalBox f' q =
      {| box_bx := store (box_bx q) (node_coord mx (pstart (dsx f)));
         box_by := store (box_by q) (node_coord my (pstart (dsy f)));
         box_bz := store (box_bz q) (node_coord mz (pstart (dsz f)));
         box_ex := store (box_ex q)
                     (node_coord mx (pstart (dsx f) + ncels (dsx f)));
         box_ey := store (box_ey q)
                     (node_coord my (pstart (dsy f) + ncels (dsy f)));
         box_ez := store (box_ez q)
                     (node_coord mz (pstart (dsz f) + ncels (dsz f))) |} /\
    node_coord mx 0 = Usr.x_left usr /\
    node_coord my 0 = Usr.y_front usr /\
    node_coord mz 0 = Usr.z_bot usr /\
    node_coord mx (Usr.nel_x usr) = Usr.x_left usr + Usr.W usr /\
    node_coord my (Usr.nel_y usr) = Usr.y_front usr + Usr.L usr /\
    node_coord mz (Usr.nel_z usr) = Usr.z_bot usr + Usr.H usr.
Proof.
  intros mx my mz Hfx Hfy Hfz.
  destruct (axis_box px _ _ Hfx) as (lx & Hrx & Hcx & Hx0 & Hx1).
  destruct (axis_box py _ _ Hfy) as (ly & Hry & Hcy & Hy0 & Hy1).
  destruct (axis_box pz _ _ Hfz) as (lz & Hrz & Hcz & Hz0 & Hz1).
  destruct (MeshSeg1DCreate_box _ _ _ _ (proj1 Hfx)) as (Hbx & Hex & Hnx0 & Hnx1).
  destruct (MeshSeg1DCreate_box _ _ _ _ (proj1 Hfy)) as (Hby & Hey & Hny0 & Hny1).
  destruct (MeshSeg1DCreate_box _ _ _ _ (proj1 Hfz)) as (Hbz & Hez & Hnz0 & Hnz1).
  fold mx in Hbx, Hex, Hnx0, Hnx1. fold my in Hby, Hey, Hny0, Hny1.
  fold mz in Hbz, Hez, Hnz0, Hnz1.
  exists (set_axes f lx ly lz mx my mz). split.
  - unfold FDSTAGGenCoord. fold mx my mz. now rewrite Hrx, Hry, Hrz.
  - split; [|split].
    + unfold FDSTAGGetGlobalBox. simpl.
      now rewrite Hbx, Hby, Hbz, Hex, Hey, Hez.
    + unfold FDSTAGGetLocalBox. simpl.
      now rewrite Hcx, Hcy, Hcz, Hx0, Hy0, Hz0, Hx1, Hy1, Hz1.
    + repeat split; assumption.
Qed.

(** *** Further properties: the table of neighbours *)

(** X12. [FDSTAGGetNeighbProc] fills 27 entries: the process at
    the offset [(i, j, k)] from the own one, each offset being -1, 0 or 1,
    is stored at the index [(i+1) + 3*(j+1) + 9*(k+1)], so that the own
    rank sits in the middle, at index 13; nothing else of the table is
    written. *)
Theorem FDSTAGGetNeighbProc_layout `{PetscLib} (dx dy dz : Discret1D)
    (nb : Z -> Z) (i j k : Z) :
  (-1 <= i <= 1)%Z -> (-1 <= j <= 1)%Z -> (-1 <= k <= 1)%Z ->
  FDSTAGGetNeighbProc dx dy dz nb ((i + 1) + 3 * (j + 1) + 9 * (k + 1))%Z =
    getGlobalRank (rank dx + i) (rank dy + j) (rank dz + k)
                  (nproc dx) (nproc dy) (nproc dz) /\
  forall m, (m < 0 \/ 27 <= m)%Z -> FDSTAGGetNeighbProc dx dy dz nb m = nb m.
Proof.
  intros Hi Hj Hk. unfold FDSTAGGetNeighbProc, for_loop.
  change (Z.to_nat (2 - -1)) with 3%nat. cbn [for_count snd].
  split.
  - assert (Ei : i = (-1)%Z \/ i = 0%Z \/ i = 1%Z) by lia.
    assert (Ej : j = (-1)%Z \/ j = 0%Z \/ j = 1%Z) by lia.
    assert (Ek : k = (-1)%Z \/ k = 0%Z \/ k = 1%Z) by lia.
    destruct Ei as [-> | [-> | ->]], Ej as [-> | [-> | ->]],
             Ek as [-> | [-> | ->]]; reflexivity.
  - intros m Hm. cbn [Z.add Pos.add Pos.succ Z.pos_sub Z.opp Pos.pred_double
                      Z.succ_double Z.pred_double Z.double].
    repeat (rewrite upd_other by lia). reflexivity.
Qed.

(** *** Further properties: the numbering of the unknowns *)

Lemma dmda_index_lin da k j i : dmda_index da k j i = lin (DMDAGetCorners da) k j i.
Proof. reflexivity. Qed.

(** a numbering loop gives the owned point with the running number [n] the
    number [st + n] and counts the owned points *)
Lemma number_points_spec (da : DM) (st0 : Z) (iv : arr3) :
  sized da ->
  fst (number_points da st0 iv) = (st0 + VecGetLocalSize da)%Z /\
  forall k j i, owned da k j i ->
    (snd (number_points da st0 iv))@[k, j, i] = IZR (st0 + dmda_index da k j i).
Proof.
  intros (Hx & Hy & Hz). unfold number_points, owned, VecGetLocalSize.
  set (r := DMDAGetCorners da).
  set (body := fun (k j i : Z) '(st, iv) =>
                 ((st + 1)%Z, set3 iv k j i (IZR st))).
  pose proof (std_loop_inv
    (fun n (t : Z * arr3) =>
       fst t = (st0 + n)%Z /\
       forall k j i, in_box r k j i -> (lin r k j i < n)%Z ->
         (snd t)@[k, j, i] = IZR (st0 + lin r k j i)) body r (st0, iv)) as Hinv.
  unfold r, DMDAGetCorners in Hinv. fold (DMDAGetCorners da) in Hinv. fold r in Hinv.
  destruct (Hinv Hx Hy Hz) as [Hcnt Hall].
  - split; [simpl; lia|]. intros k j i Hin Hlt.
    pose proof (lin_bounds r k j i Hin) as Hb. unfold r, DMDAGetCorners in Hb.
    fold (DMDAGetCorners da) in Hb. fold r in Hb. lia.
  - intros k j i [n a] Hin [Hn Hprev]. cbn [fst snd] in Hn, Hprev. subst n.
    unfold body. cbn [fst snd].
    split; [lia|]. intros k' j' i' Hin' Hlt.
    destruct (Z.eq_dec (lin r k' j' i') (lin r k j i)) as [He|Hne].
    + destruct (lin_inj _ _ _ _ _ _ _ Hin' Hin He) as (-> & -> & ->).
      now rewrite get3_set3_same.
    + rewrite get3_set3_other.
      * apply Hprev; [exact Hin' | lia].
      * intros E. injection E as -> -> ->. contradiction.
  - split; [rewrite Hcnt; f_equal; unfold r, DMDAGetCorners; ring|].
    intros k j i Hin. rewrite dmda_index_lin. fold r. apply Hall; [exact Hin|].
    pose proof (lin_bounds r k j i Hin) as Hb. unfold r, DMDAGetCorners in Hb.
    fold (DMDAGetCorners da) in Hb. fold r in Hb. lia.
Qed.

(** X13. [DOFIndexCompute] in one of its two modes, when the
    exchange of ghost values keeps the owned entries: the owned X points get
    the numbers from the start on in the order of the loop (i fastest, then
    j, then k), the owned Y points follow them, the owned Z points follow
    those, and the centers are numbered from their own start.  The starts
    are [st] and [st + lnv] in the coupled mode (the layout that
    [JacResCopySol] reads the coupled vector in), [stv] and [stp] in the
    uncoupled mode. *)
Theorem DOFIndexCompute_numbering `{PetscLib} (id : DOFIndex)
    (cen dax day daz : DM) (mode : idxtype) :
  keeps_owned -> sized dax -> sized day -> sized daz -> sized cen ->
  mode <> IDXNONE ->
  let v0 := match mode with IDXCOUPLED => st id | _ => stv id end in
  let p0 := match mode with IDXCOUPLED => (st id + lnv id)%Z | _ => stp id end in
  let nX := VecGetLocalSize dax in
  let nY := VecGetLocalSize day in
  exists id',
    DOFIndexCompute id cen dax day daz mode = Some id' /\
    idxmod id' = mode /\
    (forall k j i, owned dax k j i ->
       (ivx id')@[k, j, i] = IZR (v0 + dmda_index dax k j i)) /\
    (forall k j i, owned day k j i ->
       (ivy id')@[k, j, i] = IZR (v0 + nX + dmda_index day k j i)) /\
    (forall k j i, owned daz k j i ->
       (ivz id')@[k, j, i] = IZR (v0 + nX + nY + dmda_index daz k j i)) /\
    (forall k j i, owned cen k j i ->
       (ip id')@[k, j, i] = IZR (p0 + dmda_index cen k j i)).
Proof.
  intros Hkeep Sx Sy Sz Sc Hmode v0 p0 nX nY.
  unfold DOFIndexCompute.
  assert (Hst : match mode with
                | IDXCOUPLED => Some (st id, (st id + lnv id)%Z)
                | IDXUNCOUPLED => Some (stv id, stp id)
                | IDXNONE => None
                end = Some (v0, p0)).
  { unfold v0, p0. destruct mode; [contradiction | reflexivity | reflexivity]. }
  rewrite Hst.
  destruct (number_points_spec dax v0 (fun _ _ _ => -1) Sx) as [Hcx Hpx].
  destruct (number_points dax v0 _) as [v1 ax]. simpl in Hcx, Hpx. subst v1.
  destruct (number_points_spec day (v0 + VecGetLocalSize dax)
              (fun _ _ _ => -1) Sy) as [Hcy Hpy].
  destruct (number_points day _ _) as [v2 ay]. simpl in Hcy, Hpy. subst v2.
  destruct (number_points_spec daz
              (v0 + VecGetLocalSize dax + VecGetLocalSize day)
              (fun _ _ _ => -1) Sz) as [Hcz Hpz].
  destruct (number_points daz _ _) as [v3 az]. simpl in Hcz, Hpz.
  destruct (number_points_spec cen p0 (fun _ _ _ => -1) Sc) as [Hcp Hpp].
  destruct (number_points cen p0 _) as [p1 ap]. simpl in Hcp, Hpp.
  eexists. split; [reflexivity|]. simpl.
  split; [reflexivity|].
  repeat split; intros k j i Hin; rewrite Hkeep by exact Hin; auto.
Qed.

(** *** Further properties: the aspect ratio of the cells *)

(** a triple loop that keeps a running maximum ends above what every point
    contributed *)
Lemma std_loop_max (g : Z -> Z -> Z -> R) (body : Z -> Z -> Z -> R -> R)
    (r : Z * Z * Z * Z * Z * Z) (s : R) :
  (forall k j i t, t <= body k j i t) ->
  (forall k j i t, in_box r k j i -> g k j i <= body k j i t) ->
  forall k j i, in_box r k j i -> g k j i <= std_loop_on r body s.
Proof.
  intros Hmono Hvisit k j i Hin.
  pose proof (lin_bounds r k j i Hin) as Hb.
  pose proof (std_loop_inv
    (fun n t => forall k' j' i', in_box r k' j' i' -> (lin r k' j' i' < n)%Z ->
                                 g k' j' i' <= t) body r s) as Hinv.
  destruct r as [[[[[sx sy] sz] nx] ny] nz].
  assert (Hpos : (0 <= nx /\ 0 <= ny /\ 0 <= nz)%Z) by (simpl in Hin; lia).
  destruct Hpos as (Hx & Hy & Hz).
  apply (Hinv Hx Hy Hz); [| | exact Hin | simpl in Hb |- *; lia].
  - intros k' j' i' Hin' Hlt.
    pose proof (lin_bounds _ k' j' i' Hin') as Hb'. simpl in Hb', Hlt. lia.
  - intros k0 j0 i0 t Hin0 Hprev k' j' i' Hin' Hlt.
    destruct (Z.eq_dec (lin (sx, sy, sz, nx, ny, nz) k' j' i')
                       (lin (sx, sy, sz, nx, ny, nz) k0 j0 i0)) as [He|Hne].
    + destruct (lin_inj _ _ _ _ _ _ _ Hin' Hin0 He) as (-> & -> & ->).
      now apply Hvisit.
    + eapply Rle_trans; [apply Hprev; [exact Hin' | lia] | apply Hmono].
Qed.

Lemma ratio_le (a b t : R) :
  0 < a -> 0 < b ->
  (if Rgt_dec a b then a / b else b / a) <= t -> a <= t * b /\ b <= t * a.
Proof.
  intros Ha Hb Ht.
  assert (Hab : a / b * b = a) by (field; lra).
  assert (Hba : b / a * a = b) by (field; lra).
  destruct (Rgt_dec a b) as [Hgt|Hle].
  - assert (1 <= t).
    { apply Rle_trans with (a / b); [|exact Ht].
      apply Rmult_le_reg_r with b; [exact Hb|]. rewrite Hab. lra. }
    split; [|nra]. rewrite <- Hab at 1. apply Rmult_le_compat_r; lra.
  - assert (1 <= t).
    { apply Rle_trans with (b / a); [|exact Ht].
      apply Rmult_le_reg_r with a; [exact Ha|]. rewrite Hba. lra. }
    split; [nra|]. rewrite <- Hba at 1. apply Rmult_le_compat_r; lra.
Qed.

(** the three ratios of a cell, as [FDSTAGGetAspectRatio] takes them *)
Lemma aspect_body_bounds f k j i t :
  let dx := cell_dx f i in
  let dy := cell_dy f j in
  let dz := cell_dz f k in
  t <= aspect_body f k j i t /\
  (if Rgt_dec dx dy then dx / dy else dy / dx) <= aspect_body f k j i t /\
  (if Rgt_dec dx dz then dx / dz else dz / dx) <= aspect_body f k j i t /\
  (if Rgt_dec dy dz then dy / dz else dz / dy) <= aspect_body f k j i t.
Proof.
  unfold cell_dx, cell_dy, cell_dz, aspect_body, GET_CELL_RANGE. cbn [snd].
  cbv zeta.
  set (dx := SIZE_CELL i (pstart (dsx f)) (dsx f)).
  set (dy := SIZE_CELL j (pstart (dsy f)) (dsy f)).
  set (dz := SIZE_CELL k (pstart (dsz f)) (dsz f)).
  set (r1 := if Rgt_dec dx dy then dx / dy else dy / dx).
  set (r2 := if Rgt_dec dx dz then dx / dz else dz / dx).
  set (r3 := if Rgt_dec dy dz then dy / dz else dz / dy).
  destruct (Rgt_dec r1 t);
    match goal with |- context [Rgt_dec r2 ?b] => destruct (Rgt_dec r2 b) end;
    match goal with |- context [Rgt_dec r3 ?b] => destruct (Rgt_dec r3 b) end;
    lra.
Qed.

Lemma within_ratio_intro a f k j i :
  positive_cell f k j i ->
  let dx := cell_dx f i in
  let dy := cell_dy f j in
  let dz := cell_dz f k in
  (if Rgt_dec dx dy then dx / dy else dy / dx) <= a ->
  (if Rgt_dec dx dz then dx / dz else dz / dx) <= a ->
  (if Rgt_dec dy dz then dy / dz else dz / dy) <= a ->
  within_ratio a f k j i.
Proof.
  intros (Hx & Hy & Hz) dx dy dz H1 H2 H3. unfold within_ratio. cbv zeta.
  fold dx dy dz.
  destruct (ratio_le dx dy a Hx Hy H1).
  destruct (ratio_le dx dz a Hx Hz H2).
  destruct (ratio_le dy dz a Hy Hz H3).
  repeat split; assumption.
Qed.

Lemma within_ratio_mono a b f k j i :
  positive_cell f k j i -> a <= b ->
  within_ratio a f k j i -> within_ratio b f k j i.
Proof.
  intros (Hx & Hy & Hz) Hab. unfold within_ratio. cbv zeta.
  intros (H1 & H2 & H3 & H4 & H5 & H6). repeat split; nra.
Qed.

(** X14. The value of [FDSTAGGetAspectRatio] bounds the ratio of any
    two widths of every local cell with positive widths.  [FDSTAGView]
    returns without error exactly when that value is at most 5, and then no
    width of such a cell is more than 5 times another one; otherwise it
    fails with PETSC_ERR_USER, after the five lines of the summary. *)
Theorem FDSTAGView_aspect (others : list R) (f : FDSTAG) :
  let A := FDSTAGGetAspectRatio others f in
  (forall k j i, is_cell f k j i -> positive_cell f k j i ->
     within_ratio A f k j i) /\
  ((snd (FDSTAGView others f) = Ok tt /\ A <= 5 /\
    forall k j i, is_cell f k j i -> positive_cell f k j i ->
      within_ratio 5 f k j i) \/
   (snd (FDSTAGView others f) = Err PETSC_ERR_USER /\ 5 < A /\
    length (fst (FDSTAGView others f)) = 5%nat)).
Proof.
  intros A.
  assert (HA : forall k j i, is_cell f k j i -> positive_cell f k j i ->
                 within_ratio A f k j i).
  { intros k j i Hin Hpos.
    set (lrt := std_loop_on (cen_range f) (aspect_body f) 0).
    assert (Hl : within_ratio lrt f k j i).
    { apply within_ratio_intro; [exact Hpos | | |]; cbv zeta.
      - exact (std_loop_max
          (fun k' j' i' =>
             if Rgt_dec (cell_dx f i') (cell_dy f j')
             then cell_dx f i' / cell_dy f j' else cell_dy f j' / cell_dx f i')
          (aspect_body f) (cen_range f) 0
          (fun k' j' i' t => proj1 (aspect_body_bounds f k' j' i' t))
          (fun k' j' i' t _ => proj1 (proj2 (aspect_body_bounds f k' j' i' t)))
          k j i Hin).
      - exact (std_loop_max
          (fun k' j' i' =>
             if Rgt_dec (cell_dx f i') (cell_dz f k')
             then cell_dx f i' / cell_dz f k' else cell_dz f k' / cell_dx f i')
          (aspect_body f) (cen_range f) 0
          (fun k' j' i' t => proj1 (aspect_body_bounds f k' j' i' t))
          (fun k' j' i' t _ =>
             proj1 (proj2 (proj2 (aspect_body_bounds f k' j' i' t))))
          k j i Hin).
      - exact (std_loop_max
          (fun k' j' i' =>
             if Rgt_dec (cell_dy f j') (cell_dz f k')
             then cell_dy f j' / cell_dz f k' else cell_dz f k' / cell_dy f j')
          (aspect_body f) (cen_range f) 0
          (fun k' j' i' t => proj1 (aspect_body_bounds f k' j' i' t))
          (fun k' j' i' t _ =>
             proj2 (proj2 (proj2 (aspect_body_bounds f k' j' i' t))))
          k j i Hin). }
    apply (within_ratio_mono lrt); [exact Hpos | | exact Hl].
    unfold A, FDSTAGGetAspectRatio. fold lrt.
    destruct others; [lra | apply Allreduce_MAX_ge]. }
  split; [exact HA|].
  unfold FDSTAGView. cbv zeta. fold A.
  destruct (Rgt_dec A 5) as [Hgt|Hle].
  - right. simpl. repeat split; [lra].
  - left. assert (H5 : A <= 5) by lra.
    split; [destruct (Rgt_dec A 2); reflexivity|]. split; [exact H5|].
    intros k j i Hin Hpos.
    apply (within_ratio_mono A); [exact Hpos | exact H5 | now apply HA].
Qed.

(** *** Further properties: the pressure shift *)

(** a loop that adds values between [a] and [b] *)
Lemma sum_loop_bounds (a b : R) (v : Z -> R) (lo hi : Z) (s c : R) :
  (lo <= hi)%Z ->
  (forall i, (lo <= i < hi)%Z -> a <= v i <= b) ->
  a * c <= s <= b * c ->
  let s' := for_loop lo hi (fun i t => t + v i) s in
  a * (c + IZR (hi - lo)) <= s' <= b * (c + IZR (hi - lo)).
Proof.
  intros Hle Hv Hs.
  apply (for_loop_inv
    (fun h t => a * (c + IZR (h - lo)) <= t <= b * (c + IZR (h - lo))));
    [exact Hle | |].
  - rewrite Z.sub_diag. simpl. rewrite Rplus_0_r. exact Hs.
  - intros i t Hi Ht. specialize (Hv i Hi).
    replace (i + 1 - lo)%Z with (i - lo + 1)%Z by lia.
    rewrite plus_IZR. simpl. lra.
Qed.

(** the sum that [JacResGetPressShift] takes over the layer [mcz] *)
Lemma top_layer_sum (a b : R) (p : arr3) (sx sy sz nx ny nz mcz : Z) :
  (0 <= nx)%Z -> (0 <= ny)%Z -> (sz <= mcz < sz + nz)%Z ->
  (forall j i, (sy <= j < sy + ny)%Z -> (sx <= i < sx + nx)%Z ->
     a <= p@[mcz, j, i] <= b) ->
  let s := std_loop sx sy sz nx ny nz
             (fun k j i t => if Z.eqb k mcz then t + p@[k, j, i] else t) 0 in
  a * IZR (nx * ny) <= s <= b * IZR (nx * ny).
Proof.
  intros Hx Hy Hz Hp. unfold std_loop.
  apply (for_loop_inv
    (fun k t => ((k <= mcz)%Z -> t = 0) /\
                ((mcz < k)%Z -> a * IZR (nx * ny) <= t <= b * IZR (nx * ny))));
    [lia | split; [reflexivity | lia] | | lia].
  intros k t Hk [Hbefore Hafter].
  destruct (Z.eq_dec k mcz) as [->|Hne].
  - (* the layer itself *)
    split; [lia|]. intros _. rewrite Hbefore by lia.
    assert (Hj : let t' := for_loop sy (sy + ny)
                   (fun j t => for_loop sx (sx + nx)
                      (fun i t => t + p@[mcz, j, i]) t) 0 in
                 a * (0 + IZR (sy + ny - sy) * IZR nx) <= t'
                 <= b * (0 + IZR (sy + ny - sy) * IZR nx)).
    { apply (for_loop_inv
        (fun j t => a * (0 + IZR (j - sy) * IZR nx) <= t
                    <= b * (0 + IZR (j - sy) * IZR nx))); [lia | |].
      - rewrite Z.sub_diag. simpl. lra.
      - intros j t' Hjr Ht'.
        pose proof (sum_loop_bounds a b (fun i => p@[mcz, j, i]) sx (sx + nx) t'
                      (0 + IZR (j - sy) * IZR nx) ltac:(lia)
                      (fun i Hi => Hp j i Hjr Hi) Ht') as Hi.
        cbv zeta in Hi.
        replace (sx + nx - sx)%Z with nx in Hi by lia.
        replace (j + 1 - sy)%Z with (j - sy + 1)%Z by lia.
        rewrite plus_IZR. simpl.
        replace (0 + (IZR (j - sy) + 1) * IZR nx)
          with (0 + IZR (j - sy) * IZR nx + IZR nx) by ring.
        exact Hi. }
    cbv zeta in Hj. replace (sy + ny - sy)%Z with ny in Hj by lia.
    rewrite Rplus_0_l in Hj. rewrite mult_IZR.
    replace (IZR nx * IZR ny) with (IZR ny * IZR nx) by ring.
    erewrite (for_loop_ext _
      (fun j t => for_loop sx (sx + nx) (fun i t => t + p@[mcz, j, i]) t)).
    + exact Hj.
    + intros j t'. apply for_loop_ext. intros i t''.
      now rewrite Z.eqb_refl.
  - (* another layer: nothing is added *)
    assert (Hsame : for_loop sy (sy + ny)
              (fun j t => for_loop sx (sx + nx)
                 (fun i t => if Z.eqb k mcz then t + p@[k, j, i] else t) t) t = t).
    { apply (for_loop_keeps (fun t' => t' = t)); [reflexivity|].
      intros j t' ->. apply (for_loop_keeps (fun t' => t' = t)); [reflexivity|].
      intros i t' ->. destruct (Z.eqb_spec k mcz); [contradiction | reflexivity]. }
    match goal with
    | |- context [for_loop sy ?h ?bd t] =>
        replace (for_loop sy h bd t) with t by (symmetry; exact Hsame)
    end.
    split; intros Hc; [apply Hbefore | apply Hafter]; lia.
Qed.

(** a loop that adds up values *)
Lemma for_loop_sum (v : Z -> R) (lo hi : Z) (s : R) :
  for_loop lo hi (fun i t => t + v i) s = s + sum_R v lo (Z.to_nat (hi - lo)).
Proof.
  destruct (Z_le_gt_dec lo hi) as [Hle|Hgt].
  - apply (for_loop_inv
      (fun h t => t = s + sum_R v lo (Z.to_nat (h - lo)))); [exact Hle | |].
    + rewrite Z.sub_diag. simpl. ring.
    + intros i t Hi ->.
      replace (Z.to_nat (i + 1 - lo)) with (S (Z.to_nat (i - lo))) by lia.
      simpl. rewrite Z2Nat.id by lia.
      replace (lo + (i - lo))%Z with i by lia. ring.
  - rewrite for_loop_empty by lia.
    replace (Z.to_nat (hi - lo)) with 0%nat by lia. simpl. ring.
Qed.

(** the sum that [JacResGetPressShift] takes: the layer [mcz] where the
    process owns a part of it, nothing elsewhere *)
Lemma top_layer_total (da : DM) (p : arr3) (mcz : Z) :
  std_loop (da_sx da) (da_sy da) (da_sz da) (da_nx da) (da_ny da) (da_nz da)
    (fun k j i t => if Z.eqb k mcz then t + p@[k, j, i] else t) 0 =
  if (Z.leb (da_sz da) mcz && Z.ltb mcz (da_sz da + da_nz da))%bool
  then layer_sum da p mcz else 0.
Proof.
  unfold std_loop.
  set (sx := da_sx da). set (sy := da_sy da). set (sz := da_sz da).
  set (nx := da_nx da). set (ny := da_ny da). set (nz := da_nz da).
  set (L := layer_sum da p mcz).
  destruct (Z_le_gt_dec 0 nz) as [Hnz|Hnz].
  - assert (Hinv :
      for_loop sz (sz + nz)
        (fun k => for_loop sy (sy + ny)
           (fun j => for_loop sx (sx + nx)
              (fun i t => if Z.eqb k mcz then t + p@[k, j, i] else t))) 0 =
      if (Z.leb sz mcz && Z.ltb mcz (sz + nz))%bool then L else 0).
    { apply (for_loop_inv
        (fun k t => t = if (Z.leb sz mcz && Z.ltb mcz k)%bool then L else 0));
        [lia | |].
      - destruct (Z.leb_spec sz mcz), (Z.ltb_spec mcz sz); simpl;
          try reflexivity; lia.
      - intros k t Hk ->.
        destruct (Z.eq_dec k mcz) as [->|Hne].
        + (* the layer itself *)
          replace (Z.ltb mcz mcz) with false by (symmetry; apply Z.ltb_irrefl).
          rewrite andb_false_r.
          replace (Z.leb sz mcz) with true by (symmetry; apply Z.leb_le; lia).
          replace (Z.ltb mcz (mcz + 1)) with true
            by (symmetry; apply Z.ltb_lt; lia).
          simpl andb. cbv iota.
          erewrite (for_loop_ext _
            (fun j t => t + sum_R (fun i => p@[mcz, j, i]) sx (Z.to_nat nx))).
          * rewrite for_loop_sum. unfold L, layer_sum. fold sx sy nx ny.
            replace (sy + ny - sy)%Z with ny by lia. ring.
          * intros j t.
            erewrite (for_loop_ext _ (fun i t => t + p@[mcz, j, i])).
            -- rewrite for_loop_sum. now replace (sx + nx - sx)%Z with nx by lia.
            -- intros i t'. now rewrite Z.eqb_refl.
        + (* another layer: nothing is added *)
          replace (Z.ltb mcz (k + 1)) with (Z.ltb mcz k).
          2:{ destruct (Z.ltb_spec mcz k), (Z.ltb_spec mcz (k + 1));
                try reflexivity; lia. }
          set (t0 := if (Z.leb sz mcz && Z.ltb mcz k)%bool then L else 0).
          apply (for_loop_keeps (fun t' => t' = t0)); [reflexivity|].
          intros j t' ->. apply (for_loop_keeps (fun t' => t' = t0)); [reflexivity|].
          intros i t' ->. destruct (Z.eqb_spec k mcz); [contradiction | reflexivity]. }
    exact Hinv.
  - rewrite for_loop_empty by lia.
    destruct (Z.leb_spec sz mcz), (Z.ltb_spec mcz (sz + nz)); simpl;
      try reflexivity; lia.
Qed.

(** X15. [JacResGetPressShift], when the shift is requested and the grid
    has cells along x and y: the stored shift is the sum of the pressures
    of the top layer of cells divided by their number
    [tcels_x * tcels_y], each process adding the pressures of the cells it
    owns in that layer.  On one process that owns the whole top layer the
    shift is therefore their mean: it lies between any two bounds of these
    pressures, and is [p0] when the top layer has the pressure [p0]
    everywhere. *)
Theorem JacResGetPressShift_mean (others : list R) (jr : JacRes) (a b : R) :
  let f := fs jr in
  let da := DA_CEN f in
  let mcz := (tcels (dsz f) - 1)%Z in
  pShiftAct jr = true ->
  (1 <= tcels (dsx f))%Z -> (1 <= tcels (dsy f))%Z ->
  pShift (JacResGetPressShift others jr) =
    fold_right Rplus (own_top_sum jr) others
    / IZR (tcels (dsx f) * tcels (dsy f)) /\
  (others = [] ->
   da_nx da = tcels (dsx f) -> da_ny da = tcels (dsy f) ->
   (da_sz da <= mcz < da_sz da + da_nz da)%Z ->
   (forall j i, (da_sy da <= j < da_sy da + da_ny da)%Z ->
                (da_sx da <= i < da_sx da + da_nx da)%Z ->
      a <= (gp jr)@[mcz, j, i] <= b) ->
   pShift (JacResGetPressShift others jr) = layer_sum da (gp jr) mcz
                                            / IZR (da_nx da * da_ny da) /\
   a <= pShift (JacResGetPressShift others jr) <= b).
Proof.
  intros f da mcz Hact Htx Hty.
  assert (Hrun : pShift (JacResGetPressShift others jr) =
                 fold_right Rplus (own_top_sum jr) others
                 / IZR (tcels (dsx f) * tcels (dsy f))).
  { unfold JacResGetPressShift. rewrite Hact. simpl negb. cbv iota zeta.
    fold f. fold da. fold mcz. simpl pShift.
    rewrite top_layer_total. unfold own_top_sum. fold f. fold da. fold mcz.
    destruct others; reflexivity. }
  split; [exact Hrun|].
  intros -> Hnx Hny Hz Hp.
  assert (Hown : own_top_sum jr = layer_sum da (gp jr) mcz).
  { unfold own_top_sum. fold f. fold da. fold mcz.
    replace (Z.leb (da_sz da) mcz) with true by (symmetry; apply Z.leb_le; lia).
    replace (Z.ltb mcz (da_sz da + da_nz da)) with true
      by (symmetry; apply Z.ltb_lt; lia).
    reflexivity. }
  rewrite Hrun. simpl fold_right. rewrite Hown, Hnx, Hny.
  split; [reflexivity|].
  pose proof (top_layer_sum a b (gp jr) (da_sx da) (da_sy da) (da_sz da)
                (da_nx da) (da_ny da) (da_nz da) mcz ltac:(lia) ltac:(lia) Hz Hp)
    as Hs.
  cbv zeta in Hs.
  rewrite (top_layer_total da (gp jr) mcz) in Hs.
  replace (Z.leb (da_sz da) mcz) with true in Hs
    by (symmetry; apply Z.leb_le; lia).
  replace (Z.ltb mcz (da_sz da + da_nz da)) with true in Hs
    by (symmetry; apply Z.ltb_lt; lia).
  simpl andb in Hs. cbv iota in Hs. rewrite Hnx, Hny in Hs.
  assert (Hn : 0 < IZR (tcels (dsx f) * tcels (dsy f))) by (apply IZR_lt; nia).
  split.
  - apply Rmult_le_reg_r with (IZR (tcels (dsx f) * tcels (dsy f))); [exact Hn|].
    unfold Rdiv. rewrite Rmult_assoc, Rinv_l by lra. lra.
  - apply Rmult_le_reg_r with (IZR (tcels (dsx f) * tcels (dsy f))); [exact Hn|].
    unfold Rdiv. rewrite Rmult_assoc, Rinv_l by lra. lra.
Qed.

(** *** Further properties: a velocity field that is linear in space *)

Lemma std_loop_on_set3 (g : Z -> Z -> Z -> R) (r : Z * Z * Z * Z * Z * Z)
    (a : arr3) (k j i : Z) :
  in_box r k j i ->
  (std_loop_on r (fun k j i a => set3 a k j i (g k j i)) a)@[k, j, i] = g k j i.
Proof.
  intros Hin.
  pose proof (lin_bounds r k j i Hin) as Hb.
  pose proof (std_loop_inv
    (fun n (t : arr3) => forall k' j' i', in_box r k' j' i' ->
       (lin r k' j' i' < n)%Z -> t@[k', j', i'] = g k' j' i')
    (fun k j i a => set3 a k j i (g k j i)) r a) as Hinv.
  destruct r as [[[[[sx sy] sz] nx] ny] nz].
  assert (Hpos : (0 <= nx /\ 0 <= ny /\ 0 <= nz)%Z) by (simpl in Hin; lia).
  destruct Hpos as (Hx & Hy & Hz).
  apply (Hinv Hx Hy Hz); [| | exact Hin | simpl in Hb |- *; lia].
  - intros k' j' i' Hin' Hlt.
    pose proof (lin_bounds _ k' j' i' Hin') as Hb'. simpl in Hb', Hlt. lia.
  - intros k0 j0 i0 t Hin0 Hprev k' j' i' Hin' Hlt.
    destruct (Z.eq_dec (lin (sx, sy, sz, nx, ny, nz) k' j' i')
                       (lin (sx, sy, sz, nx, ny, nz) k0 j0 i0)) as [He|Hne].
    + destruct (lin_inj _ _ _ _ _ _ _ Hin' Hin0 He) as (-> & -> & ->).
      apply get3_set3_same.
    + rewrite get3_set3_other.
      * apply Hprev; [exact Hin' | lia].
      * intros E. injection E as -> -> ->. contradiction.
Qed.

Lemma node_dx_diff f i : xc f i - xc f (i - 1) = node_dx f i.
Proof.
  unfold xc, node_dx, SIZE_NODE.
  now replace (i - 1 - pstart (dsx f))%Z with (i - pstart (dsx f) - 1)%Z by lia.
Qed.

Lemma node_dy_diff f j : yc f j - yc f (j - 1) = node_dy f j.
Proof.
  unfold yc, node_dy, SIZE_NODE.
  now replace (j - 1 - pstart (dsy f))%Z with (j - pstart (dsy f) - 1)%Z by lia.
Qed.

Lemma node_dz_diff f k : zc f k - zc f (k - 1) = node_dz f k.
Proof.
  unfold zc, node_dz, SIZE_NODE.
  now replace (k - 1 - pstart (dsz f))%Z with (k - pstart (dsz f) - 1)%Z by lia.
Qed.

(** X16. [JacResGetVorticity] is exact on a velocity field that is
    linear in space: with the velocity gradient [G] and an exchange of ghost
    values that keeps the owned entries, every edge point whose two
    center-to-center distances are not zero gets the component of the curl,
    [wz = Gyx - Gxy] on the xy edges, [wy = Gxz - Gzx] on the xz edges and
    [wx = Gzy - Gyz] on the yz edges.  A rigid rotation at the rate [w]
    about z has [Gyx = w] and [Gxy = -w], hence [wz = 2w]. *)
Theorem JacResGetVorticity_linear `{PetscLib} (G : Gradient) (jr : JacRes)
    (k j i : Z) :
  keeps_owned -> linear_velocity G jr ->
  let f := fs jr in
  let jr' := JacResGetVorticity jr in
  (in_box (xy_range f) k j i -> owned (DA_XY f) k j i ->
   node_dx f i <> 0 -> node_dy f j <> 0 ->
   (ldxy jr')@[k, j, i] = Gyx G - Gxy G) /\
  (in_box (xz_range f) k j i -> owned (DA_XZ f) k j i ->
   node_dx f i <> 0 -> node_dz f k <> 0 ->
   (ldxz jr')@[k, j, i] = Gxz G - Gzx G) /\
  (in_box (yz_range f) k j i -> owned (DA_YZ f) k j i ->
   node_dy f j <> 0 -> node_dz f k <> 0 ->
   (ldyz jr')@[k, j, i] = Gzy G - Gyz G).
Proof.
  intros Hkeep (Hvx & Hvy & Hvz) f jr'. fold f in Hvx, Hvy, Hvz.
  unfold jr', JacResGetVorticity, set_ld. cbn [ldxy ldxz ldyz]. fold f.
  cbv zeta. unfold GET_NODE_RANGE. cbn [snd].
  split; [|split]; intros Hin Hown H1 H2; rewrite Hkeep by exact Hown;
    rewrite (std_loop_on_set3 _ _ _ k j i Hin); rewrite ?Hvx, ?Hvy, ?Hvz.
  - fold (node_dx f i). fold (node_dy f j).
    pose proof (node_dx_diff f i) as Dx. pose proof (node_dy_diff f j) as Dy.
    replace ((v0y G + Gyx G * xc f i + Gyy G * yn f j + Gyz G * zc f k -
              (v0y G + Gyx G * xc f (i - 1) + Gyy G * yn f j + Gyz G * zc f k))
             / node_dx f i) with (Gyx G)
      by (rewrite <- Dx in H1 |- *; field; exact H1).
    replace ((v0x G + Gxx G * xn f i + Gxy G * yc f j + Gxz G * zc f k -
              (v0x G + Gxx G * xn f i + Gxy G * yc f (j - 1) + Gxz G * zc f k))
             / node_dy f j) with (Gxy G)
      by (rewrite <- Dy in H2 |- *; field; exact H2).
    reflexivity.
  - fold (node_dx f i). fold (node_dz f k).
    pose proof (node_dx_diff f i) as Dx. pose proof (node_dz_diff f k) as Dz.
    replace ((v0x G + Gxx G * xn f i + Gxy G * yc f j + Gxz G * zc f k -
              (v0x G + Gxx G * xn f i + Gxy G * yc f j + Gxz G * zc f (k - 1)))
             / node_dz f k) with (Gxz G)
      by (rewrite <- Dz in H2 |- *; field; exact H2).
    replace ((v0z G + Gzx G * xc f i + Gzy G * yc f j + Gzz G * zn f k -
              (v0z G + Gzx G * xc f (i - 1) + Gzy G * yc f j + Gzz G * zn f k))
             / node_dx f i) with (Gzx G)
      by (rewrite <- Dx in H1 |- *; field; exact H1).
    reflexivity.
  - fold (node_dy f j). fold (node_dz f k).
    pose proof (node_dy_diff f j) as Dy. pose proof (node_dz_diff f k) as Dz.
    replace ((v0z G + Gzx G * xc f i + Gzy G * yc f j + Gzz G * zn f k -
              (v0z G + Gzx G * xc f i + Gzy G * yc f (j - 1) + Gzz G * zn f k))
             / node_dy f j) with (Gzy G)
      by (rewrite <- Dy in H1 |- *; field; exact H1).
    replace ((v0y G + Gyx G * xc f i + Gyy G * yn f j + Gyz G * zc f k -
              (v0y G + Gyx G * xc f i + Gyy G * yn f j + Gyz G * zc f (k - 1)))
             / node_dz f k) with (Gyz G)
      by (rewrite <- Dz in H2 |- *; field; exact H2).
    reflexivity.
Qed.

Lemma cell_dx_diff f i : xn f (i + 1) - xn f i = cell_dx f i.
Proof.
  unfold xn, cell_dx, SIZE_CELL.
  now replace (i + 1 - pstart (dsx f))%Z with (i - pstart (dsx f) + 1)%Z by lia.
Qed.

Lemma cell_dy_diff f j : yn f (j + 1) - yn f j = cell_dy f j.
Proof.
  unfold yn, cell_dy, SIZE_CELL.
  now replace (j + 1 - pstart (dsy f))%Z with (j - pstart (dsy f) + 1)%Z by lia.
Qed.

Lemma cell_dz_diff f k : zn f (k + 1) - zn f k = cell_dz f k.
Proof.
  unfold zn, cell_dz, SIZE_CELL.
  now replace (k + 1 - pstart (dsz f))%Z with (k - pstart (dsz f) + 1)%Z by lia.
Qed.

(** what an edge loop of [JacResGetEffStrainRate] stores at an edge *)
Lemma eff_edge_loop_at (ga gb : Z -> Z -> Z -> R) (r : Z * Z * Z * Z * Z * Z)
    (sv : Z -> Edge.t) (dd : arr3) (k j i : Z) :
  in_box r k j i ->
  let t := std_loop_on r
             (fun k j i st => eff_edge_store k j i (ga k j i) (gb k j i) st)
             (0%Z, sv, dd) in
  Edge.d (snd (fst t) (lin r k j i)) = 0.5 * (ga k j i + gb k j i).
Proof.
  intros Hin. cbv zeta.
  apply (std_loop_points
    (fun t : Z * (Z -> Edge.t) * arr3 => fst (fst t))
    (fun k j i t =>
       Edge.d (snd (fst t) (lin r k j i)) = 0.5 * (ga k j i + gb k j i)));
    [reflexivity | | | exact Hin].
  - intros k0 j0 i0 [[it e] a] _ Hit. cbn [fst snd] in Hit. subst it.
    unfold eff_edge_store. cbn [fst snd]. rewrite upd_same.
    split; reflexivity.
  - intros k0 j0 i0 k' j' i' [[it e] a] _ _ Hlt Hit Hg.
    cbn [fst snd] in Hit, Hg. subst it. unfold eff_edge_store. cbn [fst snd].
    rewrite upd_other by lia. exact Hg.
Qed.

Lemma GetEffStrainRate_svEdges `{PetscLib} (jr : JacRes) :
  let jr' := JacResGetEffStrainRate jr in
  svXYEdge jr' =
    snd (fst (std_loop_on (xy_range (fs jr)) (eff_xy_body jr)
                (0%Z, svXYEdge jr, ldxy jr))) /\
  svXZEdge jr' =
    snd (fst (std_loop_on (xz_range (fs jr)) (eff_xz_body jr)
                (0%Z, svXZEdge jr, ldxz jr))) /\
  svYZEdge jr' =
    snd (fst (std_loop_on (yz_range (fs jr)) (eff_yz_body jr)
                (0%Z, svYZEdge jr, ldyz jr))).
Proof.
  unfold JacResGetEffStrainRate.
  destruct (std_loop_on (cen_range (fs jr)) (eff_cell_body jr) _)
    as [[[[it sv] a] b] c].
  destruct (std_loop_on (xy_range (fs jr)) _ _) as [[? ?] ?].
  destruct (std_loop_on (xz_range (fs jr)) _ _) as [[? ?] ?].
  destruct (std_loop_on (yz_range (fs jr)) _ _) as [[? ?] ?].
  simpl. repeat split; reflexivity.
Qed.

(** X17. [JacResGetEffStrainRate] is exact on a velocity field that
    is linear in space: with the velocity gradient [G], a cell of non-zero
    widths gets the volumetric strain rate [Gxx + Gyy + Gzz] and the
    deviatoric rates [Gxx], [Gyy], [Gzz] less a third of it, and an edge
    whose two center-to-center distances are not zero gets the symmetric
    part of the gradient, [(Gxy + Gyx)/2] and the like.  A rigid motion (an
    antisymmetric [G]) is therefore free of strain. *)
Theorem JacResGetEffStrainRate_linear `{PetscLib} (G : Gradient) (jr : JacRes)
    (k j i : Z) :
  linear_velocity G jr ->
  let f := fs jr in
  let jr' := JacResGetEffStrainRate jr in
  let th := Gxx G + Gyy G + Gzz G in
  (is_cell f k j i ->
   cell_dx f i <> 0 -> cell_dy f j <> 0 -> cell_dz f k <> 0 ->
   let c := svCell jr' (cell_index f k j i) in
   Bulk.theta (Cell.svBulk c) = th /\
   Cell.dxx c = Gxx G - th / 3 /\
   Cell.dyy c = Gyy G - th / 3 /\
   Cell.dzz c = Gzz G - th / 3) /\
  (in_box (xy_range f) k j i -> node_dx f i <> 0 -> node_dy f j <> 0 ->
   Edge.d (svXYEdge jr' (lin (xy_range f) k j i)) = (Gxy G + Gyx G) / 2) /\
  (in_box (xz_range f) k j i -> node_dx f i <> 0 -> node_dz f k <> 0 ->
   Edge.d (svXZEdge jr' (lin (xz_range f) k j i)) = (Gxz G + Gzx G) / 2) /\
  (in_box (yz_range f) k j i -> node_dy f j <> 0 -> node_dz f k <> 0 ->
   Edge.d (svYZEdge jr' (lin (yz_range f) k j i)) = (Gyz G + Gzy G) / 2).
Proof.
  intros (Hvx & Hvy & Hvz) f jr' th. fold f in Hvx, Hvy, Hvz.
  destruct (GetEffStrainRate_svEdges jr) as (Exy & Exz & Eyz).
  cbv zeta in Exy, Exz, Eyz. fold jr' f in Exy, Exz, Eyz.
  split; [|split; [|split]].
  - intros Hin Hx Hy Hz c. unfold c, jr'. rewrite GetEffStrainRate_svCell.
    destruct (eff_cell_loop_at jr k j i Hin) as (Hth & Hxx & Hyy & Hzz).
    cbv zeta in Hth, Hxx, Hyy, Hzz. fold f in Hth, Hxx, Hyy, Hzz.
    assert (Gx : grad_xx jr k j i = Gxx G).
    { unfold grad_xx. fold f. fold (cell_dx f i). rewrite !Hvx.
      pose proof (cell_dx_diff f i) as D. rewrite <- D in Hx |- *.
      field. exact Hx. }
    assert (Gy : grad_yy jr k j i = Gyy G).
    { unfold grad_yy. fold f. fold (cell_dy f j). rewrite !Hvy.
      pose proof (cell_dy_diff f j) as D. rewrite <- D in Hy |- *.
      field. exact Hy. }
    assert (Gz : grad_zz jr k j i = Gzz G).
    { unfold grad_zz. fold f. fold (cell_dz f k). rewrite !Hvz.
      pose proof (cell_dz_diff f k) as D. rewrite <- D in Hz |- *.
      field. exact Hz. }
    rewrite Gx, Gy, Gz in Hth, Hxx, Hyy, Hzz. fold th in Hth, Hxx, Hyy, Hzz.
    repeat split; assumption.
  - intros Hin H1 H2. rewrite Exy.
    pose proof (eff_edge_loop_at
      (fun k j i => ((lvx jr)@[k, j, i] - (lvx jr)@[k, j-1, i]) / node_dy f j)
      (fun k j i => ((lvy jr)@[k, j, i] - (lvy jr)@[k, j, i-1]) / node_dx f i)
      (xy_range f) (svXYEdge jr) (ldxy jr) k j i Hin) as He.
    cbv zeta in He. etransitivity; [exact He|]. cbv beta. rewrite !Hvx, !Hvy.
    pose proof (node_dx_diff f i) as Dx. pose proof (node_dy_diff f j) as Dy.
    match goal with |- 0.5 * (?a + ?b) = _ =>
      assert (Ea : a = Gxy G) by (rewrite <- Dy in H2 |- *; field; exact H2);
      assert (Eb : b = Gyx G) by (rewrite <- Dx in H1 |- *; field; exact H1);
      rewrite Ea, Eb
    end. lra.
  - intros Hin H1 H2. rewrite Exz.
    pose proof (eff_edge_loop_at
      (fun k j i => ((lvx jr)@[k, j, i] - (lvx jr)@[k-1, j, i]) / node_dz f k)
      (fun k j i => ((lvz jr)@[k, j, i] - (lvz jr)@[k, j, i-1]) / node_dx f i)
      (xz_range f) (svXZEdge jr) (ldxz jr) k j i Hin) as He.
    cbv zeta in He. etransitivity; [exact He|]. cbv beta. rewrite !Hvx, !Hvz.
    pose proof (node_dx_diff f i) as Dx. pose proof (node_dz_diff f k) as Dz.
    match goal with |- 0.5 * (?a + ?b) = _ =>
      assert (Ea : a = Gxz G) by (rewrite <- Dz in H2 |- *; field; exact H2);
      assert (Eb : b = Gzx G) by (rewrite <- Dx in H1 |- *; field; exact H1);
      rewrite Ea, Eb
    end. lra.
  - intros Hin H1 H2. rewrite Eyz.
    pose proof (eff_edge_loop_at
      (fun k j i => ((lvy jr)@[k, j, i] - (lvy jr)@[k-1, j, i]) / node_dz f k)
      (fun k j i => ((lvz jr)@[k, j, i] - (lvz jr)@[k, j-1, i]) / node_dy f j)
      (yz_range f) (svYZEdge jr) (ldyz jr) k j i Hin) as He.
    cbv zeta in He. etransitivity; [exact He|]. cbv beta. rewrite !Hvy, !Hvz.
    pose proof (node_dy_diff f j) as Dy. pose proof (node_dz_diff f k) as Dz.
    match goal with |- 0.5 * (?a + ?b) = _ =>
      assert (Ea : a = Gyz G) by (rewrite <- Dz in H2 |- *; field; exact H2);
      assert (Eb : b = Gzy G) by (rewrite <- Dy in H1 |- *; field; exact H1);
      rewrite Ea, Eb
    end. lra.
Qed.

(** *** Further properties: the residual vector read back *)

Lemma spc_zero_other num list_ res d :
  (forall n, (0 <= n < num)%Z -> list_ n <> d) ->
  spc_zero num list_ res d = res d.
Proof.
  intros Hd. unfold spc_zero.
  destruct (Z_le_gt_dec 0 num) as [Hle|Hgt].
  - apply (for_loop_inv (fun _ (s : Z -> R) => s d = res d));
      [exact Hle | reflexivity |].
    intros i t Hi Ht. rewrite upd_other; [exact Ht|].
    intros E. apply (Hd i Hi). now symmetry.
  - now rewrite for_loop_empty by lia.
Qed.

Lemma PetscMemcpy_out dst doff src soff n i :
  (i < doff \/ doff + n <= i)%Z -> PetscMemcpy dst doff src soff n i = dst i.
Proof.
  intros Hi. unfold PetscMemcpy.
  destruct (Z.leb_spec doff i), (Z.ltb_spec i (doff + n)); simpl;
    try reflexivity; lia.
Qed.

(** X18. The residual vector written by [JacResCopyRes] and read
    back by [JacResCopyMomentumRes] and [JacResCopyContinuityRes], on a grid
    whose number of velocity unknowns [dof.lnv] is the number of its faces
    and whose face and cell counts are not negative: the residual arrays of
    the object then hold the assembled vector entry by entry, which is the
    residual the object held before at every entry that no single-point
    constraint names. *)
Theorem residual_read_back (jr : JacRes) (f : Z -> R) (d : Z) :
  let g := fs jr in
  let res := JacResCopyRes jr f in
  let jr' := JacResCopyContinuityRes (JacResCopyMomentumRes jr res) res in
  lnv (dof g) = (nXFace g + nYFace g + nZFace g)%Z ->
  (0 <= nXFace g)%Z -> (0 <= nYFace g)%Z -> (0 <= nZFace g)%Z ->
  (0 <= d < coupled_size g)%Z ->
  residual_entry jr' d = res d /\
  (unconstrained (bc jr) d -> res d = residual_entry jr d).
Proof.
  intros g res jr' Hlnv Hx Hy Hz Hd. unfold coupled_size in Hd. fold g in Hd.
  split.
  - unfold residual_entry, jr', JacResCopyContinuityRes, JacResCopyMomentumRes,
      set_res, coupled_entry.
    cbn [fs gfx gfy gfz gc]. fold g. cbv zeta. rewrite !VecGetArray_Place.
    cbn [fs gfx gfy gfz gc]. fold g. rewrite Hlnv.
    destruct (Z.ltb_spec d (nXFace g)).
    { rewrite PetscMemcpy_in by lia. f_equal; lia. }
    destruct (Z.ltb_spec d (nXFace g + nYFace g)).
    { rewrite PetscMemcpy_in by lia. f_equal; lia. }
    destruct (Z.ltb_spec d (nXFace g + nYFace g + nZFace g)).
    { rewrite PetscMemcpy_in by lia. f_equal; lia. }
    rewrite PetscMemcpy_in by lia. f_equal; lia.
  - intros [Hv Hp]. unfold res, JacResCopyRes. cbv zeta. fold g.
    rewrite spc_zero_other by exact Hp. rewrite spc_zero_other by exact Hv.
    unfold residual_entry, coupled_entry. fold g.
    destruct (Z.ltb_spec d (nXFace g)).
    { rewrite !PetscMemcpy_out by lia. rewrite PetscMemcpy_in by lia.
      f_equal; lia. }
    destruct (Z.ltb_spec d (nXFace g + nYFace g)).
    { rewrite !PetscMemcpy_out by lia. rewrite PetscMemcpy_in by lia.
      f_equal; lia. }
    destruct (Z.ltb_spec d (nXFace g + nYFace g + nZFace g)).
    { rewrite PetscMemcpy_out by lia. rewrite PetscMemcpy_in by lia.
      f_equal; lia. }
    rewrite PetscMemcpy_in by lia. f_equal; lia.
Qed.

(** *** Further properties: the counts of a created grid *)

Lemma Discret1DCreate_counts (ds0 : Discret1D) (np r : Z) (nn : Z -> Z)
    (col gp gn : Z) :
  (0 <= np)%Z ->
  let ds := Discret1DCreate ds0 np r nn col gp gn in
  nproc ds = np /\ rank ds = r /\
  tnods ds = sum_below nn np /\ tcels ds = (sum_below nn np - 1)%Z /\
  nnods ds = nn r /\
  ncels ds = (if Z.eqb gn (-1) then nn r - 1 else nn r)%Z.
Proof.
  intros Hnp ds. unfold ds, Discret1DCreate.
  assert (Hloop :
    fst (for_loop 0 np
           (fun i '(cnt, st) => ((cnt + nn i)%Z, upd st i cnt))
           (0%Z, zeroInt)) = sum_below nn np).
  { apply (for_loop_inv
      (fun hi (q : Z * (Z -> Z)) => fst q = sum_below nn hi)); [lia | reflexivity |].
    intros i [cnt st] Hi Hc. simpl in Hc. subst cnt. simpl.
    now rewrite sum_below_succ by lia. }
  destruct (for_loop 0 np _ (0%Z, zeroInt)) as [cnt st].
  simpl in Hloop. subst cnt. simpl.
  destruct (Z.eqb gn (-1)); repeat split; reflexivity.
Qed.

Lemma sum_below_incr (l : Z -> Z) (p n : Z) :
  (0 <= p < n)%Z -> sum_below (incr l p) n = (sum_below l n + 1)%Z.
Proof.
  intros Hp.
  assert (Hgen : forall m, (0 <= m)%Z ->
            sum_below (incr l p) m =
            (sum_below l m + (if Z.ltb p m then 1 else 0))%Z).
  { intros m Hm. replace m with (Z.of_nat (Z.to_nat m)) by lia.
    generalize (Z.to_nat m) as k. induction k as [|k IH].
    - simpl. destruct (Z.ltb_spec p 0); [lia | reflexivity].
    - replace (Z.of_nat (S k)) with (Z.of_nat k + 1)%Z by lia.
      rewrite !sum_below_succ by lia. rewrite IH. unfold incr, upd.
      destruct (Z.ltb_spec p (Z.of_nat k)), (Z.ltb_spec p (Z.of_nat k + 1));
        destruct (Z.eqb_spec (Z.of_nat k) p) as [E|E];
        try rewrite <- E; lia. }
  rewrite Hgen by lia. destruct (Z.ltb_spec p n); lia.
Qed.

(** X19. A grid that [FDSTAGCreate] returns, on a process grid where
    the neighbour lookup finds no next process exactly on the last rank of
    each direction: along each axis the local cells are the cells that the
    distributed array of the centers gives to the rank, the local nodes are
    one more on the last rank and as many elsewhere, the cells of the axis
    are all the cells distributed and its nodes one more; the count of local
    cells is the product of the three local cell counts. *)
Theorem FDSTAGCreate_counts `{PetscLib} (fs0 fs' : FDSTAG)
    (Nx Ny Nz Px0 Py0 Pz0 : Z) :
  FDSTAGCreate fs0 Nx Ny Nz Px0 Py0 Pz0 = Ok fs' ->
  let cen := DA_CEN fs' in
  let Px := da_m cen in let Py := da_n cen in let Pz := da_p cen in
  let rx := da_rx cen in let ry := da_ry cen in let rz := da_rz cen in
  (0 <= rx < Px)%Z -> (0 <= ry < Py)%Z -> (0 <= rz < Pz)%Z ->
  (getGlobalRank (rx + 1) ry rz Px Py Pz = (-1)%Z <-> rx = (Px - 1)%Z) ->
  (getGlobalRank rx (ry + 1) rz Px Py Pz = (-1)%Z <-> ry = (Py - 1)%Z) ->
  (getGlobalRank rx ry (rz + 1) Px Py Pz = (-1)%Z <-> rz = (Pz - 1)%Z) ->
  (ncels (dsx fs') = da_lx cen rx /\
   nnods (dsx fs') = (da_lx cen rx + if Z.eqb rx (Px - 1) then 1 else 0)%Z /\
   tcels (dsx fs') = sum_below (da_lx cen) Px /\
   tnods (dsx fs') = (tcels (dsx fs') + 1)%Z) /\
  (ncels (dsy fs') = da_ly cen ry /\
   nnods (dsy fs') = (da_ly cen ry + if Z.eqb ry (Py - 1) then 1 else 0)%Z /\
   tcels (dsy fs') = sum_below (da_ly cen) Py /\
   tnods (dsy fs') = (tcels (dsy fs') + 1)%Z) /\
  (ncels (dsz fs') = da_lz cen rz /\
   nnods (dsz fs') = (da_lz cen rz + if Z.eqb rz (Pz - 1) then 1 else 0)%Z /\
   tcels (dsz fs') = sum_below (da_lz cen) Pz /\
   tnods (dsz fs') = (tcels (dsz fs') + 1)%Z) /\
  nCells fs' = (da_lx cen rx * da_ly cen ry * da_lz cen rz)%Z.
Proof.
  intros Hrun. unfold FDSTAGCreate in Hrun. cbv zeta in Hrun.
  match type of Hrun with
  | bindR ?e _ = _ => destruct e as [cen|]; [cbn [bindR] in Hrun | discriminate]
  end.
  repeat match type of Hrun with
  | bindR ?e _ = _ =>
      let d := fresh "d" in
      destruct e as [d|] ; [cbn [bindR] in Hrun | discriminate]
  end.
  injection Hrun as <-. cbn [DA_CEN dsx dsy dsz nCells].
  set (Px := da_m cen). set (Py := da_n cen). set (Pz := da_p cen).
  set (rx := da_rx cen). set (ry := da_ry cen). set (rz := da_rz cen).
  intros Hx Hy Hz Gx Gy Gz.
  assert (Haxis : forall ds0 P r l nn col gp gn,
            (0 <= r < P)%Z -> (gn = (-1)%Z <-> r = (P - 1)%Z) ->
            (forall i, nn i = incr l (P - 1) i) ->
            let ds := Discret1DCreate ds0 P r nn col gp gn in
            ncels ds = l r /\
            nnods ds = (l r + if Z.eqb r (P - 1) then 1 else 0)%Z /\
            tcels ds = sum_below l P /\ tnods ds = (tcels ds + 1)%Z).
  { intros ds0 P r l nn col gp gn Hr Hg Hnn ds.
    destruct (Discret1DCreate_counts ds0 P r nn col gp gn
                ltac:(lia)) as (_ & _ & Htn & Htc & Hn & Hnc).
    fold ds in Htn, Htc, Hn, Hnc.
    assert (Hsum : sum_below nn P = (sum_below l P + 1)%Z).
    { rewrite <- (sum_below_incr l (P - 1) P) by lia.
      unfold sum_below. generalize (Z.to_nat P) as m.
      induction m as [|m IH]; [reflexivity|]. simpl. now rewrite IH, Hnn. }
    rewrite Hsum in Htn, Htc. rewrite Hnc, Hn, Htc, Htn, Hnn.
    unfold incr, upd.
    destruct (Z.eqb_spec r (P - 1)) as [E|E], (Z.eqb_spec gn (-1)) as [E'|E'];
      try (exfalso; tauto); try rewrite <- E; repeat split; lia. }
  assert (Hl : forall (l : Z -> Z) p i,
            incr (decr (incr (decr (incr (decr (incr l p) p) p) p) p) p) p i
            = incr l p i).
  { intros l p i. unfold incr, decr, upd. rewrite !Z.eqb_refl.
    destruct (Z.eqb i p); lia. }
  match goal with
  | |- (ncels (Discret1DCreate _ _ _ ?lx _ ?gp _) = _ /\ _) /\ _ =>
      pose proof (Haxis (dsx fs0) Px rx (da_lx cen) lx (ry + rz * Py)%Z gp _
                    Hx Gx (Hl (da_lx cen) (Px - 1)%Z)) as Ax
  end.
  match goal with
  | |- _ /\ (ncels (Discret1DCreate _ _ _ ?ly _ ?gp _) = _ /\ _) /\ _ =>
      pose proof (Haxis (dsy fs0) Py ry (da_ly cen) ly (rx + rz * Px)%Z gp _
                    Hy Gy (Hl (da_ly cen) (Py - 1)%Z)) as Ay
  end.
  match goal with
  | |- _ /\ _ /\ (ncels (Discret1DCreate _ _ _ ?lz _ ?gp _) = _ /\ _) /\ _ =>
      pose proof (Haxis (dsz fs0) Pz rz (da_lz cen) lz (rx + ry * Px)%Z gp _
                    Hz Gz (Hl (da_lz cen) (Pz - 1)%Z)) as Az
  end.
  cbv zeta in Ax, Ay, Az.
  split; [exact Ax|]. split; [exact Ay|]. split; [exact Az|].
  destruct Ax as (-> & _). destruct Ay as (-> & _). destruct Az as (-> & _).
  reflexivity.
Qed.

(** *** Further properties: the cell sizes of a biased segment *)

(** X20. A whole segment of [M >= 2] cells as [MeshSeg1DGenCoord]
    generates it, with [1 + bias <> 0]: the first node is the start of the
    segment and the last one its end; the sizes of the cells form an
    arithmetic progression, cell [n] being [begSz + n*dx] wide; the first
    cell is [begSz = 2*avg/(1+bias)] wide and the last one [bias*begSz], so
    that [bias] is the ratio of the last cell size to the first.  Over the
    reals the override of the last node changes nothing: the progression
    ends at the end of the segment. *)
Theorem MeshSeg1DGenCoord_progression (ms : MeshSeg1D) (iseg crd : Z)
    (mem : Z -> R) :
  let M := (istart ms (iseg + 1) - istart ms iseg)%Z in
  let xbeg := xstart ms iseg in
  let xclose := xstart ms (iseg + 1) in
  let b := biases ms iseg in
  let begSz := 2 * ((xclose - xbeg) / IZR M) / (1 + b) in
  let dx := (b * begSz - begSz) / IZR (M - 1) in
  let c := fun n => MeshSeg1DGenCoord ms iseg (M + 1) 0 crd mem (crd + n) in
  (2 <= M)%Z -> 1 + b <> 0 ->
  c 0%Z = xbeg /\ c M = xclose /\
  c 1%Z - c 0%Z = begSz /\ c M - c (M - 1)%Z = b * begSz /\
  forall n, (0 <= n < M)%Z -> c (n + 1)%Z - c n = begSz + IZR n * dx.
Proof.
  intros M xbeg xclose b begSz dx c HM Hb.
  assert (HM0 : IZR M <> 0) by (apply not_0_IZR; lia).
  assert (HM1 : IZR (M - 1) <> 0) by (apply not_0_IZR; lia).
  assert (Hc : forall n, (0 <= n <= M)%Z -> c n = seg_node ms iseg n).
  { intros n Hn. unfold c.
    rewrite (MeshSeg1DGenCoord_at ms iseg (M + 1) 0 crd mem n); fold M; try lia.
    f_equal. }
  (* the progression, the end of the segment included *)
  assert (Hf : forall n, (0 <= n <= M)%Z ->
            c n = xbeg + IZR n * begSz + IZR (tri n) * dx).
  { intros n Hn. rewrite Hc by exact Hn. unfold seg_node, seg_formula.
    fold M xbeg xclose b.
    pose proof (IZR_tri M ltac:(lia)) as HT.
    assert (HM2 : IZR M - 1 <> 0) by (rewrite minus_IZR in HM1; exact HM1).
    assert (Hend : xbeg + IZR M * begSz + IZR (tri M) * dx = xclose).
    { unfold dx. rewrite minus_IZR.
      replace (IZR (tri M)) with (IZR M * (IZR M - 1) / 2) by lra.
      unfold begSz. field. repeat split; assumption. }
    destruct (Z.eqb_spec n M) as [->|Hne]; [now rewrite Hend|].
    destruct (Req_dec_T b 1) as [Hb1|Hb1]; [|reflexivity].
    unfold dx, begSz. rewrite Hb1, minus_IZR. field.
    repeat split; try assumption; lra. }
  assert (Hstep : forall n, (0 <= n < M)%Z -> c (n + 1)%Z - c n = begSz + IZR n * dx).
  { intros n Hn. rewrite !Hf by lia. rewrite tri_succ, !plus_IZR. simpl. ring. }
  split; [rewrite Hf by lia; simpl; change (tri 0) with 0%Z; simpl; ring|].
  split.
  { rewrite Hc by lia. unfold seg_node. fold M xclose.
    now rewrite Z.eqb_refl. }
  split; [change 1%Z with (0 + 1)%Z at 1; rewrite (Hstep 0%Z) by lia;
          simpl; ring|].
  split; [|exact Hstep].
  replace M with (M - 1 + 1)%Z at 1 by lia. rewrite Hstep by lia.
  unfold dx. field. exact HM1.
Qed.

(** *** Further properties: the buffer of the phase ratios *)

Lemma set_phRat_spec (n np s0 : Z) :
  (0 <= n)%Z ->
  fst (set_phRat n np s0) = (s0 + n * np)%Z /\
  forall i, (0 <= i < n)%Z -> snd (set_phRat n np s0) i = (s0 + i * np)%Z.
Proof.
  intros Hn. unfold set_phRat.
  apply (for_loop_inv
    (fun hi (q : Z * (Z -> Z)) =>
       fst q = (s0 + hi * np)%Z /\
       forall i, (0 <= i < hi)%Z -> snd q i = (s0 + i * np)%Z)); [exact Hn | |].
  - split; [simpl; lia | intros i Hi; lia].
  - intros i [s p] Hi [Hs Hp]. cbn [fst snd] in Hs, Hp. subst s. cbn [fst snd].
    split; [lia|]. intros i' Hi'.
    destruct (Z.eq_dec i' i) as [->|Hne].
    + now rewrite upd_same.
    + rewrite upd_other by exact Hne. apply Hp. lia.
Qed.

(** X22. The buffer of the phase ratios that [JacResCreate] hands
    out, for counts that are not negative: record [i] of the cells gets the
    [numPhases] entries from [numPhases*i] on, the xy edges follow the
    cells, the xz edges the xy edges and the yz edges the xz edges, and the
    slice of the last yz edge ends where the buffer ends.  So no two
    records share an entry and none reaches outside the buffer. *)
Theorem JacResCreate_svBuff_layout (np : Z) (f : FDSTAG) :
  (0 <= nCells f)%Z -> (0 <= nXYEdg f)%Z -> (0 <= nXZEdg f)%Z ->
  (0 <= nYZEdg f)%Z ->
  let b := JacResCreate_svBuff np f in
  (forall i, (0 <= i < nCells f)%Z -> cell_phRat b i = (np * i)%Z) /\
  (forall i, (0 <= i < nXYEdg f)%Z -> xy_phRat b i = (np * (nCells f + i))%Z) /\
  (forall i, (0 <= i < nXZEdg f)%Z ->
     xz_phRat b i = (np * (nCells f + nXYEdg f + i))%Z) /\
  (forall i, (0 <= i < nYZEdg f)%Z ->
     yz_phRat b i = (np * (nCells f + nXYEdg f + nXZEdg f + i))%Z) /\
  svBuffSz b = (np * (nCells f + nXYEdg f + nXZEdg f + nYZEdg f))%Z.
Proof.
  intros Hc Hxy Hxz Hyz b. unfold b, JacResCreate_svBuff. cbv zeta.
  destruct (set_phRat_spec (nCells f) np 0 Hc) as [E1 P1].
  destruct (set_phRat (nCells f) np 0) as [s1 pc]. cbn [fst snd] in E1, P1.
  destruct (set_phRat_spec (nXYEdg f) np s1 Hxy) as [E2 P2].
  destruct (set_phRat (nXYEdg f) np s1) as [s2 pxy]. cbn [fst snd] in E2, P2.
  destruct (set_phRat_spec (nXZEdg f) np s2 Hxz) as [E3 P3].
  destruct (set_phRat (nXZEdg f) np s2) as [s3 pxz]. cbn [fst snd] in E3, P3.
  destruct (set_phRat_spec (nYZEdg f) np s3 Hyz) as [E4 P4].
  destruct (set_phRat (nYZEdg f) np s3) as [s4 pyz]. cbn [fst snd] in E4, P4.
  cbn [cell_phRat xy_phRat xz_phRat yz_phRat svBuffSz].
  repeat split; try reflexivity; intros i Hi;
    [rewrite P1 by exact Hi | rewrite P2 by exact Hi
    | rewrite P3 by exact Hi | rewrite P4 by exact Hi]; lia.
Qed.

(** ** Part V: the theorems at work on the example inputs *)

(** the examples run on one process, with the linear material and the
    plain boundary macros *)
#[local] Existing Instance petsc_sequential.
#[local] Existing Instance linear_material.
#[local] Existing Instance plain_macros.


Lemma is_cell_line_origin : is_cell fs_line 0 0 0.
Proof. unfold is_cell, in_box. simpl. lia. Qed.

Lemma C7_deviatoric_trace_free_witness :
  is_cell (fs jr_flow) 0 0 0 /\
  cell_dx (fs jr_flow) 0 <> 0 /\ cell_dy (fs jr_flow) 0 <> 0 /\
  cell_dz (fs jr_flow) 0 <> 0 /\
  let c := svCell (JacResGetEffStrainRate jr_flow) (cell_index (fs jr_flow) 0 0 0) in
  Cell.dxx c + Cell.dyy c + Cell.dzz c = 0.
Proof.
  assert (Hx : cell_dx (fs jr_flow) 0 <> 0)
    by (cbv [cell_dx SIZE_CELL jr_flow jr_line fs fs_line dsx ds_line pstart
             ncoor upd zeroScal]; simpl; lra).
  assert (Hy : cell_dy (fs jr_flow) 0 <> 0)
    by (cbv [cell_dy SIZE_CELL jr_flow jr_line fs fs_line dsy ds_unit pstart
             ncoor upd zeroScal]; simpl; lra).
  assert (Hz : cell_dz (fs jr_flow) 0 <> 0)
    by (cbv [cell_dz SIZE_CELL jr_flow jr_line fs fs_line dsz ds_unit pstart
             ncoor upd zeroScal]; simpl; lra).
  split; [exact is_cell_line_origin|].
  repeat (split; [assumption|]).
  exact (proj2 (proj2 (proj2
    (C7_deviatoric_trace_free jr_flow 0 0 0 is_cell_line_origin Hx Hy Hz)))).
Defined.



Lemma C3_single_point_constraints_witness :
  solution_entry (fst (JacResCopySol jr_pins zeroScal)) 1 = 9 /\
  solution_entry (fst (JacResCopySol jr_pins zeroScal)) 11 = 6 /\
  JacResCopyRes jr_pins (fun _ => 1) 1 = 0 /\
  JacResCopyRes jr_pins (fun _ => 1) 11 = 0.
Proof.
  destruct (C3_single_point_constraints jr_pins zeroScal (fun _ => 1))
    as (Hv & Hp & Hrv & Hrp).
  split; [|split; [|split]].
  - apply (Hv 1%Z); [simpl; lia | unfold coupled_size; simpl; lia | |].
    + intros n' Hn' _. simpl in Hn'. lia.
    + intros m _ Hm. simpl in Hm. discriminate Hm.
  - apply (Hp 0%Z); [simpl; lia | unfold coupled_size; simpl; lia |].
    intros n' Hn' _. simpl in Hn'. lia.
  - apply (Hrv 1%Z). simpl. lia.
  - apply (Hrp 0%Z). simpl. lia.
Defined.

Lemma steps_line_consistent :
  steps ds_line = steps (Discret1DGetMinMaxCellSize [] ds_line ms_line).
Proof.
  rewrite GetMinMax_steps. unfold global_minmax, local_minmax.
  cbv [nproc ncels ds_line Z.eqb for_loop]. simpl Z.to_nat. cbv [for_count].
  unfold SIZE_CELL, MeshSeg1DGetUniStep, steps, rtol.
  cbv [ncoor h_uni h_min h_max ds_line ms_line nsegs istart xstart upd zeroScal zeroInt].
  simpl. rdec.
  rewrite Rabs_pos_eq by lra. rdec. repeat f_equal; lra.
Qed.

Lemma C8_FDSTAGStretch_witness :
  let f' := FDSTAGStretch fs_line (1 / 10) 0 1 in
  nbuff (dsx f') 3 = nbuff ds_line 3 * (1 - 1 / 10 * 1) /\
  ccoor (dsx f') 1 = (ncoor (dsx f') 1 + ncoor (dsx f') (1 + 1)) / 2 /\
  steps (dsx f') =
    steps (Discret1DGetMinMaxCellSize (scale_peers (1 - 1 / 10 * 1) [])
             (dsx f') (msx f')) /\
  dsy f' = ds_unit /\ msy f' = ms_unit.
Proof.
  destruct (C8_FDSTAGStretch fs_line (1 / 10) 0 1) as ([_ Hx] & [Hy _] & _).
  assert (Hne : 1 / 10 <> 0) by lra.
  destruct (Hx Hne) as (_ & Hnodes & Hcells & _ & Hsteps).
  destruct (Hy eq_refl) as [Hdy Hmy].
  cbv zeta. split; [|split; [|split; [|split]]].
  - apply Hnodes. simpl. lia.
  - apply Hcells. simpl. lia.
  - apply Hsteps; [lra | simpl; lia | simpl; lia | simpl; lia
                  | exact steps_line_consistent].
  - exact Hdy.
  - exact Hmy.
Defined.

Lemma C9_Discret1DCheckMG_witness :
  nproc ds_line <> 0%Z /\
  exists k, (2 ^ k | ncels ds_line)%Z /\ ~ (2 ^ (k + 1) | ncels ds_line)%Z /\
            Discret1DCheckMG 2 ds_line dir_x = MGOk k.
Proof.
  assert (Hp : nproc ds_line <> 0%Z) by (simpl; lia).
  split; [exact Hp|].
  destruct (C9_Discret1DCheckMG ds_line dir_x Hp) as (_ & _ & Hok).
  destruct Hok as (k & _ & Hd & Hnd & Hrun).
  - simpl. lia.
  - reflexivity.
  - exists 2%Z. reflexivity.
  - reflexivity.
  - exists k. split; [exact Hd|]. split; [exact Hnd|].
    apply Hrun. simpl. lia.
Defined.

Lemma C6_distributed_coordinates_witness :
  let ms := MeshSeg1DCreate 0 1 4 msi_two in
  let seq := Discret1DCreate ds_unit 1 0 (fun _ => (4 + 1)%Z) 0 (-1) (-1) in
  let ds := Discret1DCreate ds_unit 2 1 nodes_two 0 0 (-1) in
  (0 <= msi_nsegs msi_two)%Z /\
  (forall i, (0 <= i < nsegs ms)%Z -> (istart ms i < istart ms (i + 1))%Z) /\
  biases_ok ms /\ (0 <= 1 < 2)%Z /\ (1 <= nodes_two 1)%Z /\
  starts_clear ds ms /\
  (0 <= pstart ds + gen_lo ds)%Z /\
  (pstart ds + gen_hi ds <= 4 + 1)%Z /\
  (gen_lo ds <= gen_hi ds)%Z /\
  exists one loc,
    Discret1DGenCoord [] seq ms = Some one /\
    Discret1DGenCoord [] ds ms = Some loc /\
    ncoor one 0 = 0 /\ ncoor one 4 = 1 /\
    forall l, (gen_lo ds <= l < gen_hi ds)%Z ->
              ncoor loc l = ncoor one (pstart ds + l).
Proof.
  intros ms seq ds.
  assert (H1 : (0 <= msi_nsegs msi_two)%Z) by (simpl; lia).
  assert (H2 : forall i, (0 <= i < nsegs ms)%Z ->
                         (istart ms i < istart ms (i + 1))%Z).
  { intros i Hi. change (nsegs ms) with 2%Z in Hi.
    assert (Hc : i = 0%Z \/ i = 1%Z) by lia.
    destruct Hc as [-> | ->]; vm_compute; reflexivity. }
  assert (Hb : biases_ok ms).
  { intros i Hi. change (nsegs ms) with 2%Z in Hi.
    assert (Hc : i = 0%Z \/ i = 1%Z) by lia.
    destruct Hc as [-> | ->].
    - left. reflexivity.
    - right. change (biases ms 1) with 2.
      split; [vm_compute; discriminate | lra]. }
  assert (Hr : (0 <= 1 < 2)%Z) by lia.
  assert (Hn : (1 <= nodes_two 1)%Z) by (vm_compute; discriminate).
  assert (Hc : starts_clear ds ms).
  { intros i Hi. change (nsegs ms) with 2%Z in Hi.
    assert (Hc : i = 0%Z \/ i = 1%Z) by lia.
    destruct Hc as [-> | ->]; vm_compute; discriminate. }
  assert (H3 : (0 <= pstart ds + gen_lo ds)%Z) by (vm_compute; discriminate).
  assert (H4 : (pstart ds + gen_hi ds <= 4 + 1)%Z) by (vm_compute; discriminate).
  assert (H5 : (gen_lo ds <= gen_hi ds)%Z) by (vm_compute; discriminate).
  repeat (split; [assumption|]).
  exact (C6_distributed_coordinates [] [] ds_unit ds_unit 0 1 4 msi_two
           2 1 nodes_two 0 0 0 (-1) H1 H2 Hb Hr Hn Hc H3 H4 H5).
Defined.

(** *** Inputs on which the specification asks for more than the program does *)

(** C3, counterexample.  Two velocity constraints name the position 1,
    the first with the value 8 and the second with 9 ([bc_pins]).  The
    position lies inside the vector, and after [JacResCopySol] the velocity
    array holds 9 there: the first constraint is not reproduced. *)
Lemma C3_single_point_constraints_counterexample :
  (0 <= 0 < vNumSPC bc_pins)%Z /\
  (0 <= vSPCList bc_pins 0 < coupled_size (fs jr_pins))%Z /\
  vSPCVals bc_pins 0 = 8 /\
  solution_entry (fst (JacResCopySol jr_pins zeroScal)) (vSPCList bc_pins 0) = 9.
Proof.
  split; [simpl; lia|]. split; [unfold coupled_size; simpl; lia|].
  split; [reflexivity|].
  rewrite CopySol_entry by (unfold coupled_size; simpl; lia).
  unfold JacResCopySol. simpl snd.
  apply spc_set_keep.
  - intros m _ Hm. simpl in Hm. discriminate Hm.
  - assert (Hin : (0 <= 1 < vNumSPC bc_pins)%Z) by (simpl; lia).
    assert (Hlast : last_word (vNumSPC bc_pins) (vSPCList bc_pins)
                      (vSPCVals bc_pins) 1).
    { intros n' Hn' _. simpl in Hn'. lia. }
    exact (spc_set_at (vNumSPC bc_pins) (vSPCList bc_pins) (vSPCVals bc_pins)
             zeroScal 1 Hin Hlast).
Qed.



(** C6, counterexample.  The axis of four cells on [0, 4] whose first
    segment is one cell with the bias 2 ([msi_short]), generated on one
    process: every segment holds a cell, and the first call of
    [MeshSeg1DGenCoord] is the one for the nodes 0 and 1 of the first
    segment, which stores a NaN as the node 0.  The node 0 is not at [beg],
    and over the reals the generation has no result. *)
Lemma C6_distributed_coordinates_counterexample :
  let ms := MeshSeg1DCreate 0 4 4 msi_short in
  let seq := Discret1DCreate ds_unit 1 0 (fun _ => (4 + 1)%Z) 0 (-1) (-1) in
  (forall i, (0 <= i < nsegs ms)%Z -> (istart ms i < istart ms (i + 1))%Z) /\
  Discret1DGenCoord [] seq ms = None /\
  PrimFloat.is_nan
    (Binary64.MeshSeg1DGenCoord ms_short64 0 2 0 0
       (fun _ => Binary64.of_int 0) 0%Z) = true.
Proof.
  intros ms seq. split; [|split].
  - intros i Hi. change (nsegs ms) with 2%Z in Hi.
    assert (Hc : i = 0%Z \/ i = 1%Z) by lia.
    destruct Hc as [-> | ->]; vm_compute; reflexivity.
  - unfold Discret1DGenCoord.
    change (grprev seq) with (-1)%Z. change (grnext seq) with (-1)%Z.
    simpl Z.eqb. cbv iota.
    change (nsegs ms) with 2%Z. change (Z.to_nat 2) with 2%nat.
    change (nnods seq) with 5%Z. change (pstart seq) with 0%Z.
    cbn [gen_segments]. change (5 =? 0)%Z with false. cbv iota.
    change (istart ms (0 + 1)) with 1%Z.
    change (1 - 0 + 1 <? 0)%Z with false. cbv iota.
    change (1 - 0 + 1 >? 5)%Z with false. cbv iota.
    unfold MeshSeg1DGenCoord_checked. cbv zeta.
    assert (Hd : divides_by_zero ms 0 = true).
    { unfold divides_by_zero. cbv zeta.
      change (biases ms 0) with 2.
      change (istart ms (0 + 1) - istart ms 0)%Z with 1%Z.
      destruct (Req_dec_T 2 1) as [H|_]; [lra|].
      destruct (Req_dec_T (1 + 2) 0) as [H|_]; [lra|].
      reflexivity. }
    rewrite Hd.
    change (istart ms (0 + 1) - istart ms 0 + 1)%Z with 2%Z.
    change (istart ms 0) with 0%Z.
    reflexivity.
  - vm_compute. reflexivity.
Qed.

(** C7, counterexample.  A cell of unit widths with the velocity 1 on its
    upper x face and 0 on the five other faces: the gradients are 1, 0 and
    0, a third of their sum is not a binary64 number, and the stored [dxx],
    [dyy], [dzz] add up to [2^-53], not to 0.  The same cell with the
    width 0 along x: the gradient is an infinity, and the sum a NaN. *)
Lemma C7_deviatoric_trace_free_counterexample :
  let one := Binary64.of_int 1 in
  let zero := Binary64.of_int 0 in
  let d := Binary64.eff_cell_d one zero zero zero zero zero one one one in
  let d0 := Binary64.eff_cell_d one zero zero zero zero zero zero one one in
  PrimFloat.eqb (Binary64.trace d) zero = false /\
  PrimFloat.ltb zero (Binary64.trace d) = true /\
  PrimFloat.is_nan (Binary64.trace d0) = true.
Proof. vm_compute. repeat split. Qed.

(** *** The further properties at work *)

(** the scans of the example grid: the x axis has cells of width 1 and 2
    and ghost cells of the same widths, the other two axes are uniform *)
Lemma scan_defined_line : scan_defined ds_line (da_box 3 1 1).
Proof.
  split.
  - intros _ idx Hidx. change (da_nx (da_box 3 1 1)) with 3%Z in Hidx.
    change (bufsz ds_line) with 5%Z.
    assert (Hc : idx = (-1)%Z \/ idx = 0%Z \/ idx = 1%Z \/ idx = 2%Z) by lia.
    destruct Hc as [-> | [-> | [-> | ->]]];
      (split; [lia|]); cbv [ds_line ncoor upd zeroScal]; simpl; lra.
  - intros Hu. exfalso. apply Hu. cbv [ds_line h_uni]. lra.
Qed.

Lemma scan_defined_unit da : scan_defined ds_unit da.
Proof.
  split.
  - intros Hu. exfalso. cbv [ds_unit h_uni] in Hu. lra.
  - intros _. cbv [ds_unit h_uni]. lra.
Qed.

Lemma JacResGetCourantStep_range_witness :
  0 < ts_dt (ts jr_backward) /\ 0 < Cmax (ts jr_backward) /\
  0 < dtmax (ts jr_backward) /\
  scan_defined (dsx (fs jr_backward)) (DA_X (fs jr_backward)) /\
  scan_defined (dsy (fs jr_backward)) (DA_Y (fs jr_backward)) /\
  scan_defined (dsz (fs jr_backward)) (DA_Z (fs jr_backward)) /\
  0 < ts_dt (ts (JacResGetCourantStep [] jr_backward)) /\
  ts_dt (ts (JacResGetCourantStep [] jr_backward)) <= 1.1 * ts_dt (ts jr_backward).
Proof.
  assert (H1 : 0 < ts_dt (ts jr_backward)) by (simpl; lra).
  assert (H2 : 0 < Cmax (ts jr_backward)) by (simpl; lra).
  assert (H3 : 0 < dtmax (ts jr_backward)) by (simpl; lra).
  assert (Hx : scan_defined (dsx (fs jr_backward)) (DA_X (fs jr_backward)))
    by exact scan_defined_line.
  assert (Hy : scan_defined (dsy (fs jr_backward)) (DA_Y (fs jr_backward)))
    by apply scan_defined_unit.
  assert (Hz : scan_defined (dsz (fs jr_backward)) (DA_Z (fs jr_backward)))
    by apply scan_defined_unit.
  repeat (split; [assumption|]).
  destruct (JacResGetCourantStep_range [] jr_backward H1 H2 H3 Hx Hy Hz)
    as (Hp & Hb & _).
  split; assumption.
Defined.

Lemma max_abs_cube_x : max_abs (da_box 2 1 1) (set3 zero3 0 0 0 (-3)) = 3.
Proof.
  unfold max_abs, VecGetLocalSize, for_loop.
  change (Z.to_nat (da_nx (da_box 2 1 1) * da_ny (da_box 2 1 1)
                    * da_nz (da_box 2 1 1) - 0)) with 2%nat.
  cbn [for_count].
  cbv [VecGetArray da_box da_sx da_sy da_sz da_nx da_ny da_nz get3 set3 zero3].
  remember Rabs as ab eqn:Hab. remember Rmax as mx eqn:Hmx.
  cbn. subst ab mx.
  rewrite Rabs_R0, (Rabs_left (-3)) by lra.
  unfold Rmax. rdec. lra.
Qed.

Lemma max_abs_still da : max_abs da zero3 = 0.
Proof.
  unfold max_abs. apply (for_loop_keeps (fun m => m = 0)); [reflexivity|].
  intros i t ->. unfold VecGetArray, zero3. rewrite Rabs_R0.
  apply Rmax_left. lra.
Qed.

Lemma uniform_idtmax_cube : uniform_idtmax jr_cube = 3.
Proof.
  unfold uniform_idtmax.
  change (DA_X (fs jr_cube)) with (da_box 2 1 1).
  change (gvx jr_cube) with (set3 zero3 0 0 0 (-3)).
  change (gvy jr_cube) with zero3. change (gvz jr_cube) with zero3.
  change (dsx (fs jr_cube)) with ds_unit. change (dsy (fs jr_cube)) with ds_unit.
  change (dsz (fs jr_cube)) with ds_unit.
  rewrite max_abs_cube_x, !max_abs_still.
  change (h_uni ds_unit) with 1.
  unfold Rmax. rdec. lra.
Qed.

Lemma JacResGetCourantStep_uniform_grid_witness :
  ~ h_uni (dsx (fs jr_cube)) < 0 /\ uniform_idtmax jr_cube <> 0 /\
  Cmax (ts jr_cube) <> 0 /\
  ts_dt (ts (JacResGetCourantStep [] jr_cube)) = 1 / 6.
Proof.
  assert (Hu : ~ h_uni ds_unit < 0) by (cbv [h_uni ds_unit]; lra).
  assert (Hi : uniform_idtmax jr_cube <> 0) by (rewrite uniform_idtmax_cube; lra).
  assert (HC : Cmax (ts jr_cube) <> 0) by (simpl; lra).
  split; [exact Hu|]. split; [exact Hi|]. split; [exact HC|].
  rewrite (JacResGetCourantStep_uniform_grid jr_cube Hu Hu Hu Hi HC).
  rewrite uniform_idtmax_cube. simpl. unfold Rmin. rdec. lra.
Defined.

Lemma MeshSeg1DCreate_layout_witness :
  (1 <= msi_nsegs msi_two)%Z /\
  istart (MeshSeg1DCreate 0 1 5 msi_two) 1 = 2%Z /\
  xstart (MeshSeg1DCreate 0 1 5 msi_two) 1 = 1 / 2 /\
  istart (MeshSeg1DCreate 0 1 5 msi_two) 2 = 5%Z.
Proof.
  assert (Hn : (1 <= msi_nsegs msi_two)%Z) by (simpl; lia).
  destruct (MeshSeg1DCreate_layout 0 1 5 msi_two Hn) as (_ & Hseg & Hend & _).
  destruct (Hseg 1%Z ltac:(simpl; lia)) as (Hi & Hx & _).
  split; [exact Hn|]. split; [|split].
  - rewrite Hi. reflexivity.
  - rewrite Hx. reflexivity.
  - exact Hend.
Defined.

Lemma Discret1DCreate_cells_witness :
  (0 <= 1 < 2)%Z /\
  pstart (Discret1DCreate ds_unit 2 1 nodes_two 0 0 (-1)) = 2%Z /\
  ncels (Discret1DCreate ds_unit 2 1 nodes_two 0 0 (-1)) = 2%Z /\
  starts (Discret1DCreate ds_unit 2 1 nodes_two 0 0 (-1)) 2 = 4%Z.
Proof.
  assert (Hr : (0 <= 1 < 2)%Z) by lia.
  assert (Hl : (-1)%Z = (-1)%Z <-> 1%Z = (2 - 1)%Z) by (split; reflexivity).
  destruct (Discret1DCreate_cells ds_unit 2 1 nodes_two 0 0 (-1) Hr Hl)
    as (Hst & Htn & Htc & Hend & Hps & Hnn & Hcells).
  split; [exact Hr|].
  assert (Hp : pstart (Discret1DCreate ds_unit 2 1 nodes_two 0 0 (-1)) = 2%Z).
  { rewrite Hps, (Hst 1%Z Hr). reflexivity. }
  assert (He : starts (Discret1DCreate ds_unit 2 1 nodes_two 0 0 (-1)) 2 = 4%Z).
  { rewrite Hend, Htc, Htn. reflexivity. }
  split; [exact Hp|]. split; [|exact He].
  change (1 + 1)%Z with 2%Z in Hcells. rewrite Hp, He in Hcells. lia.
Defined.

Lemma Discret1DGatherCoord_global_witness :
  (1 <= 2)%Z /\ nproc ds_root = 2%Z /\ rank ds_root = 0%Z /\
  gather_recvcnts ds_root 1 = 3%Z /\
  Discret1DGatherCoord column_two ds_root 3 = 3.
Proof.
  assert (Hnp : (1 <= 2)%Z) by lia.
  assert (Hnn : forall r, (0 <= r < 2)%Z -> (0 <= nodes_two r)%Z).
  { intros r Hr. unfold nodes_two, upd. destruct (Z.eqb r 1); lia. }
  assert (Hp : nproc ds_root = 2%Z) by reflexivity.
  assert (Hrk : rank ds_root = 0%Z) by reflexivity.
  assert (Htn : tnods ds_root =
                tnods (Discret1DCreate ds_unit 2 0 nodes_two 0 (-1) 1))
    by reflexivity.
  assert (Hst : forall i, (0 <= i <= 2)%Z ->
            starts ds_root i =
            starts (Discret1DCreate ds_unit 2 0 nodes_two 0 (-1) 1) i)
    by reflexivity.
  assert (Hown : forall l, (0 <= l < nodes_two 0)%Z -> ncoor ds_root l = IZR l)
    by reflexivity.
  assert (Hoth : forall r l, (1 <= r < 2)%Z -> (0 <= l < nodes_two r)%Z ->
            column_two r l = IZR (sum_below nodes_two r + l)).
  { intros r l Hr _. assert (r = 1%Z) as -> by lia. reflexivity. }
  destruct (Discret1DGatherCoord_global ds_unit ds_root 2 nodes_two 0 (-1) 1
              column_two IZR Hnp Hnn Hp Hrk Htn Hst Hown Hoth) as [Hc Hg].
  split; [exact Hnp|]. split; [exact Hp|]. split; [exact Hrk|]. split.
  - apply (Hc 1%Z). lia.
  - apply (Hg 3%Z). change (tnods ds_root) with 5%Z. lia.
Defined.

Lemma segments_ok_unit : segments_ok ms_unit.
Proof.
  split; [simpl; lia|]. split; [reflexivity|].
  intros i Hi. simpl in Hi. assert (i = 0%Z) as -> by lia.
  cbv [ms_unit istart upd zeroInt]. simpl. lia.
Qed.

(** the one-cell axis with its buffer of four nodes: the generation is
    defined whatever the ends of the axis *)
Lemma generation_defined_unit ms :
  segments_ok ms -> nsegs ms = 1%Z -> biases ms 0 = 1 ->
  generation_defined ds_unit ms.
Proof.
  intros Hok Hn Hb. split; [reflexivity|]. split; [vm_compute; discriminate|].
  split.
  - intros i Hi. rewrite Hn in Hi. assert (i = 0%Z) as -> by lia.
    left. exact Hb.
  - apply starts_clear_first; [exact Hok | reflexivity].
Qed.

Lemma Discret1DGenCoord_ghosts_witness :
  segments_ok ms_unit /\ generation_defined ds_unit ms_unit /\
  (2 <= nnods ds_unit)%Z /\
  exists loc,
    Discret1DGenCoord [] ds_unit ms_unit = Some loc /\
    ncoor loc 0 - ncoor loc (-1) = ncoor loc 1 - ncoor loc 0 /\
    ccoor loc (-1) = (ncoor loc (-1) + ncoor loc 0) / 2.
Proof.
  assert (Hdef : generation_defined ds_unit ms_unit)
    by (apply generation_defined_unit;
        [exact segments_ok_unit | reflexivity | reflexivity]).
  assert (Hlo : (0 <= pstart ds_unit + gen_lo ds_unit)%Z)
    by (unfold gen_lo; simpl; lia).
  assert (Hhi : (pstart ds_unit + gen_hi ds_unit
                 <= istart ms_unit (nsegs ms_unit) + 1)%Z)
    by (cbv [ms_unit ds_unit pstart gen_hi grnext nnods istart nsegs upd zeroInt];
        simpl; lia).
  assert (Hle : (gen_lo ds_unit <= gen_hi ds_unit)%Z)
    by (unfold gen_lo, gen_hi; simpl; lia).
  assert (Hn : (2 <= nnods ds_unit)%Z) by (simpl; lia).
  destruct (Discret1DGenCoord_ghosts [] ds_unit ms_unit segments_ok_unit
              Hdef Hlo Hhi Hle Hn) as (loc & Hrun & Hfirst & _ & Hcen).
  split; [exact segments_ok_unit|]. split; [exact Hdef|]. split; [exact Hn|].
  exists loc. split; [exact Hrun|]. split.
  - apply Hfirst. reflexivity.
  - apply (Hcen (-1)%Z). simpl. lia.
Defined.


Lemma Discret1DStretch_twice_witness :
  1 / 2 <> 1 /\ -1 = - (1 / 2) / (1 - 1 / 2) /\
  ncoor (fst (Discret1DStretch
                (fst (Discret1DStretch ds_line ms_line (1 / 2)))
                (snd (Discret1DStretch ds_line ms_line (1 / 2))) (-1))) 2 = 3.
Proof.
  assert (H1 : 1 / 2 <> 1) by lra.
  assert (H2 : -1 = - (1 / 2) / (1 - 1 / 2)) by lra.
  destruct (Discret1DStretch_twice ds_line ms_line (1 / 2) (-1))
    as (_ & _ & _ & Hback).
  split; [exact H1|]. split; [exact H2|].
  destruct (Hback H1 H2 2%Z) as [_ Hn]. rewrite Hn.
  cbv [ds_line ncoor upd]. simpl. reflexivity.
Defined.

Lemma FDSTAGStretch_global_box_witness :
  (0 <= nsegs (msx fs_line))%Z /\ (0 <= nsegs (msy fs_line))%Z /\
  (0 <= nsegs (msz fs_line))%Z /\
  box_ex (FDSTAGGetGlobalBox (FDSTAGStretch fs_line (1 / 10) 0 1) box_all)
  = Some (27 / 10) /\
  box_volume (FDSTAGGetGlobalBox (FDSTAGStretch fs_line (1 / 10) 0 1) box_all)
  = Some (297 / 100).
Proof.
  assert (Hx : (0 <= nsegs (msx fs_line))%Z) by (simpl; lia).
  assert (Hy : (0 <= nsegs (msy fs_line))%Z) by (simpl; lia).
  assert (Hz : (0 <= nsegs (msz fs_line))%Z) by (simpl; lia).
  destruct (FDSTAGStretch_global_box fs_line (1 / 10) 0 1 box_all Hx Hy Hz)
    as (_ & Hex & _ & _ & _ & _ & Hvol).
  split; [exact Hx|]. split; [exact Hy|]. split; [exact Hz|]. split.
  - rewrite Hex. cbv [FDSTAGGetGlobalBox box_ex box_all store scaled option_map
      fs_line msx ms_line xstart nsegs upd]. simpl. f_equal. lra.
  - rewrite Hvol. cbv [FDSTAGGetGlobalBox box_volume box_bx box_by box_bz box_ex
      box_ey box_ez box_all store scaled option_map fs_line msx msy msz ms_line
      ms_unit xstart nsegs upd zeroScal]. simpl. f_equal. lra.
Defined.

Lemma axis_fits_default beg end_ :
  axis_fits ds_unit (MeshSeg1DCreate beg end_ 1 msi_default).
Proof.
  assert (Hi : forall i, istart (MeshSeg1DCreate beg end_ 1 msi_default) i =
                         upd (upd zeroInt 0 0%Z) 1 1%Z i) by reflexivity.
  assert (Hn : nsegs (MeshSeg1DCreate beg end_ 1 msi_default) = 1%Z)
    by reflexivity.
  assert (Hok : segments_ok (MeshSeg1DCreate beg end_ 1 msi_default)).
  { split; [rewrite Hn; lia|]. split; [rewrite Hi; reflexivity|].
    intros i Hr. rewrite Hn in Hr. assert (i = 0%Z) as -> by lia.
    rewrite !Hi. cbv [upd zeroInt]. simpl. lia. }
  split; [exact Hok|]. split; [|split; [|split]].
  - apply generation_defined_unit; [exact Hok | exact Hn | reflexivity].
  - unfold gen_lo. simpl. lia.
  - rewrite Hn, Hi. unfold gen_hi. cbv [upd zeroInt]. simpl. lia.
  - unfold gen_hi. simpl. lia.
Qed.

Lemma FDSTAGGenCoord_boxes_witness :
  axis_fits (dsx fs_cube) (MeshSeg1DCreate 0 (0 + 2) 1 msi_default) /\
  exists f',
    FDSTAGGenCoord [] [] [] fs_cube usr_cell = Some f' /\
    box_ex (FDSTAGGetLocalBox f' box_all) = Some 2 /\
    box_ez (FDSTAGGetGlobalBox f' box_all) = Some 4.
Proof.
  destruct (FDSTAGGenCoord_boxes [] [] [] fs_cube usr_cell box_all
              (axis_fits_default 0 (0 + 2)) (axis_fits_default 0 (0 + 3))
              (axis_fits_default 0 (0 + 4)))
    as (f' & Hrun & Hglob & Hloc & _ & _ & _ & Hx1 & _ & _).
  split; [exact (axis_fits_default 0 (0 + 2))|].
  exists f'. split; [exact Hrun|]. split.
  - rewrite Hloc.
    change (Some (node_coord
                    (MeshSeg1DCreate (Usr.x_left usr_cell)
                       (Usr.x_left usr_cell + Usr.W usr_cell)
                       (Usr.nel_x usr_cell) (Usr.mseg_x usr_cell))
                    (Usr.nel_x usr_cell)) = Some 2).
    rewrite Hx1. simpl. f_equal. lra.
  - rewrite Hglob. simpl. f_equal. lra.
Defined.

Lemma FDSTAGGetNeighbProc_layout_witness :
  (-1 <= 0 <= 1)%Z /\ (-1 <= 1 <= 1)%Z /\
  FDSTAGGetNeighbProc ds_unit ds_unit ds_unit zeroInt 13 = 0%Z /\
  FDSTAGGetNeighbProc ds_unit ds_unit ds_unit zeroInt 14 = (-1)%Z.
Proof.
  assert (H0 : (-1 <= 0 <= 1)%Z) by lia.
  assert (H1 : (-1 <= 1 <= 1)%Z) by lia.
  split; [exact H0|]. split; [exact H1|]. split.
  - exact (proj1 (FDSTAGGetNeighbProc_layout ds_unit ds_unit ds_unit zeroInt
                    0 0 0 H0 H0 H0)).
  - exact (proj1 (FDSTAGGetNeighbProc_layout ds_unit ds_unit ds_unit zeroInt
                    1 0 0 H1 H0 H0)).
Defined.

Lemma keeps_owned_sequential : keeps_owned.
Proof. intros da a k j i _. reflexivity. Qed.

Lemma sized_box nx ny nz :
  (0 <= nx)%Z -> (0 <= ny)%Z -> (0 <= nz)%Z -> sized (da_box nx ny nz).
Proof. intros Hx Hy Hz. repeat split; assumption. Qed.

Lemma DOFIndexCompute_numbering_witness :
  keeps_owned /\ sized (da_box 2 1 1) /\ IDXCOUPLED <> IDXNONE /\
  exists id',
    DOFIndexCompute
      (DOFIndexCreate (da_box 1 1 1) (da_box 2 1 1) (da_box 1 2 1) (da_box 1 1 2))
      (da_box 1 1 1) (da_box 2 1 1) (da_box 1 2 1) (da_box 1 1 2) IDXCOUPLED
    = Some id' /\
    (ivy id')@[0, 1, 0] = 3 /\ (ip id')@[0, 0, 0] = 6.
Proof.
  assert (Hm : IDXCOUPLED <> IDXNONE) by discriminate.
  assert (Sx : sized (da_box 2 1 1)) by (apply sized_box; lia).
  assert (Sy : sized (da_box 1 2 1)) by (apply sized_box; lia).
  assert (Sz : sized (da_box 1 1 2)) by (apply sized_box; lia).
  assert (Sc : sized (da_box 1 1 1)) by (apply sized_box; lia).
  destruct (DOFIndexCompute_numbering
              (DOFIndexCreate (da_box 1 1 1) (da_box 2 1 1) (da_box 1 2 1)
                 (da_box 1 1 2))
              (da_box 1 1 1) (da_box 2 1 1) (da_box 1 2 1) (da_box 1 1 2)
              IDXCOUPLED keeps_owned_sequential Sx Sy Sz Sc Hm)
    as (id' & Hrun & _ & _ & Hy & _ & Hp).
  split; [exact keeps_owned_sequential|]. split; [exact Sx|].
  split; [exact Hm|]. exists id'. split; [exact Hrun|]. split.
  - rewrite Hy by (unfold owned; simpl; lia). reflexivity.
  - rewrite Hp by (unfold owned; simpl; lia). reflexivity.
Defined.

Lemma JacResGetPressShift_mean_witness :
  pShiftAct jr_cube = true /\
  (1 <= tcels (dsx (fs jr_cube)))%Z /\ (1 <= tcels (dsy (fs jr_cube)))%Z /\
  4 <= pShift (JacResGetPressShift [] jr_cube) <= 4.
Proof.
  assert (Hact : pShiftAct jr_cube = true) by reflexivity.
  assert (H1 : (1 <= tcels (dsx (fs jr_cube)))%Z) by (simpl; lia).
  assert (H2 : (1 <= tcels (dsy (fs jr_cube)))%Z) by (simpl; lia).
  split; [exact Hact|]. split; [exact H1|]. split; [exact H2|].
  apply (proj2 (JacResGetPressShift_mean [] jr_cube 4 4 Hact H1 H2));
    [reflexivity | reflexivity | reflexivity | simpl; lia |].
  intros j i _ _. unfold get3. simpl. lra.
Defined.

Lemma linear_velocity_spin : linear_velocity G_spin jr_spin.
Proof.
  repeat split; intros k j i; unfold get3; simpl; unfold zero3; lra.
Qed.

Lemma cube_steps :
  node_dx fs_cube 0 <> 0 /\ node_dy fs_cube 0 <> 0 /\
  cell_dx fs_cube 0 <> 0 /\ cell_dy fs_cube 0 <> 0 /\ cell_dz fs_cube 0 <> 0.
Proof.
  unfold node_dx, node_dy, cell_dx, cell_dy, cell_dz, SIZE_NODE, SIZE_CELL.
  cbv [fs_cube dsx dsy dsz ds_unit ccoor ncoor pstart upd zeroScal]. simpl.
  repeat split; lra.
Qed.

Lemma JacResGetVorticity_linear_witness :
  keeps_owned /\ linear_velocity G_spin jr_spin /\
  (ldxy (JacResGetVorticity jr_spin))@[0, 0, 0] = 2.
Proof.
  split; [exact keeps_owned_sequential|]. split; [exact linear_velocity_spin|].
  destruct cube_steps as (Hx & Hy & _).
  destruct (JacResGetVorticity_linear G_spin jr_spin 0 0 0
              keeps_owned_sequential linear_velocity_spin) as (Hz & _).
  rewrite Hz; [simpl; lra | simpl; lia | unfold owned; simpl; lia
              | exact Hx | exact Hy].
Defined.

Lemma JacResGetEffStrainRate_linear_witness :
  linear_velocity G_spin jr_spin /\
  Bulk.theta (Cell.svBulk (svCell (JacResGetEffStrainRate jr_spin) 0)) = 0 /\
  Edge.d (svXYEdge (JacResGetEffStrainRate jr_spin) 0) = 0.
Proof.
  split; [exact linear_velocity_spin|].
  destruct cube_steps as (Hx & Hy & Cx & Cy & Cz).
  destruct (JacResGetEffStrainRate_linear G_spin jr_spin 0 0 0
              linear_velocity_spin) as (Hc & He & _).
  split.
  - destruct Hc as (Hth & _);
      [unfold is_cell; simpl; lia | exact Cx | exact Cy | exact Cz|].
    etransitivity; [exact Hth|]. simpl. lra.
  - etransitivity; [apply He; [simpl; lia | exact Hx | exact Hy]|]. simpl. lra.
Defined.

Lemma residual_read_back_witness :
  lnv (dof (fs jr_res)) = (nXFace (fs jr_res) + nYFace (fs jr_res)
                           + nZFace (fs jr_res))%Z /\
  (0 <= 6 < coupled_size (fs jr_res))%Z /\
  unconstrained (bc jr_res) 6 /\
  residual_entry
    (JacResCopyContinuityRes
       (JacResCopyMomentumRes jr_res (JacResCopyRes jr_res zeroScal))
       (JacResCopyRes jr_res zeroScal)) 6 = 7.
Proof.
  assert (Hl : lnv (dof (fs jr_res)) =
               (nXFace (fs jr_res) + nYFace (fs jr_res) + nZFace (fs jr_res))%Z)
    by reflexivity.
  assert (Hd : (0 <= 6 < coupled_size (fs jr_res))%Z)
    by (unfold coupled_size; simpl; lia).
  assert (Hu : unconstrained (bc jr_res) 6)
    by (split; intros n Hn; simpl in Hn; lia).
  destruct (residual_read_back jr_res zeroScal 6 Hl
              ltac:(simpl; lia) ltac:(simpl; lia) ltac:(simpl; lia) Hd)
    as [Hback Hres].
  split; [exact Hl|]. split; [exact Hd|]. split; [exact Hu|].
  rewrite Hback, (Hres Hu). reflexivity.
Defined.

Lemma FDSTAGCreate_counts_witness :
  exists fs',
    FDSTAGCreate fs_cube 3 2 2 0 0 0 = Ok fs' /\
    (0 <= da_rx (DA_CEN fs') < da_m (DA_CEN fs'))%Z /\
    ncels (dsx fs') = 2%Z /\ nnods (dsx fs') = 3%Z /\ nCells fs' = 2%Z.
Proof.
  eexists. split; [reflexivity|].
  match goal with
  | |- context [DA_CEN ?f] =>
      pose proof (FDSTAGCreate_counts fs_cube f 3 2 2 0 0 0 eq_refl) as Hc
  end.
  cbv zeta in Hc.
  assert (Hr : (0 <= 0 < 1)%Z) by lia.
  assert (Hg : (-1)%Z = (-1)%Z <-> 0%Z = (1 - 1)%Z) by (split; reflexivity).
  destruct (Hc Hr Hr Hr Hg Hg Hg) as ((Hnc & Hnn & _) & _ & _ & Hcells).
  split; [exact Hr|]. split; [exact Hnc|]. split; [exact Hnn | exact Hcells].
Defined.

Lemma MeshSeg1DGenCoord_progression_witness :
  (2 <= istart ms_biased (0 + 1) - istart ms_biased 0)%Z /\
  1 + biases ms_biased 0 <> 0 /\
  MeshSeg1DGenCoord ms_biased 0 (4 + 1) 0 0 zeroScal (0 + 1)
  - MeshSeg1DGenCoord ms_biased 0 (4 + 1) 0 0 zeroScal (0 + 0) = 1 / 8 /\
  MeshSeg1DGenCoord ms_biased 0 (4 + 1) 0 0 zeroScal (0 + 4)
  - MeshSeg1DGenCoord ms_biased 0 (4 + 1) 0 0 zeroScal (0 + (4 - 1)) = 3 / 8.
Proof.
  assert (HM : (2 <= istart ms_biased (0 + 1) - istart ms_biased 0)%Z)
    by (cbv [ms_biased istart upd zeroInt]; simpl; lia).
  assert (Hb : 1 + biases ms_biased 0 <> 0)
    by (cbv [ms_biased biases upd zeroScal]; simpl; lra).
  destruct (MeshSeg1DGenCoord_progression ms_biased 0 0 zeroScal HM Hb)
    as (_ & _ & Hfirst & Hlast & _).
  split; [exact HM|]. split; [exact Hb|]. split.
  - etransitivity; [exact Hfirst|].
    cbv [ms_biased xstart istart biases upd zeroScal zeroInt]. simpl. lra.
  - etransitivity; [exact Hlast|].
    cbv [ms_biased xstart istart biases upd zeroScal zeroInt]. simpl. lra.
Defined.

Lemma JacResCreate_svBuff_layout_witness :
  (0 <= nCells fs_line)%Z /\ (0 <= nXYEdg fs_line)%Z /\
  cell_phRat (JacResCreate_svBuff 3 fs_line) 1 = 3%Z /\
  xy_phRat (JacResCreate_svBuff 3 fs_line) 0 = 6%Z /\
  svBuffSz (JacResCreate_svBuff 3 fs_line) = 66%Z.
Proof.
  assert (Hc : (0 <= nCells fs_line)%Z) by (simpl; lia).
  assert (Hxy : (0 <= nXYEdg fs_line)%Z) by (simpl; lia).
  assert (Hxz : (0 <= nXZEdg fs_line)%Z) by (simpl; lia).
  assert (Hyz : (0 <= nYZEdg fs_line)%Z) by (simpl; lia).
  destruct (JacResCreate_svBuff_layout 3 fs_line Hc Hxy Hxz Hyz)
    as (Pc & Pxy & _ & _ & Psz).
  split; [exact Hc|]. split; [exact Hxy|]. split; [|split].
  - rewrite Pc by (simpl; lia). reflexivity.
  - rewrite Pxy by (simpl; lia). reflexivity.
  - rewrite Psz. reflexivity.
Defined.

Lemma FDSTAGView_aspect_witness :
  is_cell fs_line 0 0 1 /\ positive_cell fs_line 0 0 1 /\
  2 <= FDSTAGGetAspectRatio [] fs_line.
Proof.
  assert (Hin : is_cell fs_line 0 0 1) by (unfold is_cell; simpl; lia).
  assert (Hdx : cell_dx fs_line 1 = 2).
  { unfold cell_dx, SIZE_CELL. cbv [fs_line dsx ds_line ncoor pstart upd zeroScal].
    simpl. lra. }
  assert (Hdy : cell_dy fs_line 0 = 1).
  { unfold cell_dy, SIZE_CELL. cbv [fs_line dsy ds_unit ncoor pstart upd zeroScal].
    simpl. lra. }
  assert (Hdz : cell_dz fs_line 0 = 1).
  { unfold cell_dz, SIZE_CELL. cbv [fs_line dsz ds_unit ncoor pstart upd zeroScal].
    simpl. lra. }
  assert (Hpos : positive_cell fs_line 0 0 1).
  { unfold positive_cell. rewrite Hdx, Hdy, Hdz. repeat split; lra. }
  split; [exact Hin|]. split; [exact Hpos|].
  destruct (FDSTAGView_aspect [] fs_line) as [Hall _].
  destruct (Hall 0%Z 0%Z 1%Z Hin Hpos) as (H1 & _).
  rewrite Hdx, Hdy in H1. lra.
Defined.

Lemma Discret1DGenCoord_empty_call_witness :
  let ms := MeshSeg1DCreate 0 6 6 msi_six in
  let ds := Discret1DCreate ds_unit 2 1 nodes_six 0 0 (-1) in
  segments_ok ms /\ (0 <= 0 < nsegs ms)%Z /\ grprev ds <> (-1)%Z /\
  (0 <= nnods ds)%Z /\ (pstart ds - 1)%Z = (istart ms (0 + 1) + 1)%Z /\
  Discret1DGenCoord [] ds ms = None.
Proof.
  intros ms ds.
  assert (Hok : segments_ok ms).
  { split; [vm_compute; discriminate|]. split; [reflexivity|].
    intros i Hi. change (nsegs ms) with 2%Z in Hi.
    assert (Hc : i = 0%Z \/ i = 1%Z) by lia.
    destruct Hc as [-> | ->]; vm_compute; reflexivity. }
  assert (Hi : (0 <= 0 < nsegs ms)%Z) by (vm_compute; split; [discriminate | reflexivity]).
  assert (Hp : grprev ds <> (-1)%Z) by (vm_compute; discriminate).
  assert (Hn : (0 <= nnods ds)%Z) by (vm_compute; discriminate).
  assert (Hs : (pstart ds - 1)%Z = (istart ms (0 + 1) + 1)%Z) by reflexivity.
  repeat (split; [assumption|]).
  exact (Discret1DGenCoord_empty_call [] ds ms 0 Hok Hi Hp Hn Hs).
Defined.
